(** * huffmania: a shallow embedding of [huffmania/main.c]

    The C program builds a Huffman tree inside three fixed arrays, flattens
    the tree into a packed table of code bits, encodes a buffer into a bit
    stream and decodes it again by walking the tree.

    Conventions of the embedding.
    - [size_t] is a 64-bit unsigned integer and [uint32_t] a 32-bit one; both
      are values of [Z] and every wrap-around is written out.
    - A C array is a [list Z] of the declared length.  An access outside the
      array is undefined behaviour in C; here it yields [None], and so does
      every computation that depends on it.
    - [char] data is a list of byte values [0 .. 255]: [char] is read as
      unsigned.  Where [char] is signed, a byte above 127 is a negative index
      in [freq_tree_accumulate]; the two readings agree on bytes [0 .. 127].
    - [printf] output is dropped, except for the tokens printed by
      [stream_decode] and the lines printed by the two dump functions, which
      are returned as lists. *)

From Stdlib Require Import ZArith Lia Bool.
From stdpp Require Import base tactics option numbers list.

Local Open Scope Z_scope.

(** ** Integer types and constants *)

Definition SIZE_MOD : Z := 2 ^ 64.
Definition UINT32_MOD : Z := 2 ^ 32.
Definition UINT8_MOD : Z := 2 ^ 8.

Definition TOKEN_SIZE : Z := 256.
Definition INVALID_TOKEN : Z := SIZE_MOD - 1.
Definition MAX_ENCODING_TABLE_BITS : Z := (TOKEN_SIZE + 1) * TOKEN_SIZE - 1.
Definition MAX_ENCODING_TABLE_BYTES : Z := (MAX_ENCODING_TABLE_BITS + 7) / 8.
Definition FREQ_TREE_MAX_NODES : Z := TOKEN_SIZE * 2 - 1.
Definition STREAM_BYTES : Z := 8192.

(** ** The error monad of undefined behaviour *)

Definition bind {A B : Type} (m : option A) (k : A -> option B) : option B :=
  match m with
  | Some a => k a
  | None => None
  end.

Notation "'do' x <- m ; k" := (bind m (fun x => k))
  (at level 10, x pattern, m at level 100, k at level 200).

(** ** Arrays with bounds *)

Definition in_bounds (a : list Z) (i : Z) : bool :=
  (0 <=? i) && (i <? Z.of_nat (length a)).

Definition aget (a : list Z) (i : Z) : option Z :=
  if in_bounds a i then a !! Z.to_nat i else None.

Definition aset (a : list Z) (i v : Z) : option (list Z) :=
  if in_bounds a i then Some (<[Z.to_nat i := v]> a) else None.

(** ** Data structures *)

Record FreqTree : Type := mkFreqTree {
  m_count : list Z;
  m_left : list Z;
  m_right : list Z;
  m_top : Z
}.

Module EncodedTable.
Record t : Type := mk {
  m_packedData : list Z;
  m_offset : list Z;
  m_bitcount : list Z;
  m_currentOffset : Z
}.
End EncodedTable.

Module Stream.
Record t : Type := mk {
  m_buffer : list Z;
  m_offset : Z
}.
End Stream.

Definition set_count (t : FreqTree) (c : list Z) : FreqTree :=
  mkFreqTree c (m_left t) (m_right t) (m_top t).

Definition set_top (t : FreqTree) (top : Z) : FreqTree :=
  mkFreqTree (m_count t) (m_left t) (m_right t) top.

(** ** Frequency tree *)

Definition freq_tree_init : FreqTree :=
  {| m_count := replicate (Z.to_nat FREQ_TREE_MAX_NODES) 0;
     m_left := replicate (Z.to_nat FREQ_TREE_MAX_NODES) INVALID_TOKEN;
     m_right := replicate (Z.to_nat FREQ_TREE_MAX_NODES) INVALID_TOKEN;
     m_top := FREQ_TREE_MAX_NODES |}.

(** The body of the [for] loop of [freq_tree_accumulate], once per byte. *)
Fixpoint accumulate_loop (t : FreqTree) (pData : list Z) : option FreqTree :=
  match pData with
  | [] => Some t
  | c :: rest =>
      do n <- aget (m_count t) c;
      do cnt <- aset (m_count t) c ((n + 1) mod SIZE_MOD);
      accumulate_loop (set_count t cnt) rest
  end.

(** The loop counter is a [uint32_t] compared with a [size_t] length: from
    [len = 2^32] on it wraps before it reaches [len] and the loop runs off the
    end of the data. *)
Definition freq_tree_accumulate (t : FreqTree) (pData : list Z) : option FreqTree :=
  if Z.of_nat (length pData) <? UINT32_MOD then accumulate_loop t pData else None.

(** ** Packed code table *)

Definition encoded_table_init (pTable : EncodedTable.t) : EncodedTable.t :=
  {| EncodedTable.m_packedData := EncodedTable.m_packedData pTable;
     EncodedTable.m_offset := replicate (Z.to_nat TOKEN_SIZE) 0;
     EncodedTable.m_bitcount := replicate (Z.to_nat TOKEN_SIZE) 0;
     EncodedTable.m_currentOffset := 0 |}.

Definition set_encoded_bit (pTable : EncodedTable.t) (bit_offset value : Z)
  : option EncodedTable.t :=
  let data := EncodedTable.m_packedData pTable in
  let shift := (7 - bit_offset mod 8) mod UINT8_MOD in
  do old <- aget data (bit_offset / 8);
  do data' <- aset data (bit_offset / 8)
                (Z.lor old (Z.shiftl value shift) mod UINT8_MOD);
  Some {| EncodedTable.m_packedData := data';
          EncodedTable.m_offset := EncodedTable.m_offset pTable;
          EncodedTable.m_bitcount := EncodedTable.m_bitcount pTable;
          EncodedTable.m_currentOffset := EncodedTable.m_currentOffset pTable |}.

Definition read_encoded_bit (pTable : EncodedTable.t) (bit_offset : Z) : option Z :=
  let shift := (7 - bit_offset mod 8) mod UINT8_MOD in
  do byte <- aget (EncodedTable.m_packedData pTable) (bit_offset / 8);
  Some (Z.land (Z.shiftr byte shift) 1).

(** ** Tree construction *)

(** The [for] loop of [get_smallest_huffman]: [n] iterations are left, [i] is
    the loop counter. *)
Fixpoint smallest_scan (count : list Z) (n : nat) (i small_val small_ind : Z)
  : option Z :=
  match n with
  | O => Some small_ind
  | S n' =>
      do val <- aget count i;
      if negb (val =? 0) && (val <? small_val)
      then smallest_scan count n' (i + 1) val i
      else smallest_scan count n' (i + 1) small_val small_ind
  end.

Definition get_smallest_huffman (t : FreqTree) (scan_size : Z) : option Z :=
  smallest_scan (m_count t) (Z.to_nat scan_size) 0 INVALID_TOKEN INVALID_TOKEN.

(** The [while (1)] loop of [generate_huffman].  It returns the tree and the
    value of [new_index] at the [break]. *)
Fixpoint generate_loop (fuel : nat) (t : FreqTree) (new_index : Z)
  : option (FreqTree * Z) :=
  match fuel with
  | O => None
  | S fuel' =>
      do ind1 <- get_smallest_huffman t new_index;
      if ind1 =? INVALID_TOKEN then Some (t, new_index) else
      do val1 <- aget (m_count t) ind1;
      do c1 <- aset (m_count t) ind1 0;
      let t1 := set_count t c1 in
      do ind2 <- get_smallest_huffman t1 new_index;
      if ind2 =? INVALID_TOKEN then Some (t1, new_index) else
      do val2 <- aget (m_count t1) ind2;
      do c2 <- aset (m_count t1) ind2 0;
      do c3 <- aset c2 new_index ((val1 + val2) mod SIZE_MOD);
      do l3 <- aset (m_left t1) new_index ind1;
      do r3 <- aset (m_right t1) new_index ind2;
      generate_loop fuel' (mkFreqTree c3 l3 r3 (m_top t1))
                    ((new_index + 1) mod SIZE_MOD)
  end.

(** Every pass through the loop but the last hides two nodes and adds one, so
    the loop body runs at most [TOKEN_SIZE] times (lemma [generate_huffman_spec]). *)
Definition generate_huffman (t : FreqTree) : option FreqTree :=
  do (t', new_index) <- generate_loop (Z.to_nat TOKEN_SIZE) t TOKEN_SIZE;
  Some (set_top t' ((new_index - 1) mod SIZE_MOD)).

(** ** Code table derivation *)

(** The [BitChain] list kept on the C stack is a list of bits, the most
    recent link first; [NULL] is the empty list. *)
Fixpoint write_chain (pEnc : EncodedTable.t) (write_offset : Z) (pChain : list Z)
  : option EncodedTable.t :=
  match pChain with
  | [] => Some pEnc
  | value :: parent =>
      let write_offset' := (write_offset - 1) mod SIZE_MOD in
      do pEnc' <- set_encoded_bit pEnc write_offset' value;
      write_chain pEnc' write_offset' parent
  end.

(** [fuel] bounds the depth of the recursion. *)
Fixpoint freq_tree_traverse (fuel : nat) (pEnc : EncodedTable.t) (t : FreqTree)
    (top : Z) (pChain : list Z) (bitcount : Z) (onlyCount : bool)
  : option (EncodedTable.t * Z) :=
  match fuel with
  | O => None
  | S fuel' =>
      do l <- aget (m_left t) top;
      if l =? INVALID_TOKEN then
        if onlyCount then
          do bc <- aset (EncodedTable.m_bitcount pEnc) top bitcount;
          Some ({| EncodedTable.m_packedData := EncodedTable.m_packedData pEnc;
                   EncodedTable.m_offset := EncodedTable.m_offset pEnc;
                   EncodedTable.m_bitcount := bc;
                   EncodedTable.m_currentOffset := EncodedTable.m_currentOffset pEnc |},
                bitcount)
        else
          do off <- aset (EncodedTable.m_offset pEnc) top
                      (EncodedTable.m_currentOffset pEnc);
          let cur := (EncodedTable.m_currentOffset pEnc + bitcount) mod SIZE_MOD in
          do pEnc' <- write_chain
                        {| EncodedTable.m_packedData := EncodedTable.m_packedData pEnc;
                           EncodedTable.m_offset := off;
                           EncodedTable.m_bitcount := EncodedTable.m_bitcount pEnc;
                           EncodedTable.m_currentOffset := cur |}
                        cur pChain;
          Some (pEnc', bitcount)
      else
        do (pEnc1, size1) <- freq_tree_traverse fuel' pEnc t l (0 :: pChain)
                                ((bitcount + 1) mod SIZE_MOD) onlyCount;
        do r <- aget (m_right t) top;
        do (pEnc2, size2) <- freq_tree_traverse fuel' pEnc1 t r (1 :: pChain)
                                ((bitcount + 1) mod SIZE_MOD) onlyCount;
        Some (pEnc2, (size1 + size2) mod SIZE_MOD)
  end.

(** [create_encodings] is declared [size_t] but has no [return]; the embedding
    returns the table together with [total_bitcount], the number it prints.
    A path that visits a node twice never ends, and a path without repetition
    has at most [FREQ_TREE_MAX_NODES] nodes, which is the recursion budget. *)
Definition create_encodings (pEnc : EncodedTable.t) (t : FreqTree)
  : option (Z * EncodedTable.t) :=
  let pEnc0 := encoded_table_init pEnc in
  do (pEnc1, total_bitcount) <-
     freq_tree_traverse (Z.to_nat FREQ_TREE_MAX_NODES) pEnc0 t (m_top t) [] 0 false;
  do (pEnc2, _) <-
     freq_tree_traverse (Z.to_nat FREQ_TREE_MAX_NODES) pEnc1 t (m_top t) [] 0 true;
  Some (total_bitcount, pEnc2).

(** ** Bit stream *)

Definition stream_reset (pStream : Stream.t) : Stream.t :=
  {| Stream.m_buffer := Stream.m_buffer pStream; Stream.m_offset := 0 |}.

Definition stream_write_bit (pStream : Stream.t) (value : Z) : option Stream.t :=
  let buf := Stream.m_buffer pStream in
  let off := Stream.m_offset pStream in
  let shift := (7 - off mod 8) mod UINT8_MOD in
  do old <- aget buf (off / 8);
  do buf' <- aset buf (off / 8) (Z.lor old (Z.shiftl value shift) mod UINT8_MOD);
  Some {| Stream.m_buffer := buf'; Stream.m_offset := (off + 1) mod SIZE_MOD |}.

Definition stream_read_bit (pStream : Stream.t) : option (Z * Stream.t) :=
  let buf := Stream.m_buffer pStream in
  let off := Stream.m_offset pStream in
  let shift := (7 - off mod 8) mod UINT8_MOD in
  do byte <- aget buf (off / 8);
  Some (Z.land (Z.shiftr byte shift) 1,
        {| Stream.m_buffer := buf; Stream.m_offset := (off + 1) mod SIZE_MOD |}).

(** ** Encoding and decoding *)

(** The inner [while (startBit != endBit)] loop of [stream_encode]. *)
Fixpoint encode_bits (fuel : nat) (pStream : Stream.t) (pEnc : EncodedTable.t)
    (startBit endBit : Z) : option Stream.t :=
  if startBit =? endBit then Some pStream else
  match fuel with
  | O => None
  | S fuel' =>
      do bit <- read_encoded_bit pEnc startBit;
      do pStream' <- stream_write_bit pStream bit;
      encode_bits fuel' pStream' pEnc ((startBit + 1) mod UINT32_MOD) endBit
  end.

(** The outer [for] loop of [stream_encode], once per byte.  [startBit]
    reaches [endBit] after [(endBit - startBit) mod 2^32] steps, which is the
    budget of the inner loop. *)
Fixpoint encode_loop (pStream : Stream.t) (pData : list Z) (pEnc : EncodedTable.t)
  : option Stream.t :=
  match pData with
  | [] => Some pStream
  | org :: rest =>
      do off <- aget (EncodedTable.m_offset pEnc) org;
      do cnt <- aget (EncodedTable.m_bitcount pEnc) org;
      let startBit := off mod UINT32_MOD in
      let endBit := (startBit + cnt) mod UINT32_MOD in
      do pStream' <- encode_bits (Z.to_nat ((endBit - startBit) mod UINT32_MOD))
                       pStream pEnc startBit endBit;
      encode_loop pStream' rest pEnc
  end.

Definition stream_encode (pStream : Stream.t) (pData : list Z) (pEnc : EncodedTable.t)
  : option Stream.t :=
  if Z.of_nat (length pData) <? UINT32_MOD then encode_loop pStream pData pEnc
  else None.

(** Both loops of [stream_decode]; [current] is the node reached so far.  Each
    step reads one bit, so the number of bits left in the buffer bounds the
    number of steps: at [fuel = 0] the next read is outside the buffer. *)
Fixpoint decode_loop (fuel : nat) (pStream : Stream.t) (t : FreqTree) (current : Z)
  : option (list Z * Stream.t) :=
  match fuel with
  | O => None
  | S fuel' =>
      do (bit, pStream') <- stream_read_bit pStream;
      do next <- (if negb (bit =? 0) then aget (m_right t) current
                  else aget (m_left t) current);
      let current' := next mod UINT32_MOD in
      do l <- aget (m_left t) current';
      if negb (l =? INVALID_TOKEN) then decode_loop fuel' pStream' t current'
      else if current' =? 0 then Some ([current'], pStream')
      else
        do (out, pStream'') <- decode_loop fuel' pStream' t (m_top t mod UINT32_MOD);
        Some (current' :: out, pStream'')
  end.

Definition bits_left (pStream : Stream.t) : nat :=
  Z.to_nat (8 * Z.of_nat (length (Stream.m_buffer pStream)) - Stream.m_offset pStream).

Definition stream_decode (pStream : Stream.t) (t : FreqTree)
  : option (list Z * Stream.t) :=
  decode_loop (bits_left pStream) pStream t (m_top t mod UINT32_MOD).

(** The whole of [main] on a data buffer: the table and the stream are the
    automatic variables [enc] and [encodedStream], whose bytes [main] never
    sets.  The result is the list of tokens [stream_decode] prints. *)
Definition huffman_main (enc0 : EncodedTable.t) (stream0 : Stream.t) (data : list Z)
  : option (list Z) :=
  do t0 <- freq_tree_accumulate freq_tree_init data;
  do t <- generate_huffman t0;
  do (_, enc) <- create_encodings enc0 t;
  do s <- stream_encode (stream_reset stream0) data enc;
  do (out, _) <- stream_decode (stream_reset s) t;
  Some out.

(** Callers' loops over the two stream primitives. *)
Fixpoint stream_write_bits (pStream : Stream.t) (bits : list Z) : option Stream.t :=
  match bits with
  | [] => Some pStream
  | b :: rest =>
      do pStream' <- stream_write_bit pStream b;
      stream_write_bits pStream' rest
  end.

Fixpoint stream_read_bits (n : nat) (pStream : Stream.t) : option (list Z * Stream.t) :=
  match n with
  | O => Some ([], pStream)
  | S n' =>
      do (b, pStream') <- stream_read_bit pStream;
      do (rest, pStream'') <- stream_read_bits n' pStream';
      Some (b :: rest, pStream'')
  end.

(** ** Diagnostic dumps *)

(** The [for] loop of [freq_tree_dump]: the pairs [(i, m_count[i])] handed to
    [printf], in the order of the calls. *)
Fixpoint dump_counts (count : list Z) (n : nat) (i : Z) : option (list (Z * Z)) :=
  match n with
  | O => Some []
  | S n' =>
      do c <- aget count i;
      do rest <- dump_counts count n' (i + 1);
      Some (if c =? 0 then rest else (i, c) :: rest)
  end.

Definition freq_tree_dump (t : FreqTree) : option (list (Z * Z)) :=
  dump_counts (m_count t) (Z.to_nat FREQ_TREE_MAX_NODES) 0.

(** The inner [while (startBit != endBit)] loop of [encoded_table_dump]: the
    bits it prints. *)
Fixpoint dump_bits (fuel : nat) (pEnc : EncodedTable.t) (startBit endBit : Z)
  : option (list Z) :=
  if startBit =? endBit then Some [] else
  match fuel with
  | O => None
  | S fuel' =>
      do bit <- read_encoded_bit pEnc startBit;
      do rest <- dump_bits fuel' pEnc ((startBit + 1) mod UINT32_MOD) endBit;
      Some (bit :: rest)
  end.

(** The outer [for] loop of [encoded_table_dump]: one line per token with a
    nonzero [m_bitcount], the token and the bits printed after it. *)
Fixpoint dump_tokens (pEnc : EncodedTable.t) (n : nat) (i : Z)
  : option (list (Z * list Z)) :=
  match n with
  | O => Some []
  | S n' =>
      do cnt <- aget (EncodedTable.m_bitcount pEnc) i;
      if cnt =? 0 then dump_tokens pEnc n' (i + 1) else
      do off <- aget (EncodedTable.m_offset pEnc) i;
      let startBit := off mod UINT32_MOD in
      let endBit := (startBit + cnt) mod UINT32_MOD in
      do bits <- dump_bits (Z.to_nat ((endBit - startBit) mod UINT32_MOD))
                   pEnc startBit endBit;
      do rest <- dump_tokens pEnc n' (i + 1);
      Some ((i, bits) :: rest)
  end.

Definition encoded_table_dump (pEnc : EncodedTable.t) : option (list (Z * list Z)) :=
  dump_tokens pEnc (Z.to_nat TOKEN_SIZE) 0.

(** * Specification vocabulary *)

(** ** Buffers and bits *)

(** A bit is the number 0 or 1. *)
Definition is_bit (b : Z) : Prop := b = 0 \/ b = 1.

(** The bit at bit address [off] of a byte buffer, most significant bit of
    each byte first, as [read_encoded_bit] and [stream_read_bit] compute it. *)
Definition bit_at (buf : list Z) (off : Z) : Z :=
  Z.b2z (Z.testbit (default 0 (buf !! Z.to_nat (off / 8))) (7 - off mod 8)).

(** The [n] bits of a buffer from bit address [off] on, in address order. *)
Fixpoint bits_from (buf : list Z) (off : Z) (n : nat) : list Z :=
  match n with
  | O => []
  | S n' => bit_at buf off :: bits_from buf (off + 1) n'
  end.

(** Every byte of the buffer is zero. *)
Definition all_zero (buf : list Z) : Prop := Forall (fun b => b = 0) buf.

(** The buffer of the stream has its declared size. *)
Definition stream_ok (s : Stream.t) : Prop :=
  length (Stream.m_buffer s) = Z.to_nat STREAM_BYTES.

(** The three arrays of the table have their declared sizes. *)
Definition table_sizes (enc : EncodedTable.t) : Prop :=
  Z.of_nat (length (EncodedTable.m_packedData enc)) = MAX_ENCODING_TABLE_BYTES /\
  Z.of_nat (length (EncodedTable.m_offset enc)) = TOKEN_SIZE /\
  Z.of_nat (length (EncodedTable.m_bitcount enc)) = TOKEN_SIZE.

(** The packed bytes have their declared size and are all zero. *)
Definition table_zeroed (enc : EncodedTable.t) : Prop :=
  Z.of_nat (length (EncodedTable.m_packedData enc)) = MAX_ENCODING_TABLE_BYTES /\
  all_zero (EncodedTable.m_packedData enc).

(** A code table and a stream whose bytes are all zero, as static storage
    would provide them. *)
Definition zeroed_table : EncodedTable.t :=
  {| EncodedTable.m_packedData := replicate (Z.to_nat MAX_ENCODING_TABLE_BYTES) 0;
     EncodedTable.m_offset := replicate (Z.to_nat TOKEN_SIZE) 0;
     EncodedTable.m_bitcount := replicate (Z.to_nat TOKEN_SIZE) 0;
     EncodedTable.m_currentOffset := 0 |}.

Definition zeroed_stream : Stream.t :=
  {| Stream.m_buffer := replicate (Z.to_nat STREAM_BYTES) 0; Stream.m_offset := 0 |}.

(** A code table whose packed bytes hold what was in memory before: here
    every bit set.  [main] declares its table on the stack and
    [encoded_table_init] does not clear [m_packedData]. *)
Definition stale_table : EncodedTable.t :=
  {| EncodedTable.m_packedData := replicate (Z.to_nat MAX_ENCODING_TABLE_BYTES) 255;
     EncodedTable.m_offset := replicate (Z.to_nat TOKEN_SIZE) 0;
     EncodedTable.m_bitcount := replicate (Z.to_nat TOKEN_SIZE) 0;
     EncodedTable.m_currentOffset := 0 |}.

(** ** Counts and scans *)

(** A byte of data is a token: a number below [TOKEN_SIZE]. *)
Definition is_byte (c : Z) : Prop := 0 <= c < TOKEN_SIZE.

(** Number of occurrences of [k] in a data buffer. *)
Fixpoint occ (k : Z) (data : list Z) : Z :=
  match data with
  | [] => 0
  | c :: rest => (if c =? k then 1 else 0) + occ k rest
  end.

(** The count stored for node [i], [0] outside the array. *)
Definition cnt (t : FreqTree) (i : Z) : Z := default 0 (aget (m_count t) i).

(** [r] is the first index in [lo, hi) that holds the least nonzero count. *)
Definition first_smallest (t : FreqTree) (lo hi r : Z) : Prop :=
  lo <= r < hi /\ cnt t r <> 0 /\
  forall j, lo <= j < hi -> cnt t j <> 0 ->
    cnt t r <= cnt t j /\ (cnt t j = cnt t r -> r <= j).

(** Sum of [f 0 .. f (n - 1)]. *)
Fixpoint sum_below (f : Z -> Z) (n : nat) : Z :=
  match n with
  | O => 0
  | S m => sum_below f m + f (Z.of_nat m)
  end.

(** [f] with the value at [j] replaced by [v]. *)
Definition upd (f : Z -> Z) (j v : Z) : Z -> Z :=
  fun i => if i =? j then v else f i.

(** 1 for a count the scan can see, 0 for a hidden one. *)
Definition nonzero (c : Z) : Z := if c =? 0 then 0 else 1.

(** Number of nodes below [n] that the scan can still see. *)
Definition live (t : FreqTree) (n : Z) : Z :=
  sum_below (fun i => nonzero (cnt t i)) (Z.to_nat n).

(** ** Trees in the node arrays *)

(** The tree below a node of the arrays, with the tokens at its leaves. *)
Inductive tree : Type :=
  | Leaf (tok : Z)
  | Node (l r : tree).

(** The tokens at the leaves, left to right. *)
Fixpoint leaves (T : tree) : list Z :=
  match T with
  | Leaf tok => [tok]
  | Node l r => leaves l ++ leaves r
  end.

(** The longest descent from the root to a leaf. *)
Fixpoint height (T : tree) : nat :=
  match T with
  | Leaf _ => O
  | Node l r => S (Nat.max (height l) (height r))
  end.

(** [repr t i T]: node [i] of [t] is the root of [T].  A node is a leaf when
    its [m_left] entry is [INVALID_TOKEN]; the children of an inner node sit
    at lower indices, as [generate_huffman] creates them. *)
Inductive repr (t : FreqTree) : Z -> tree -> Prop :=
  | repr_leaf (i : Z) :
      aget (m_left t) i = Some INVALID_TOKEN ->
      repr t i (Leaf i)
  | repr_node (i l r : Z) (tl tr : tree) :
      aget (m_left t) i = Some l -> l <> INVALID_TOKEN ->
      aget (m_right t) i = Some r ->
      0 <= l < i -> 0 <= r < i ->
      repr t l tl -> repr t r tr ->
      repr t i (Node tl tr).

(** [path T p k]: the descent [p] from the root of [T], [0] for left and [1]
    for right, ends at the leaf of token [k]. *)
Inductive path : tree -> list Z -> Z -> Prop :=
  | path_leaf (k : Z) : path (Leaf k) [] k
  | path_left (l r : tree) (p : list Z) (k : Z) :
      path l p k -> path (Node l r) (0 :: p) k
  | path_right (l r : tree) (p : list Z) (k : Z) :
      path r p k -> path (Node l r) (1 :: p) k.

(** Sum of the code lengths of the leaves of [T] when its root is at depth [d]. *)
Fixpoint code_bits (T : tree) (d : Z) : Z :=
  match T with
  | Leaf _ => d
  | Node l r => code_bits l (d + 1) + code_bits r (d + 1)
  end.

(** The three node arrays have their declared size. *)
Definition tree_sizes (t : FreqTree) : Prop :=
  Z.of_nat (length (m_count t)) = FREQ_TREE_MAX_NODES /\
  Z.of_nat (length (m_left t)) = FREQ_TREE_MAX_NODES /\
  Z.of_nat (length (m_right t)) = FREQ_TREE_MAX_NODES.

(** A tree as [freq_tree_init] and [freq_tree_accumulate] leave it: every
    token slot is a leaf, and the counts add up without reaching
    [INVALID_TOKEN]. *)
Definition accumulated (t : FreqTree) : Prop :=
  tree_sizes t /\
  (forall i, 0 <= i < TOKEN_SIZE -> aget (m_left t) i = Some INVALID_TOKEN) /\
  (forall i, 0 <= i < TOKEN_SIZE -> 0 <= cnt t i) /\
  sum_below (cnt t) (Z.to_nat TOKEN_SIZE) < INVALID_TOKEN.

(** The invariant of the loop of [generate_huffman]; [f0] are the counts the
    loop started from and [n] is [new_index]. *)
Record gen_inv (f0 : Z -> Z) (t : FreqTree) (n : Z) : Prop := {
  gi_sizes : tree_sizes t;
  gi_n : TOKEN_SIZE <= n;
  gi_live : live t n + n <= 2 * TOKEN_SIZE;
  gi_pos : forall i, 0 <= i < n -> 0 <= cnt t i;
  gi_sum : sum_below (cnt t) (Z.to_nat n) < INVALID_TOKEN;
  gi_leaf : forall i, 0 <= i < TOKEN_SIZE -> aget (m_left t) i = Some INVALID_TOKEN;
  gi_node : forall i, TOKEN_SIZE <= i < n ->
    exists l r, aget (m_left t) i = Some l /\ aget (m_right t) i = Some r /\
                0 <= l < i /\ 0 <= r < i;
  gi_last : TOKEN_SIZE < n -> cnt t (n - 1) <> 0;
  gi_repr : forall i, 0 <= i < n -> exists T, repr t i T;
  gi_nodup : forall i T, 0 <= i < n -> cnt t i <> 0 -> repr t i T -> NoDup (leaves T);
  gi_sound : forall i T k, 0 <= i < n -> cnt t i <> 0 -> repr t i T ->
    k ∈ leaves T -> 0 <= k < TOKEN_SIZE /\ f0 k <> 0;
  gi_disj : forall i j Ti Tj k, 0 <= i < n -> 0 <= j < n ->
    cnt t i <> 0 -> cnt t j <> 0 -> repr t i Ti -> repr t j Tj ->
    k ∈ leaves Ti -> k ∈ leaves Tj -> i = j;
  gi_cover : forall k, 0 <= k < TOKEN_SIZE -> f0 k <> 0 ->
    exists i T, 0 <= i < n /\ cnt t i <> 0 /\ repr t i T /\ k ∈ leaves T
}.

(** What the loop leaves behind: either no node was created, and then at most
    one token had a count, or the last node created is the root of a tree
    whose leaves are exactly the tokens that had a count. *)
Definition gen_post (f0 : Z -> Z) (t : FreqTree) (n : Z) : Prop :=
  tree_sizes t /\ TOKEN_SIZE <= n <= FREQ_TREE_MAX_NODES /\
  (forall i, 0 <= i < TOKEN_SIZE -> aget (m_left t) i = Some INVALID_TOKEN) /\
  ((n = TOKEN_SIZE /\
    forall k1 k2, 0 <= k1 < TOKEN_SIZE -> 0 <= k2 < TOKEN_SIZE ->
      f0 k1 <> 0 -> f0 k2 <> 0 -> k1 = k2)
   \/ (TOKEN_SIZE < n /\
       exists Tl Tr, repr t (n - 1) (Node Tl Tr) /\ NoDup (leaves (Node Tl Tr)) /\
         forall k, k ∈ leaves (Node Tl Tr) <-> 0 <= k < TOKEN_SIZE /\ f0 k <> 0)).

(** One pass of the loop of [generate_huffman] that merges [r1] and [r2]
    into the new node [n] with count [v]. *)
Definition merged (t : FreqTree) (n r1 r2 v : Z) (t3 : FreqTree) : Prop :=
  exists c1 c2,
    aset (m_count t) r1 0 = Some c1 /\
    aset c1 r2 0 = Some c2 /\
    aset c2 n v = Some (m_count t3) /\
    aset (m_left t) n r1 = Some (m_left t3) /\
    aset (m_right t) n r2 = Some (m_right t3).

(** ** Codes *)

(** The code of token [k] as [stream_encode] reads it out of the table. *)
Definition code_of (enc : EncodedTable.t) (k : Z) : list Z :=
  bits_from (EncodedTable.m_packedData enc)
    (default 0 (aget (EncodedTable.m_offset enc) k))
    (Z.to_nat (default 0 (aget (EncodedTable.m_bitcount enc) k))).

(** The code length recorded for token [k], [0] outside the table. *)
Definition code_length (enc : EncodedTable.t) (k : Z) : Z :=
  default 0 (aget (EncodedTable.m_bitcount enc) k).

(** Token [k] has a code inside the packed table. *)
Definition has_code (enc : EncodedTable.t) (k : Z) : Prop :=
  exists off len,
    aget (EncodedTable.m_offset enc) k = Some off /\
    aget (EncodedTable.m_bitcount enc) k = Some len /\
    0 <= off /\ 0 <= len /\ off + len <= 65792.

(** The bits [stream_encode] appends for a data buffer. *)
Fixpoint encoded (enc : EncodedTable.t) (data : list Z) : list Z :=
  match data with
  | [] => []
  | k :: rest => code_of enc k ++ encoded enc rest
  end.

(** The size of the encoded stream in bits: the code lengths of the bytes of
    the buffer added up. *)
Fixpoint encoded_bits (enc : EncodedTable.t) (data : list Z) : Z :=
  match data with
  | [] => 0
  | k :: rest => default 0 (aget (EncodedTable.m_bitcount enc) k) + encoded_bits enc rest
  end.

(** Sum over all tokens of the code length. *)
Definition total_code_length (enc : EncodedTable.t) : Z :=
  sum_below (code_length enc) (Z.to_nat TOKEN_SIZE).

(** Sum over all tokens of code length times frequency, for the frequencies
    of the tree [t0] the codes were built from. *)
Definition weighted_code_length (t0 : FreqTree) (enc : EncodedTable.t) : Z :=
  sum_below (fun k => code_length enc k * cnt t0 k) (Z.to_nat TOKEN_SIZE).

(** The buffer up to and including its first zero byte. *)
Fixpoint upto_terminator (data : list Z) : list Z :=
  match data with
  | [] => []
  | c :: rest => if c =? 0 then [c] else c :: upto_terminator rest
  end.

(** The frequencies a:5 b:9 c:12 d:13 e:16 f:45 as a data buffer. *)
Definition textbook_data : list Z :=
  replicate 5 97 ++ replicate 9 98 ++ replicate 12 99 ++
  replicate 13 100 ++ replicate 16 101 ++ replicate 45 102.

(** ** The decoder as a state machine *)

(** The child of node [cur] that [stream_decode] moves to on [bit], in its
    32-bit [current]. *)
Definition decode_child (t : FreqTree) (cur bit : Z) : option Z :=
  do next <- (if bit =? 0 then aget (m_left t) cur else aget (m_right t) cur);
  Some (next mod UINT32_MOD).

(** The decoder as a state machine over tree nodes.  [decodes t s cur out s']:
    started at node [cur] with the stream at [s], the machine emits the
    tokens [out] and halts with the stream at [s'].  Every transition reads
    one bit and moves to the left child on 0 and to the right child on 1; on
    reaching a leaf it emits the leaf, halts if the leaf is token 0 and
    otherwise starts again at the top node. *)
Inductive decodes (t : FreqTree) : Stream.t -> Z -> list Z -> Stream.t -> Prop :=
  | decodes_inner (s s1 s' : Stream.t) (cur bit next l : Z) (out : list Z) :
      stream_read_bit s = Some (bit, s1) ->
      decode_child t cur bit = Some next ->
      aget (m_left t) next = Some l -> l <> INVALID_TOKEN ->
      decodes t s1 next out s' ->
      decodes t s cur out s'
  | decodes_halt (s s1 : Stream.t) (cur bit next : Z) :
      stream_read_bit s = Some (bit, s1) ->
      decode_child t cur bit = Some next ->
      aget (m_left t) next = Some INVALID_TOKEN ->
      next = 0 ->
      decodes t s cur [0] s1
  | decodes_emit (s s1 s' : Stream.t) (cur bit next : Z) (out : list Z) :
      stream_read_bit s = Some (bit, s1) ->
      decode_child t cur bit = Some next ->
      aget (m_left t) next = Some INVALID_TOKEN ->
      next <> 0 ->
      decodes t s1 (m_top t mod UINT32_MOD) out s' ->
      decodes t s cur (next :: out) s'.

(** ** Symbols of a buffer *)

(** The tokens that occur in a data buffer, in increasing order. *)
Definition symbols (data : list Z) : list Z :=
  filter (fun k => occ k data <> 0) (seqZ 0 TOKEN_SIZE).

(** ** One pass of the merging loop *)

(** [r1] and [r2] are the two nodes a pass of the loop of [generate_huffman]
    picks among the nodes below [n]: [r1] holds the least nonzero count, and
    [r2] the least nonzero count once [r1] is hidden. *)
Definition two_smallest (t : FreqTree) (n r1 r2 : Z) : Prop :=
  0 <= r1 < n /\ 0 <= r2 < n /\ r1 <> r2 /\ cnt t r1 <> 0 /\ cnt t r2 <> 0 /\
  (forall j, 0 <= j < n -> cnt t j <> 0 -> cnt t r1 <= cnt t j) /\
  (forall j, 0 <= j < n -> j <> r1 -> cnt t j <> 0 -> cnt t r2 <= cnt t j).

(** ** Weighted path length *)

(** Sum over the leaves of [T] of the weight of the token times its depth,
    the root of [T] being at depth [d]: with [d = 0] and the frequencies as
    weights, the number of bits the codes of [T] spend on the buffer. *)
Fixpoint wpl (w : Z -> Z) (T : tree) (d : Z) : Z :=
  match T with
  | Leaf k => w k * d
  | Node l r => wpl w l (d + 1) + wpl w r (d + 1)
  end.

(** Sum of the weights of the leaves of [T]. *)
Fixpoint weight (w : Z -> Z) (T : tree) : Z :=
  match T with
  | Leaf k => w k
  | Node l r => weight w l + weight w r
  end.

(** The tree [T] with the label [k] of every leaf replaced by [f k]: with the
    weights for [f], the tree of the weights of [T]. *)
Fixpoint relabel (f : Z -> Z) (T : tree) : tree :=
  match T with
  | Leaf k => Leaf (f k)
  | Node l r => Node (relabel f l) (relabel f r)
  end.

(** The exchange of the tokens [a] and [b]. *)
Definition swap_tokens (a b k : Z) : Z :=
  if k =? a then b else if k =? b then a else k.

(** The sum of a list of numbers. *)
Definition lsum (l : list Z) : Z := foldr Z.add 0 l.

(** The weighted path length of a tree whose leaves carry their weights. *)
Definition cost (T : tree) (d : Z) : Z := wpl (fun x => x) T d.

(** A tree with one subtree cut out. *)
Inductive ctx : Type :=
  | Hole
  | CL (c : ctx) (r : tree)
  | CR (l : tree) (c : ctx).

(** The context with [u] put into the hole. *)
Fixpoint plug (c : ctx) (u : tree) : tree :=
  match c with
  | Hole => u
  | CL c' r => Node (plug c' u) r
  | CR l c' => Node l (plug c' u)
  end.

(** The leaves of a context, its hole left out. *)
Fixpoint cleaves (c : ctx) : list Z :=
  match c with
  | Hole => []
  | CL c' r => cleaves c' ++ leaves r
  | CR l c' => leaves l ++ cleaves c'
  end.

(** The depth of the hole. *)
Fixpoint hole_depth (c : ctx) : nat :=
  match c with
  | Hole => O
  | CL c' _ => S (hole_depth c')
  | CR _ c' => S (hole_depth c')
  end.

(** The depth of the deepest leaf of a context. *)
Fixpoint cmax (c : ctx) : nat :=
  match c with
  | Hole => O
  | CL c' r => Nat.max (S (cmax c')) (S (height r))
  | CR l c' => Nat.max (S (height l)) (S (cmax c'))
  end.

(** The weighted path length of the leaves of a context. *)
Fixpoint ccost (c : ctx) (d : Z) : Z :=
  match c with
  | Hole => 0
  | CL c' r => ccost c' (d + 1) + cost r (d + 1)
  | CR l c' => cost l (d + 1) + ccost c' (d + 1)
  end.

(** The counts of the nodes below [n] that the scan can see, in index order. *)
Definition live_counts (t : FreqTree) (n : Z) : list Z :=
  map (cnt t) (filter (fun i => cnt t i <> 0) (seqZ 0 n)).

(** The visible counts below [n] other than those of [r1] and [r2]. *)
Definition other_counts (t : FreqTree) (n r1 r2 : Z) : list Z :=
  map (cnt t) (filter (fun i => (cnt t i <> 0 /\ i <> r1) /\ i <> r2) (seqZ 0 n)).

(** The weighted path lengths that the trees of the visible nodes below [n]
    have built up, [G i] being the tree of node [i]. *)
Definition built_cost (w : Z -> Z) (G : Z -> tree) (t : FreqTree) (n : Z) : Z :=
  sum_below (fun i => if cnt t i =? 0 then 0 else wpl w (G i) 0) (Z.to_nat n).

(** The invariant of the loop of [generate_huffman] that carries optimality:
    every visible node holds the weight of its tree, and whatever tree [U]
    carries the weights [W0] the loop started from, the visible counts can be
    put on a tree [U'] that, together with the trees already built, costs no
    more than [U]. *)
Definition opt_inv (w : Z -> Z) (W0 : list Z) (t : FreqTree) (n : Z) : Prop :=
  exists G : Z -> tree,
    (forall i, 0 <= i < n -> repr t i (G i)) /\
    (forall i, 0 <= i < n -> cnt t i <> 0 -> cnt t i = weight w (G i)) /\
    forall U, leaves U ≡ₚ W0 ->
      exists U', leaves U' ≡ₚ live_counts t n /\
                 cost U' 0 + built_cost w G t n <= cost U 0.

(** What the invariant gives at the [break]: the tree below the last node
    created costs no more than any tree for the weights [W0]. *)
Definition opt_post (w : Z -> Z) (W0 : list Z) (t : FreqTree) (n : Z) : Prop :=
  TOKEN_SIZE < n ->
  forall T, repr t (n - 1) T ->
  forall U, leaves U ≡ₚ W0 -> wpl w T 0 <= cost U 0.

(** * Basic facts *)

Lemma bind_Some {A B : Type} (m : option A) (k : A -> option B) (b : B) :
  bind m k = Some b <-> exists a, m = Some a /\ k a = Some b.
Proof.
  destruct m as [a|]; simpl; split.
  - intros H. exists a. auto.
  - intros (a' & Ha & H). congruence.
  - discriminate.
  - intros (a' & Ha & _). discriminate.
Qed.

Lemma in_bounds_true (a : list Z) (i : Z) :
  in_bounds a i = true <-> 0 <= i < Z.of_nat (length a).
Proof. unfold in_bounds. rewrite andb_true_iff, Z.leb_le, Z.ltb_lt. tauto. Qed.

Lemma in_bounds_false (a : list Z) (i : Z) :
  in_bounds a i = false <-> ~ (0 <= i < Z.of_nat (length a)).
Proof. rewrite <- in_bounds_true. destruct (in_bounds a i); intuition congruence. Qed.

Lemma aget_Some (a : list Z) (i v : Z) :
  aget a i = Some v <-> 0 <= i < Z.of_nat (length a) /\ a !! Z.to_nat i = Some v.
Proof.
  unfold aget. destruct (in_bounds a i) eqn:E.
  - apply in_bounds_true in E. tauto.
  - apply in_bounds_false in E. split; [discriminate | tauto].
Qed.

Lemma aget_is_Some (a : list Z) (i : Z) :
  0 <= i < Z.of_nat (length a) -> exists v, aget a i = Some v.
Proof.
  intros H. destruct (lookup_lt_is_Some_2 a (Z.to_nat i)) as [v Hv]; [lia|].
  exists v. apply aget_Some. auto.
Qed.

Lemma aget_bounds (a : list Z) (i v : Z) :
  aget a i = Some v -> 0 <= i < Z.of_nat (length a).
Proof. intros H. apply aget_Some in H. tauto. Qed.

Lemma aset_Some (a a' : list Z) (i v : Z) :
  aset a i v = Some a' <->
  0 <= i < Z.of_nat (length a) /\ a' = <[Z.to_nat i := v]> a.
Proof.
  unfold aset. destruct (in_bounds a i) eqn:E.
  - apply in_bounds_true in E. split; [intros [= <-]; auto | intros [_ ->]; auto].
  - apply in_bounds_false in E. split; [discriminate | tauto].
Qed.

Lemma aset_is_Some (a : list Z) (i v : Z) :
  0 <= i < Z.of_nat (length a) -> aset a i v = Some (<[Z.to_nat i := v]> a).
Proof. intros H. apply aset_Some. auto. Qed.

Lemma aset_length (a a' : list Z) (i v : Z) :
  aset a i v = Some a' -> length a' = length a.
Proof. intros H. apply aset_Some in H as [_ ->]. apply length_insert. Qed.

Lemma aget_aset_eq (a a' : list Z) (i v : Z) :
  aset a i v = Some a' -> aget a' i = Some v.
Proof.
  intros H. apply aset_Some in H as [Hi ->]. apply aget_Some.
  rewrite length_insert. split; [exact Hi|].
  apply list_lookup_insert_eq. lia.
Qed.

Lemma aget_aset_ne (a a' : list Z) (i j v : Z) :
  aset a i v = Some a' -> j <> i -> aget a' j = aget a j.
Proof.
  intros H Hne. apply aset_Some in H as [Hi ->].
  unfold aget, in_bounds. rewrite length_insert.
  destruct ((0 <=? j) && (j <? Z.of_nat (length a))) eqn:E; [|reflexivity].
  apply andb_true_iff in E as [E1 E2]. apply Z.leb_le in E1.
  apply list_lookup_insert_ne. lia.
Qed.

(** * Bits in a byte buffer *)

Lemma shift_small (off : Z) : (7 - off mod 8) mod UINT8_MOD = 7 - off mod 8.
Proof.
  unfold UINT8_MOD. pose proof (Z.mod_pos_bound off 8 ltac:(lia)).
  apply Z.mod_small. change (2 ^ 8) with 256. lia.
Qed.

Lemma land_shiftr_1 (x s : Z) : 0 <= s -> Z.land (Z.shiftr x s) 1 = Z.b2z (Z.testbit x s).
Proof.
  intros Hs. change 1 with (Z.ones 1). rewrite Z.land_ones by lia.
  rewrite Z.shiftr_div_pow2 by lia. rewrite Z.testbit_spec' by lia.
  reflexivity.
Qed.

Lemma testbit_or_bit (old v s j : Z) :
  is_bit v -> 0 <= s < 8 -> 0 <= j < 8 ->
  Z.testbit (Z.lor old (Z.shiftl v s) mod UINT8_MOD) j =
  if j =? s then Z.testbit old j || negb (v =? 0) else Z.testbit old j.
Proof.
  intros Hv Hs Hj. unfold UINT8_MOD.
  rewrite Z.mod_pow2_bits_low by lia.
  rewrite Z.lor_spec, Z.shiftl_spec by lia.
  destruct (Z.eqb_spec j s) as [->|Hne].
  - rewrite Z.sub_diag. destruct Hv as [-> | ->]; reflexivity.
  - destruct Hv as [-> | ->].
    + rewrite Z.bits_0, orb_false_r. reflexivity.
    + destruct (Z.ltb_spec j s).
      * rewrite (Z.testbit_neg_r 1) by lia. apply orb_false_r.
      * rewrite (Z.bits_above_log2 1) by (change (Z.log2 1) with 0; lia).
        apply orb_false_r.
Qed.

Lemma read_bit_at (buf : list Z) (off : Z) :
  0 <= off < 8 * Z.of_nat (length buf) ->
  (do byte <- aget buf (off / 8);
   Some (Z.land (Z.shiftr byte ((7 - off mod 8) mod UINT8_MOD)) 1)) = Some (bit_at buf off).
Proof.
  intros Hoff. pose proof (Z.mod_pos_bound off 8 ltac:(lia)).
  destruct (aget_is_Some buf (off / 8)) as [v Hv].
  { split; [apply Z.div_pos; lia | apply Z.div_lt_upper_bound; lia]. }
  rewrite Hv. simpl. rewrite shift_small, land_shiftr_1 by lia.
  unfold bit_at. apply aget_Some in Hv as [_ ->]. reflexivity.
Qed.

Lemma or_bit_at (buf : list Z) (off v : Z) :
  is_bit v -> 0 <= off < 8 * Z.of_nat (length buf) ->
  exists buf',
    (do old <- aget buf (off / 8);
     aset buf (off / 8) (Z.lor old (Z.shiftl v ((7 - off mod 8) mod UINT8_MOD)) mod UINT8_MOD))
    = Some buf' /\
    length buf' = length buf /\
    bit_at buf' off = Z.lor (bit_at buf off) v /\
    (forall j, 0 <= j -> j <> off -> bit_at buf' j = bit_at buf j).
Proof.
  intros Hv Hoff. pose proof (Z.mod_pos_bound off 8 ltac:(lia)) as Hm.
  assert (Hb : 0 <= off / 8 < Z.of_nat (length buf)).
  { split; [apply Z.div_pos; lia | apply Z.div_lt_upper_bound; lia]. }
  destruct (aget_is_Some buf (off / 8) Hb) as [old Hold].
  rewrite Hold. simpl. rewrite shift_small.
  eexists. split; [apply aset_is_Some; exact Hb|].
  apply aget_Some in Hold as [_ Hold].
  split; [apply length_insert|]. split.
  - unfold bit_at. rewrite list_lookup_insert_eq by lia. simpl.
    rewrite Hold. simpl. rewrite testbit_or_bit by (auto; lia).
    rewrite Z.eqb_refl. destruct Hv as [-> | ->]; simpl.
    + rewrite orb_false_r, Z.lor_0_r. reflexivity.
    + rewrite orb_true_r. destruct (Z.testbit old _); reflexivity.
  - intros j Hj0 Hj. unfold bit_at.
    destruct (Nat.eq_dec (Z.to_nat (j / 8)) (Z.to_nat (off / 8))) as [E|E].
    + rewrite E. rewrite list_lookup_insert_eq by lia. rewrite Hold. simpl.
      pose proof (Z.mod_pos_bound j 8 ltac:(lia)).
      rewrite testbit_or_bit by (auto; lia).
      destruct (Z.eqb_spec (7 - j mod 8) (7 - off mod 8)); [|reflexivity].
      exfalso. apply Hj.
      rewrite (Z.div_mod j 8), (Z.div_mod off 8) by lia.
      assert (j / 8 = off / 8) by (pose proof (Z.div_pos j 8); lia). lia.
    + rewrite list_lookup_insert_ne by lia. reflexivity.
Qed.

(** * The bit stream *)

Lemma bit_at_is_bit (buf : list Z) (off : Z) : is_bit (bit_at buf off).
Proof. unfold bit_at, is_bit. destruct (Z.testbit _ _); simpl; auto. Qed.

Lemma bit_at_all_zero (buf : list Z) (off : Z) : all_zero buf -> bit_at buf off = 0.
Proof.
  intros Hz. unfold bit_at.
  destruct (buf !! Z.to_nat (off / 8)) as [b|] eqn:E; simpl.
  - assert (b = 0) as ->.
    { exact (Forall_lookup_1 _ _ _ _ Hz E). }
    rewrite Z.bits_0. reflexivity.
  - rewrite Z.bits_0. reflexivity.
Qed.

Lemma bits_from_length (buf : list Z) (n : nat) (off : Z) :
  length (bits_from buf off n) = n.
Proof. revert off. induction n as [|n IH]; intros off; simpl; [|rewrite IH]; reflexivity. Qed.

Lemma bits_from_ext (buf buf' : list Z) (n : nat) (off : Z) :
  (forall j, off <= j < off + Z.of_nat n -> bit_at buf' j = bit_at buf j) ->
  bits_from buf' off n = bits_from buf off n.
Proof.
  revert off. induction n as [|n IH]; intros off H; simpl; [reflexivity|].
  rewrite H by lia. rewrite IH; [reflexivity|]. intros j Hj. apply H. lia.
Qed.

Lemma bits_from_app (buf : list Z) (n m : nat) (off : Z) :
  bits_from buf off (n + m) = bits_from buf off n ++ bits_from buf (off + Z.of_nat n) m.
Proof.
  revert off. induction n as [|n IH]; intros off; simpl.
  - rewrite Z.add_0_r. reflexivity.
  - rewrite IH. do 3 f_equal. lia.
Qed.

Lemma stream_capacity (s : Stream.t) :
  stream_ok s -> 8 * Z.of_nat (length (Stream.m_buffer s)) = 65536.
Proof. unfold stream_ok. intros ->. reflexivity. Qed.

Lemma stream_write_bit_spec (s : Stream.t) (v : Z) :
  stream_ok s -> is_bit v -> 0 <= Stream.m_offset s < 65536 ->
  exists s',
    stream_write_bit s v = Some s' /\
    stream_ok s' /\
    Stream.m_offset s' = Stream.m_offset s + 1 /\
    bit_at (Stream.m_buffer s') (Stream.m_offset s) =
      Z.lor (bit_at (Stream.m_buffer s) (Stream.m_offset s)) v /\
    (forall j, 0 <= j -> j <> Stream.m_offset s ->
       bit_at (Stream.m_buffer s') j = bit_at (Stream.m_buffer s) j).
Proof.
  intros Hok Hv Hoff. pose proof (stream_capacity s Hok) as Hcap.
  destruct (or_bit_at (Stream.m_buffer s) (Stream.m_offset s) v Hv) as
    (buf' & Hw & Hlen & Hbit & Hframe); [lia|].
  unfold stream_write_bit. cbv zeta.
  apply bind_Some in Hw as (old & Hold & Hset).
  rewrite Hold. simpl. rewrite Hset. simpl.
  eexists. split; [reflexivity|]. simpl.
  split; [unfold stream_ok in *; simpl; congruence|].
  split; [apply Z.mod_small; unfold SIZE_MOD; lia|].
  split; assumption.
Qed.

Lemma stream_read_bit_spec (s : Stream.t) :
  stream_ok s -> 0 <= Stream.m_offset s < 65536 ->
  stream_read_bit s =
    Some (bit_at (Stream.m_buffer s) (Stream.m_offset s),
          Stream.mk (Stream.m_buffer s) (Stream.m_offset s + 1)).
Proof.
  intros Hok Hoff. pose proof (stream_capacity s Hok) as Hcap.
  pose proof (read_bit_at (Stream.m_buffer s) (Stream.m_offset s) ltac:(lia)) as Hr.
  apply bind_Some in Hr as (byte & Hbyte & Hr). injection Hr as Hr.
  unfold stream_read_bit. cbv zeta. rewrite Hbyte. simpl. rewrite Hr.
  rewrite (Z.mod_small (_ + 1)) by (unfold SIZE_MOD; lia). reflexivity.
Qed.

(** Writing into a zeroed region stores exactly the bits written and leaves
    the rest of the buffer alone. *)
Lemma stream_write_bits_spec (bits : list Z) (s : Stream.t) :
  stream_ok s -> Forall is_bit bits ->
  0 <= Stream.m_offset s ->
  Stream.m_offset s + Z.of_nat (length bits) <= 65536 ->
  (forall j, Stream.m_offset s <= j < Stream.m_offset s + Z.of_nat (length bits) ->
     bit_at (Stream.m_buffer s) j = 0) ->
  exists s',
    stream_write_bits s bits = Some s' /\
    stream_ok s' /\
    Stream.m_offset s' = Stream.m_offset s + Z.of_nat (length bits) /\
    bits_from (Stream.m_buffer s') (Stream.m_offset s) (length bits) = bits /\
    (forall j, 0 <= j ->
       j < Stream.m_offset s \/ Stream.m_offset s + Z.of_nat (length bits) <= j ->
       bit_at (Stream.m_buffer s') j = bit_at (Stream.m_buffer s) j).
Proof.
  revert s. induction bits as [|b bits IH]; intros s Hok Hbits Hoff Hcap Hzero.
  - exists s. simpl. repeat split; auto; lia.
  - apply Forall_cons_1 in Hbits as [Hb Hbits]. simpl length in *.
    destruct (stream_write_bit_spec s b Hok Hb ltac:(lia)) as
      (s1 & Hw & Hok1 & Hoff1 & Hbit1 & Hframe1).
    destruct (IH s1 Hok1 Hbits) as (s' & Hws & Hok' & Hoff' & Hbits' & Hframe');
      [lia | lia | |].
    { intros j Hj. rewrite Hframe1 by lia. apply Hzero. lia. }
    exists s'. simpl. rewrite Hw. simpl.
    split; [exact Hws|]. split; [exact Hok'|]. split; [lia|]. split.
    + f_equal.
      * rewrite Hframe' by lia. rewrite Hbit1, Hzero by lia.
        destruct Hb as [-> | ->]; reflexivity.
      * rewrite <- Hoff1. exact Hbits'.
    + intros j Hj0 Hj. rewrite Hframe' by lia. apply Hframe1; lia.
Qed.

Lemma stream_read_bits_spec (n : nat) (s : Stream.t) :
  stream_ok s -> 0 <= Stream.m_offset s ->
  Stream.m_offset s + Z.of_nat n <= 65536 ->
  stream_read_bits n s =
    Some (bits_from (Stream.m_buffer s) (Stream.m_offset s) n,
          Stream.mk (Stream.m_buffer s) (Stream.m_offset s + Z.of_nat n)).
Proof.
  revert s. induction n as [|n IH]; intros s Hok Hoff Hcap.
  - simpl. rewrite Z.add_0_r. destruct s; reflexivity.
  - simpl. rewrite stream_read_bit_spec by (auto; lia). simpl.
    rewrite IH by (auto; simpl; lia). simpl. do 3 f_equal. lia.
Qed.

(** * The minimum scan *)

Lemma cnt_aget (t : FreqTree) (i v : Z) : aget (m_count t) i = Some v -> cnt t i = v.
Proof. unfold cnt. intros ->. reflexivity. Qed.

Lemma aget_cnt (t : FreqTree) (i : Z) :
  0 <= i < Z.of_nat (length (m_count t)) -> aget (m_count t) i = Some (cnt t i).
Proof. intros H. destruct (aget_is_Some _ _ H) as [v Hv]. rewrite (cnt_aget _ _ _ Hv). exact Hv. Qed.

Lemma smallest_scan_spec (t : FreqTree) (n : nat) (i small_val small_ind : Z) :
  0 <= i -> i + Z.of_nat n <= Z.of_nat (length (m_count t)) ->
  exists r,
    smallest_scan (m_count t) n i small_val small_ind = Some r /\
    ((r = small_ind /\
      forall j, i <= j < i + Z.of_nat n -> cnt t j = 0 \/ small_val <= cnt t j)
     \/ (first_smallest t i (i + Z.of_nat n) r /\ cnt t r < small_val)).
Proof.
  revert i small_val small_ind.
  induction n as [|n IH]; intros i sv si Hi Hlen.
  - exists si. split; [reflexivity|]. left. split; [reflexivity|]. intros j Hj. lia.
  - simpl. rewrite (aget_cnt t i) by lia. simpl.
    destruct (negb (cnt t i =? 0) && (cnt t i <? sv)) eqn:E.
    + apply andb_true_iff in E as [E1 E2].
      apply negb_true_iff, Z.eqb_neq in E1. apply Z.ltb_lt in E2.
      destruct (IH (i + 1) (cnt t i) i) as (r & Hr & Hspec); [lia | lia |].
      exists r. split; [exact Hr|]. right.
      destruct Hspec as [[-> Hall] | [(Hrange & Hnz & Hmin) Hlt]].
      * split; [|exact E2]. split; [lia|]. split; [exact E1|].
        intros j Hj Hjnz. destruct (Z.eq_dec j i) as [->|Hne]; [lia|].
        destruct (Hall j) as [H0 | Hle]; [lia | contradiction | lia].
      * split; [|lia]. split; [lia|]. split; [exact Hnz|].
        intros j Hj Hjnz. destruct (Z.eq_dec j i) as [->|Hne]; [lia|].
        apply Hmin; [lia | exact Hjnz].
    + assert (E' : cnt t i = 0 \/ sv <= cnt t i).
      { apply andb_false_iff in E as [E | E].
        - left. apply negb_false_iff, Z.eqb_eq in E. exact E.
        - right. apply Z.ltb_ge in E. exact E. }
      destruct (IH (i + 1) sv si) as (r & Hr & Hspec); [lia | lia |].
      exists r. split; [exact Hr|].
      destruct Hspec as [[-> Hall] | [(Hrange & Hnz & Hmin) Hlt]].
      * left. split; [reflexivity|]. intros j Hj.
        destruct (Z.eq_dec j i) as [->|Hne]; [exact E'|]. apply Hall. lia.
      * right. split; [|exact Hlt]. split; [lia|]. split; [exact Hnz|].
        intros j Hj Hjnz. destruct (Z.eq_dec j i) as [->|Hne]; [lia|].
        apply Hmin; [lia | exact Hjnz].
Qed.

Lemma get_smallest_huffman_spec (t : FreqTree) (scan_size : Z) :
  0 <= scan_size <= Z.of_nat (length (m_count t)) ->
  exists r,
    get_smallest_huffman t scan_size = Some r /\
    ((r = INVALID_TOKEN /\
      forall j, 0 <= j < scan_size -> cnt t j = 0 \/ INVALID_TOKEN <= cnt t j)
     \/ (first_smallest t 0 scan_size r /\ cnt t r < INVALID_TOKEN)).
Proof.
  intros H. unfold get_smallest_huffman.
  destruct (smallest_scan_spec t (Z.to_nat scan_size) 0 INVALID_TOKEN INVALID_TOKEN)
    as (r & Hr & Hspec); [lia | lia |].
  exists r. split; [exact Hr|].
  rewrite Z2Nat.id, Z.add_0_l in Hspec by lia. exact Hspec.
Qed.

Lemma first_smallest_unique (t : FreqTree) (lo hi r r' : Z) :
  first_smallest t lo hi r -> first_smallest t lo hi r' -> r = r'.
Proof.
  intros (Hr & Hnz & Hmin) (Hr' & Hnz' & Hmin').
  destruct (Hmin r' Hr' Hnz') as [H1 H2].
  destruct (Hmin' r Hr Hnz) as [H3 H4].
  assert (cnt t r = cnt t r') by lia.
  assert (r <= r') by (apply H2; lia).
  assert (r' <= r) by (apply H4; lia). lia.
Qed.

(** * Sums over index ranges *)

Ltac consts :=
  change INVALID_TOKEN with 18446744073709551615 in *;
  change SIZE_MOD with 18446744073709551616 in *;
  change UINT32_MOD with 4294967296 in *;
  change FREQ_TREE_MAX_NODES with 511 in *;
  change TOKEN_SIZE with 256 in *.

Lemma sum_below_ext (f g : Z -> Z) (n : nat) :
  (forall i, 0 <= i < Z.of_nat n -> f i = g i) -> sum_below f n = sum_below g n.
Proof.
  induction n as [|n IH]; intros H; simpl; [reflexivity|].
  rewrite IH by (intros i Hi; apply H; lia). rewrite H by lia. reflexivity.
Qed.

Lemma sum_below_upd (f : Z -> Z) (j v : Z) (n : nat) :
  0 <= j < Z.of_nat n -> sum_below (upd f j v) n = sum_below f n - f j + v.
Proof.
  induction n as [|n IH]; intros Hj; [lia|]. simpl.
  destruct (Z.eq_dec j (Z.of_nat n)) as [->|Hne].
  - rewrite (sum_below_ext (upd f (Z.of_nat n) v) f).
    + unfold upd at 1. rewrite Z.eqb_refl. lia.
    + intros i Hi. unfold upd. destruct (Z.eqb_spec i (Z.of_nat n)); [lia | reflexivity].
  - rewrite IH by lia. unfold upd at 1.
    destruct (Z.eqb_spec (Z.of_nat n) j); [lia | lia].
Qed.

Lemma sum_below_nonneg (f : Z -> Z) (n : nat) :
  (forall i, 0 <= i < Z.of_nat n -> 0 <= f i) -> 0 <= sum_below f n.
Proof.
  induction n as [|n IH]; intros H; simpl; [lia|].
  assert (0 <= sum_below f n) by (apply IH; intros i Hi; apply H; lia).
  assert (0 <= f (Z.of_nat n)) by (apply H; lia). lia.
Qed.

Lemma sum_below_le_one (f : Z -> Z) (n : nat) :
  (forall i, 0 <= i < Z.of_nat n -> f i <= 1) -> sum_below f n <= Z.of_nat n.
Proof.
  induction n as [|n IH]; intros H; simpl; [lia|].
  assert (sum_below f n <= Z.of_nat n) by (apply IH; intros i Hi; apply H; lia).
  assert (f (Z.of_nat n) <= 1) by (apply H; lia). lia.
Qed.

Lemma sum_below_member (f : Z -> Z) (j : Z) (n : nat) :
  (forall i, 0 <= i < Z.of_nat n -> 0 <= f i) ->
  0 <= j < Z.of_nat n -> f j <= sum_below f n.
Proof.
  intros Hpos Hj. pose proof (sum_below_upd f j 0 n Hj) as Hu.
  assert (0 <= sum_below (upd f j 0) n).
  { apply sum_below_nonneg. intros i Hi. unfold upd.
    destruct (i =? j); [lia | apply Hpos; exact Hi]. }
  lia.
Qed.

Lemma sum_below_zero (f : Z -> Z) (n : nat) :
  (forall i, 0 <= i < Z.of_nat n -> f i = 0) -> sum_below f n = 0.
Proof.
  induction n as [|n IH]; intros H; simpl; [reflexivity|].
  rewrite IH by (intros i Hi; apply H; lia). rewrite H by lia. reflexivity.
Qed.

Lemma nonzero_range (c : Z) : 0 <= nonzero c <= 1.
Proof. unfold nonzero. destruct (c =? 0); lia. Qed.

Lemma nonzero_one (c : Z) : c <> 0 -> nonzero c = 1.
Proof. unfold nonzero. intros H. destruct (Z.eqb_spec c 0); [contradiction | reflexivity]. Qed.

(** * Trees in the arrays *)

Lemma repr_frame (t t' : FreqTree) (i : Z) (T : tree) :
  repr t i T ->
  (forall j, 0 <= j <= i ->
     aget (m_left t') j = aget (m_left t) j /\ aget (m_right t') j = aget (m_right t) j) ->
  repr t' i T.
Proof.
  intros H. induction H as [i Hl | i l r tl tr Hl Hne Hr Hlb Hrb _ IHl _ IHr]; intros Hsame.
  - apply repr_leaf. pose proof (aget_bounds _ _ _ Hl).
    rewrite (proj1 (Hsame i ltac:(lia))). exact Hl.
  - pose proof (aget_bounds _ _ _ Hl).
    apply repr_node with (l := l) (r := r); auto.
    + rewrite (proj1 (Hsame i ltac:(lia))). exact Hl.
    + rewrite (proj2 (Hsame i ltac:(lia))). exact Hr.
    + apply IHl. intros j Hj. apply Hsame. lia.
    + apply IHr. intros j Hj. apply Hsame. lia.
Qed.

Lemma repr_unique (t : FreqTree) (i : Z) (T T' : tree) :
  repr t i T -> repr t i T' -> T = T'.
Proof.
  intros H. revert T'.
  induction H as [i Hl | i l r tl tr Hl Hne Hr Hlb Hrb _ IHl _ IHr]; intros T' H'.
  - inversion H'; subst; [reflexivity | congruence].
  - inversion H' as [|? l' r' tl' tr' Hl' ? Hr']; subst; [congruence|].
    assert (l' = l) by congruence. assert (r' = r) by congruence. subst.
    f_equal; auto.
Qed.

Lemma repr_bounds (t : FreqTree) (i : Z) (T : tree) :
  repr t i T -> 0 <= i < Z.of_nat (length (m_left t)).
Proof. intros H. destruct H as [i Hl | i l r ? ? Hl]; eapply aget_bounds; eauto. Qed.

(** * The loop of [generate_huffman] *)

Lemma cnt_set (t t' : FreqTree) (j v : Z) :
  aset (m_count t) j v = Some (m_count t') ->
  forall i, cnt t' i = upd (cnt t) j v i.
Proof.
  intros H i. unfold cnt, upd. destruct (Z.eqb_spec i j) as [->|Hne].
  - rewrite (aget_aset_eq _ _ _ _ H). reflexivity.
  - rewrite (aget_aset_ne _ _ _ _ _ H Hne). reflexivity.
Qed.

Lemma repr_same_links (t t' : FreqTree) (i : Z) (T : tree) :
  m_left t' = m_left t -> m_right t' = m_right t -> repr t i T -> repr t' i T.
Proof.
  intros Hl Hr H. apply (repr_frame t t' i T H). intros j _. rewrite Hl, Hr. auto.
Qed.

Lemma live_nonneg (t : FreqTree) (n : Z) : 0 <= live t n.
Proof. apply sum_below_nonneg. intros i _. apply nonzero_range. Qed.

Lemma live_member (t : FreqTree) (n j : Z) :
  0 <= j < n -> cnt t j <> 0 -> 1 <= live t n.
Proof.
  intros Hj Hnz. unfold live.
  pose proof (sum_below_member (fun i => nonzero (cnt t i)) j (Z.to_nat n)) as H.
  simpl in H. rewrite (nonzero_one _ Hnz) in H. apply H; [|lia].
  intros i _. apply nonzero_range.
Qed.

Lemma live_two (t : FreqTree) (n j1 j2 : Z) :
  0 <= j1 < n -> 0 <= j2 < n -> j1 <> j2 -> cnt t j1 <> 0 -> cnt t j2 <> 0 ->
  2 <= live t n.
Proof.
  intros H1 H2 Hne Hnz1 Hnz2. unfold live.
  set (g := fun i => nonzero (cnt t i)).
  pose proof (sum_below_upd g j1 0 (Z.to_nat n) ltac:(lia)) as E1.
  pose proof (sum_below_upd (upd g j1 0) j2 0 (Z.to_nat n) ltac:(lia)) as E2.
  assert (0 <= sum_below (upd (upd g j1 0) j2 0) (Z.to_nat n)).
  { apply sum_below_nonneg. intros i _. unfold upd, g.
    destruct (i =? j2); [lia|]. destruct (i =? j1); [lia|]. apply nonzero_range. }
  assert (g j1 = 1) by (apply nonzero_one; exact Hnz1).
  assert (upd g j1 0 j2 = 1).
  { unfold upd. destruct (Z.eqb_spec j2 j1); [lia|]. apply nonzero_one; exact Hnz2. }
  lia.
Qed.

Lemma gen_inv_bound (f0 : Z -> Z) (t : FreqTree) (n : Z) :
  gen_inv f0 t n -> n <= FREQ_TREE_MAX_NODES.
Proof.
  intros I. pose proof (gi_live _ _ _ I) as Hl. pose proof (gi_n _ _ _ I) as Hn.
  pose proof (live_nonneg t n).
  destruct (Z.eq_dec n TOKEN_SIZE) as [->|Hne]; [consts; lia|].
  assert (1 <= live t n).
  { apply (live_member t n (n - 1)); [consts; lia|]. apply (gi_last _ _ _ I). lia. }
  consts. lia.
Qed.

Lemma gen_inv_small (f0 : Z -> Z) (t : FreqTree) (n j : Z) :
  gen_inv f0 t n -> 0 <= j < n -> 0 <= cnt t j < INVALID_TOKEN.
Proof.
  intros I Hj. split; [apply (gi_pos _ _ _ I); exact Hj|].
  pose proof (sum_below_member (cnt t) j (Z.to_nat n)) as H.
  pose proof (gi_sum _ _ _ I).
  assert (cnt t j <= sum_below (cnt t) (Z.to_nat n)); [|lia].
  apply H; [|lia]. intros i Hi. apply (gi_pos _ _ _ I). lia.
Qed.

(** Nothing that the scan can see: every count below [n] is zero. *)
Lemma gen_inv_hidden (f0 : Z -> Z) (t : FreqTree) (n j : Z) :
  gen_inv f0 t n -> 0 <= j < n ->
  cnt t j = 0 \/ INVALID_TOKEN <= cnt t j -> cnt t j = 0.
Proof. intros I Hj H. pose proof (gen_inv_small _ _ _ _ I Hj). lia. Qed.

Lemma repr_token_leaf (f0 : Z -> Z) (t : FreqTree) (n i : Z) (T : tree) :
  gen_inv f0 t n -> 0 <= i < TOKEN_SIZE -> repr t i T -> T = Leaf i.
Proof.
  intros I Hi H. apply (repr_unique t i); [exact H|].
  apply repr_leaf. apply (gi_leaf _ _ _ I). exact Hi.
Qed.

Lemma repr_inner_node (f0 : Z -> Z) (t : FreqTree) (n i : Z) (T : tree) :
  gen_inv f0 t n -> TOKEN_SIZE <= i < n -> repr t i T -> exists Tl Tr, T = Node Tl Tr.
Proof.
  intros I Hi H. destruct (gi_node _ _ _ I i Hi) as (l & r & Hl & Hr & Hlb & Hrb).
  inversion H as [? Hleaf | ? l' r' tl tr]; subst; [|eauto].
  rewrite Hl in Hleaf. injection Hleaf as ->.
  pose proof (gen_inv_bound _ _ _ I). consts. lia.
Qed.
Lemma default_aget_aset (a a' : list Z) (j v i : Z) :
  aset a j v = Some a' ->
  default 0 (aget a' i) = upd (fun i => default 0 (aget a i)) j v i.
Proof.
  intros H. unfold upd. destruct (Z.eqb_spec i j) as [->|Hne].
  - rewrite (aget_aset_eq _ _ _ _ H). reflexivity.
  - rewrite (aget_aset_ne _ _ _ _ _ H Hne). reflexivity.
Qed.

Section Merge.

(** One merging pass: [t3] is [t] after [r1] and [r2] were merged into the new
    node [n], which got the count [v]. *)
Variables (t t3 : FreqTree) (n r1 r2 v : Z).
Hypothesis M : merged t n r1 r2 v t3.

Lemma merged_cnt :
  forall i, cnt t3 i = upd (upd (upd (cnt t) r1 0) r2 0) n v i.
Proof.
  destruct M as (c1 & c2 & H1 & H2 & H3 & _). intros i. unfold cnt at 1.
  rewrite (default_aget_aset _ _ _ _ _ H3). unfold upd.
  destruct (i =? n); [reflexivity|].
  rewrite (default_aget_aset _ _ _ _ _ H2). unfold upd.
  destruct (i =? r2); [reflexivity|].
  rewrite (default_aget_aset _ _ _ _ _ H1). reflexivity.
Qed.

Lemma merged_links :
  aget (m_left t3) n = Some r1 /\ aget (m_right t3) n = Some r2 /\
  forall j, j <> n ->
    aget (m_left t3) j = aget (m_left t) j /\ aget (m_right t3) j = aget (m_right t) j.
Proof.
  destruct M as (c1 & c2 & _ & _ & _ & Hl & Hr).
  split; [eapply aget_aset_eq; eauto|]. split; [eapply aget_aset_eq; eauto|].
  intros j Hj. split; eapply aget_aset_ne; eauto.
Qed.

Lemma merged_sizes : tree_sizes t -> tree_sizes t3.
Proof.
  destruct M as (c1 & c2 & H1 & H2 & H3 & Hl & Hr). intros (S1 & S2 & S3).
  unfold tree_sizes.
  rewrite (aset_length _ _ _ _ H3), (aset_length _ _ _ _ H2), (aset_length _ _ _ _ H1).
  rewrite (aset_length _ _ _ _ Hl), (aset_length _ _ _ _ Hr). auto.
Qed.

Lemma merged_repr_below (i : Z) (T : tree) :
  i < n -> (repr t3 i T <-> repr t i T).
Proof.
  intros Hi. destruct merged_links as (_ & _ & Hsame).
  split; intros H.
  - apply (repr_frame t3 t i T H). intros j Hj.
    destruct (Hsame j ltac:(lia)) as [-> ->]. auto.
  - apply (repr_frame t t3 i T H). intros j Hj. apply Hsame. lia.
Qed.

Lemma merged_repr_old (i : Z) (T : tree) : repr t3 i T -> i < n -> repr t i T.
Proof. intros H Hi. exact (proj1 (merged_repr_below i T Hi) H). Qed.

Lemma merged_repr_keep (i : Z) (T : tree) : repr t i T -> i < n -> repr t3 i T.
Proof. intros H Hi. exact (proj2 (merged_repr_below i T Hi) H). Qed.

Lemma merged_repr_new (T : tree) :
  0 <= r1 < n -> 0 <= r2 < n -> n < INVALID_TOKEN ->
  (repr t3 n T <-> exists T1 T2, T = Node T1 T2 /\ repr t r1 T1 /\ repr t r2 T2).
Proof.
  intros H1 H2 Hn. destruct merged_links as (Hl & Hr & _).
  split.
  - intros H. inversion H as [? Hleaf | ? l r tl tr Hl' _ Hr' _ _ Htl Htr]; subst.
    + rewrite Hl in Hleaf. injection Hleaf as ->. lia.
    + assert (l = r1) by congruence. assert (r = r2) by congruence. subst l r.
      exists tl, tr. split; [reflexivity|].
      split.
      * apply (merged_repr_old _ _ Htl). lia.
      * apply (merged_repr_old _ _ Htr). lia.
  - intros (T1 & T2 & -> & HT1 & HT2).
    apply repr_node with (l := r1) (r := r2); auto; try lia.
    + apply (merged_repr_keep _ _ HT1). lia.
    + apply (merged_repr_keep _ _ HT2). lia.
Qed.

(** A merge hides two nodes and shows at most one new one. *)
Lemma merged_live :
  0 <= r1 < n -> 0 <= r2 < n -> r1 <> r2 -> cnt t r1 <> 0 -> cnt t r2 <> 0 ->
  live t3 (n + 1) <= live t n - 1.
Proof.
  intros H1 H2 Hne Hnz1 Hnz2.
  assert (Hnat : Z.to_nat (n + 1) = S (Z.to_nat n)) by lia.
  assert (Hofnat : Z.of_nat (Z.to_nat n) = n) by lia.
  unfold live at 1. rewrite Hnat. cbn [sum_below]. rewrite Hofnat.
  pose proof (nonzero_range (cnt t3 n)).
  assert (sum_below (fun i => nonzero (cnt t3 i)) (Z.to_nat n) = live t n - 2); [|lia].
  unfold live. set (g := fun i => nonzero (cnt t i)).
  rewrite (sum_below_ext _ (upd (upd g r1 0) r2 0)).
  - rewrite !sum_below_upd by lia. unfold upd, g.
    destruct (Z.eqb_spec r2 r1); [congruence|].
    rewrite !nonzero_one by assumption. lia.
  - intros i Hi. cbv beta. rewrite merged_cnt. unfold upd, g.
    destruct (Z.eqb_spec i n); [lia|].
    destruct (i =? r2); [reflexivity|]. destruct (i =? r1); reflexivity.
Qed.

(** Merging two live roots keeps the invariant and hides one node. *)
Lemma merge_inv (f0 : Z -> Z) :
  gen_inv f0 t n ->
  0 <= r1 < n -> 0 <= r2 < n -> r1 <> r2 -> cnt t r1 <> 0 -> cnt t r2 <> 0 ->
  v = cnt t r1 + cnt t r2 ->
  gen_inv f0 t3 (n + 1) /\ live t3 (n + 1) <= live t n - 1.
Proof.
  intros I H1 H2 Hne Hnz1 Hnz2 Hv.
  pose proof (gen_inv_bound _ _ _ I) as Hn511.
  pose proof (gi_n _ _ _ I) as Hn256.
  pose proof merged_cnt as Hcnt.
  pose proof (gi_pos _ _ _ I r1 H1) as Hp1.
  pose proof (gi_pos _ _ _ I r2 H2) as Hp2.
  assert (Hn : n < INVALID_TOKEN) by (consts; lia).
  assert (Hnat : Z.to_nat (n + 1) = S (Z.to_nat n)) by (consts; lia).
  assert (Hofnat : Z.of_nat (Z.to_nat n) = n) by (consts; lia).
  (* counts below [n] after the merge *)
  assert (Hbelow : forall i, 0 <= i < n ->
            cnt t3 i = upd (upd (cnt t) r1 0) r2 0 i).
  { intros i Hi. rewrite Hcnt. unfold upd at 1.
    destruct (Z.eqb_spec i n); [lia | reflexivity]. }
  assert (Hnew : cnt t3 n = cnt t r1 + cnt t r2).
  { rewrite Hcnt. unfold upd at 1. rewrite Z.eqb_refl. exact Hv. }
  assert (Hother : forall i, 0 <= i < n -> cnt t3 i <> 0 ->
            i <> r1 /\ i <> r2 /\ cnt t i = cnt t3 i).
  { intros i Hi. rewrite (Hbelow i Hi). unfold upd.
    destruct (Z.eqb_spec i r2); [congruence|].
    destruct (Z.eqb_spec i r1); [congruence|]. auto. }
  assert (Hsum : sum_below (cnt t3) (Z.to_nat n) =
                 sum_below (cnt t) (Z.to_nat n) - cnt t r1 - cnt t r2).
  { rewrite (sum_below_ext _ (upd (upd (cnt t) r1 0) r2 0)).
    - rewrite !sum_below_upd by lia. unfold upd.
      destruct (Z.eqb_spec r2 r1); [congruence | lia].
    - intros i Hi. apply Hbelow. lia. }
  pose proof (merged_live H1 H2 Hne Hnz1 Hnz2) as Hlive.
  split; [|exact Hlive].
  constructor.
  - apply merged_sizes. apply (gi_sizes _ _ _ I).
  - lia.
  - pose proof (gi_live _ _ _ I). lia.
  - intros i Hi. destruct (Z.eq_dec i n) as [->|Hin]; [lia|].
    rewrite Hbelow by lia. unfold upd.
    destruct (i =? r2); [lia|]. destruct (i =? r1); [lia|].
    apply (gi_pos _ _ _ I). lia.
  - rewrite Hnat. simpl. rewrite Hsum, Hofnat, Hnew.
    pose proof (gi_sum _ _ _ I). lia.
  - intros i Hi. destruct merged_links as (_ & _ & Hsame).
    rewrite (proj1 (Hsame i ltac:(consts; lia))). apply (gi_leaf _ _ _ I). exact Hi.
  - intros i Hi. destruct merged_links as (Hl & Hr & Hsame).
    destruct (Z.eq_dec i n) as [->|Hin].
    + exists r1, r2. auto.
    + destruct (Hsame i Hin) as [-> ->]. apply (gi_node _ _ _ I). lia.
  - intros _. replace (n + 1 - 1) with n by lia. rewrite Hnew. lia.
  - intros i Hi. destruct (Z.eq_dec i n) as [->|Hin].
    + destruct (gi_repr _ _ _ I r1 H1) as [T1 HT1].
      destruct (gi_repr _ _ _ I r2 H2) as [T2 HT2].
      exists (Node T1 T2). apply merged_repr_new; eauto.
    + destruct (gi_repr _ _ _ I i ltac:(lia)) as [T HT].
      exists T. apply (merged_repr_keep _ _ HT). lia.
  - intros i T Hi Hnz HT. destruct (Z.eq_dec i n) as [->|Hin].
    + apply (merged_repr_new _ H1 H2 Hn) in HT as (T1 & T2 & -> & HT1 & HT2).
      simpl. apply (proj2 (NoDup_app _ _)).
      split; [exact (gi_nodup _ _ _ I r1 T1 H1 Hnz1 HT1)|].
      split; [|exact (gi_nodup _ _ _ I r2 T2 H2 Hnz2 HT2)].
      intros k Hk1 Hk2. apply Hne.
      exact (gi_disj _ _ _ I r1 r2 T1 T2 k H1 H2 Hnz1 Hnz2 HT1 HT2 Hk1 Hk2).
    + destruct (Hother i ltac:(lia) Hnz) as (_ & _ & Hc).
      apply merged_repr_old in HT; [|lia].
      apply (gi_nodup _ _ _ I i T); [lia | congruence | exact HT].
  - intros i T k Hi Hnz HT Hk. destruct (Z.eq_dec i n) as [->|Hin].
    + apply (merged_repr_new _ H1 H2 Hn) in HT as (T1 & T2 & -> & HT1 & HT2).
      simpl in Hk. apply elem_of_app in Hk as [Hk | Hk].
      * exact (gi_sound _ _ _ I r1 T1 k H1 Hnz1 HT1 Hk).
      * exact (gi_sound _ _ _ I r2 T2 k H2 Hnz2 HT2 Hk).
    + destruct (Hother i ltac:(lia) Hnz) as (_ & _ & Hc).
      apply merged_repr_old in HT; [|lia].
      apply (gi_sound _ _ _ I i T k); [lia | congruence | exact HT | exact Hk].
  - (* disjoint roots *)
    assert (Hold : forall j Tj T1 T2 k, 0 <= j < n -> cnt t3 j <> 0 -> repr t j Tj ->
              repr t r1 T1 -> repr t r2 T2 ->
              k ∈ leaves (Node T1 T2) -> k ∈ leaves Tj -> False).
    { intros j Tj T1 T2 k Hj Hnzj HTj HT1 HT2 Hk Hkj.
      destruct (Hother j Hj Hnzj) as (Hj1 & Hj2 & Hc).
      simpl in Hk. apply elem_of_app in Hk as [Hk | Hk].
      - apply Hj1. symmetry.
        apply (gi_disj _ _ _ I r1 j T1 Tj k); auto. congruence.
      - apply Hj2. symmetry.
        apply (gi_disj _ _ _ I r2 j T2 Tj k); auto. congruence. }
    intros i j Ti Tj k Hi Hj Hnzi Hnzj HTi HTj Hki Hkj.
    destruct (Z.eq_dec i n) as [->|Hin]; destruct (Z.eq_dec j n) as [->|Hjn];
      [reflexivity | | |].
    + apply (merged_repr_new _ H1 H2 Hn) in HTi as (T1 & T2 & -> & HT1 & HT2).
      apply merged_repr_old in HTj; [|lia].
      exfalso. apply (Hold j Tj T1 T2 k); auto. lia.
    + apply (merged_repr_new _ H1 H2 Hn) in HTj as (T1 & T2 & -> & HT1 & HT2).
      apply merged_repr_old in HTi; [|lia].
      exfalso. apply (Hold i Ti T1 T2 k); auto. lia.
    + destruct (Hother i ltac:(lia) Hnzi) as (_ & _ & Hci).
      destruct (Hother j ltac:(lia) Hnzj) as (_ & _ & Hcj).
      apply merged_repr_old in HTi; [|lia].
      apply merged_repr_old in HTj; [|lia].
      apply (gi_disj _ _ _ I i j Ti Tj k); auto; try lia; congruence.
  - intros k Hk Hf.
    destruct (gi_cover _ _ _ I k Hk Hf) as (i & T & Hi & Hnz & HT & HkT).
    destruct (gi_repr _ _ _ I r1 H1) as [T1 HT1].
    destruct (gi_repr _ _ _ I r2 H2) as [T2 HT2].
    assert (Hroot : repr t3 n (Node T1 T2)) by (apply merged_repr_new; eauto).
    destruct (Z.eq_dec i r1) as [->|Hi1]; [|destruct (Z.eq_dec i r2) as [->|Hi2]].
    + exists n, (Node T1 T2). split; [lia|]. split; [rewrite Hnew; lia|].
      split; [exact Hroot|]. simpl. apply elem_of_app. left.
      rewrite (repr_unique _ _ _ _ HT1 HT). exact HkT.
    + exists n, (Node T1 T2). split; [lia|]. split; [rewrite Hnew; lia|].
      split; [exact Hroot|]. simpl. apply elem_of_app. right.
      rewrite (repr_unique _ _ _ _ HT2 HT). exact HkT.
    + exists i, T. split; [lia|]. split.
      * rewrite Hbelow by lia. unfold upd.
        destruct (Z.eqb_spec i r2); [contradiction|].
        destruct (Z.eqb_spec i r1); [contradiction | exact Hnz].
      * split; [|exact HkT]. apply (merged_repr_keep _ _ HT). lia.
Qed.

End Merge.

Lemma generate_loop_spec (f0 : Z -> Z) (fuel : nat) (t : FreqTree) (n : Z) :
  gen_inv f0 t n -> live t n <= Z.of_nat fuel -> (1 <= fuel)%nat ->
  exists t' n', generate_loop fuel t n = Some (t', n') /\ gen_post f0 t' n'.
Proof.
  revert t n. induction fuel as [|fuel IH]; intros t n I Hlive Hfuel; [lia|].
  pose proof (gen_inv_bound _ _ _ I) as Hn511.
  pose proof (gi_n _ _ _ I) as Hn256.
  destruct (gi_sizes _ _ _ I) as (S1 & S2 & S3).
  destruct (get_smallest_huffman_spec t n) as (r1 & Hs1 & Hspec1); [consts; lia|].
  cbn [generate_loop]. rewrite Hs1. cbn [bind].
  destruct Hspec1 as [[-> Hall] | [(Hr1 & Hnz1 & Hmin1) Hlt1]].
  - (* nothing left *)
    rewrite Z.eqb_refl. exists t, n. split; [reflexivity|].
    assert (Hzero : forall j, 0 <= j < n -> cnt t j = 0).
    { intros j Hj. eapply gen_inv_hidden; eauto. }
    split; [exact (gi_sizes _ _ _ I)|]. split; [lia|].
    split; [exact (gi_leaf _ _ _ I)|]. left. split.
    + destruct (Z.eq_dec n TOKEN_SIZE) as [E|E]; [exact E|]. exfalso.
      apply (gi_last _ _ _ I); [lia|]. apply Hzero. consts. lia.
    + intros k1 k2 Hk1 Hk2 Hf1 Hf2.
      destruct (gi_cover _ _ _ I k1 Hk1 Hf1) as (i & T & Hi & Hnz & _).
      exfalso. apply Hnz, Hzero, Hi.
  - destruct (Z.eqb_spec r1 INVALID_TOKEN) as [E|_]; [consts; lia|].
    rewrite (aget_cnt t r1) by (consts; lia). cbn [bind].
    rewrite (aset_is_Some (m_count t) r1 0) by (consts; lia). cbn [bind].
    set (t1 := set_count t (<[Z.to_nat r1 := 0]> (m_count t))).
    assert (Hc1 : forall i, cnt t1 i = upd (cnt t) r1 0 i).
    { apply cnt_set. simpl. apply aset_is_Some. consts. lia. }
    destruct (get_smallest_huffman_spec t1 n) as (r2 & Hs2 & Hspec2).
    { simpl. rewrite length_insert. consts. lia. }
    rewrite Hs2. cbn [bind].
    destruct Hspec2 as [[-> Hall] | [(Hr2 & Hnz2 & Hmin2) Hlt2]].
    + (* one node left: it is the root *)
      rewrite Z.eqb_refl. exists t1, n. split; [reflexivity|].
      assert (Honly : forall j, 0 <= j < n -> cnt t j <> 0 -> j = r1).
      { intros j Hj Hnz. destruct (Z.eq_dec j r1) as [E|E]; [exact E|]. exfalso.
        specialize (Hall j Hj). rewrite Hc1 in Hall. unfold upd in Hall.
        destruct (Z.eqb_spec j r1); [contradiction|].
        pose proof (gen_inv_small _ _ _ _ I Hj). lia. }
      split.
      { unfold tree_sizes, t1. simpl. rewrite length_insert. auto. }
      split; [lia|]. split; [exact (gi_leaf _ _ _ I)|].
      destruct (Z.eq_dec n TOKEN_SIZE) as [En|En].
      * left. split; [exact En|].
        assert (Hone : forall k, 0 <= k < TOKEN_SIZE -> f0 k <> 0 -> k = r1).
        { intros k Hk Hf.
          destruct (gi_cover _ _ _ I k Hk Hf) as (i & T & Hi & Hnz & HT & HkT).
          assert (i = r1) by (apply Honly; assumption). subst i.
          assert (Hr1' : 0 <= r1 < TOKEN_SIZE) by lia.
          rewrite (repr_token_leaf _ _ _ _ _ I Hr1' HT) in HkT.
          simpl in HkT. apply list_elem_of_singleton in HkT. exact HkT. }
        intros k1 k2 Hk1 Hk2 Hf1 Hf2.
        rewrite (Hone k1 Hk1 Hf1), (Hone k2 Hk2 Hf2). reflexivity.
      * right. split; [lia|].
        assert (Elast : n - 1 = r1).
        { apply Honly; [lia|]. apply (gi_last _ _ _ I). lia. }
        destruct (gi_repr _ _ _ I r1 Hr1) as [T HT].
        assert (Hr1' : TOKEN_SIZE <= r1 < n) by lia.
        destruct (repr_inner_node _ _ _ _ _ I Hr1' HT) as (Tl & Tr & ->).
        exists Tl, Tr. rewrite Elast.
        split; [apply (repr_same_links t t1); auto|].
        split; [exact (gi_nodup _ _ _ I r1 _ Hr1 Hnz1 HT)|].
        intros k. split.
        -- intros Hk. exact (gi_sound _ _ _ I r1 _ k Hr1 Hnz1 HT Hk).
        -- intros [Hk Hf].
           destruct (gi_cover _ _ _ I k Hk Hf) as (i & T' & Hi & Hnz & HT' & HkT).
           assert (i = r1) by (apply Honly; assumption). subst i.
           rewrite (repr_unique _ _ _ _ HT HT'). exact HkT.
    + (* two nodes: merge them *)
      assert (Hne : r1 <> r2).
      { intros <-. apply Hnz2. rewrite Hc1. unfold upd. rewrite Z.eqb_refl. reflexivity. }
      assert (Hc2 : cnt t1 r2 = cnt t r2).
      { rewrite Hc1. unfold upd. destruct (Z.eqb_spec r2 r1); [congruence | reflexivity]. }
      rewrite Hc2 in Hnz2.
      pose proof (live_two t n r1 r2 Hr1 Hr2 Hne Hnz1 Hnz2) as Hl2.
      pose proof (gi_live _ _ _ I) as Hln.
      pose proof (gen_inv_small _ _ _ _ I Hr1) as Hv1.
      pose proof (gen_inv_small _ _ _ _ I Hr2) as Hv2.
      assert (Hv12 : cnt t r1 + cnt t r2 < INVALID_TOKEN).
      { pose proof (gi_sum _ _ _ I) as Hsum.
        pose proof (sum_below_upd (cnt t) r1 0 (Z.to_nat n) ltac:(lia)) as E1.
        pose proof (sum_below_upd (upd (cnt t) r1 0) r2 0 (Z.to_nat n) ltac:(lia)) as E2.
        assert (0 <= sum_below (upd (upd (cnt t) r1 0) r2 0) (Z.to_nat n)).
        { apply sum_below_nonneg. intros i Hi. unfold upd.
          destruct (i =? r2); [lia|]. destruct (i =? r1); [lia|].
          apply (gi_pos _ _ _ I). lia. }
        assert (Hu : upd (cnt t) r1 0 r2 = cnt t r2).
        { unfold upd. destruct (Z.eqb_spec r2 r1); [congruence | reflexivity]. }
        rewrite Hu in E2. lia. }
      destruct (Z.eqb_spec r2 INVALID_TOKEN) as [E|_]; [consts; lia|].
      rewrite (aget_cnt t1 r2) by (simpl; rewrite length_insert; consts; lia).
      cbn [bind]. rewrite Hc2.
      rewrite (aset_is_Some (m_count t1) r2 0)
        by (simpl; rewrite length_insert; consts; lia).
      cbn [bind].
      rewrite (aset_is_Some _ n) by (simpl; rewrite !length_insert; consts; lia).
      cbn [bind].
      rewrite (aset_is_Some (m_left t1) n) by (simpl; consts; lia). cbn [bind].
      rewrite (aset_is_Some (m_right t1) n) by (simpl; consts; lia). cbn [bind].
      rewrite (Z.mod_small (cnt t r1 + cnt t r2)) by (consts; lia).
      rewrite (Z.mod_small (n + 1)) by (consts; lia).
      match goal with |- context [generate_loop fuel ?x _] => set (t3 := x) end.
      assert (M : merged t n r1 r2 (cnt t r1 + cnt t r2) t3).
      { exists (<[Z.to_nat r1 := 0]> (m_count t)),
               (<[Z.to_nat r2 := 0]> (<[Z.to_nat r1 := 0]> (m_count t))).
        split; [apply aset_is_Some; consts; lia|].
        split; [apply aset_is_Some; rewrite length_insert; consts; lia|].
        split; [apply aset_is_Some; rewrite !length_insert; consts; lia|].
        split; apply aset_is_Some; simpl; consts; lia. }
      destruct (merge_inv t t3 n r1 r2 _ M f0 I Hr1 Hr2 Hne Hnz1 Hnz2 eq_refl)
        as [I3 Hl3].
      apply IH; [exact I3 | lia | lia].
Qed.

Lemma accumulated_gen_inv (t : FreqTree) :
  accumulated t -> gen_inv (cnt t) t TOKEN_SIZE.
Proof.
  intros (Hs & Hleaf & Hpos & Hsum).
  assert (Hl : forall i, 0 <= i < TOKEN_SIZE -> repr t i (Leaf i)).
  { intros i Hi. apply repr_leaf, Hleaf, Hi. }
  assert (Hu : forall i T, 0 <= i < TOKEN_SIZE -> repr t i T -> T = Leaf i).
  { intros i T Hi HT. exact (repr_unique _ _ _ _ HT (Hl i Hi)). }
  constructor.
  - exact Hs.
  - lia.
  - assert (live t TOKEN_SIZE <= TOKEN_SIZE); [|lia].
    unfold live.
    pose proof (sum_below_le_one (fun i => nonzero (cnt t i)) (Z.to_nat TOKEN_SIZE)) as H.
    rewrite Z2Nat.id in H by (consts; lia). apply H. intros i _. apply nonzero_range.
  - exact Hpos.
  - exact Hsum.
  - exact Hleaf.
  - intros i Hi. lia.
  - intros Hn. lia.
  - intros i Hi. exists (Leaf i). auto.
  - intros i T Hi _ HT. rewrite (Hu i T Hi HT). simpl. apply NoDup_singleton.
  - intros i T k Hi Hnz HT Hk. rewrite (Hu i T Hi HT) in Hk. simpl in Hk.
    apply list_elem_of_singleton in Hk. subst k. auto.
  - intros i j Ti Tj k Hi Hj _ _ HTi HTj Hki Hkj.
    rewrite (Hu i Ti Hi HTi) in Hki. rewrite (Hu j Tj Hj HTj) in Hkj. simpl in *.
    apply list_elem_of_singleton in Hki, Hkj. congruence.
  - intros k Hk Hf. exists k, (Leaf k). split; [exact Hk|]. split; [exact Hf|].
    split; [auto|]. simpl. apply list_elem_of_singleton. reflexivity.
Qed.

(** [generate_huffman] always returns on a tree as the accumulation leaves
    it, and what it returns is described by [gen_post]. *)
Lemma generate_huffman_spec (t : FreqTree) :
  accumulated t ->
  exists t' n, generate_loop (Z.to_nat TOKEN_SIZE) t TOKEN_SIZE = Some (t', n) /\
    generate_huffman t = Some (set_top t' (n - 1)) /\ gen_post (cnt t) t' n.
Proof.
  intros Hacc. pose proof (accumulated_gen_inv t Hacc) as I.
  destruct (generate_loop_spec (cnt t) (Z.to_nat TOKEN_SIZE) t TOKEN_SIZE I)
    as (t' & n & Hloop & Hpost).
  - pose proof (gi_live _ _ _ I). pose proof (live_nonneg t TOKEN_SIZE). consts. lia.
  - consts. lia.
  - exists t', n. split; [exact Hloop|]. split; [|exact Hpost].
    unfold generate_huffman. rewrite Hloop. cbn [bind].
    destruct Hpost as (_ & Hn & _). rewrite Z.mod_small by (consts; lia). reflexivity.
Qed.

(** * Accumulating frequencies *)

Lemma occ_nonneg (k : Z) (data : list Z) : 0 <= occ k data.
Proof. induction data as [|c rest IH]; simpl; [lia|]. destruct (c =? k); lia. Qed.

Lemma occ_pos (k : Z) (data : list Z) : occ k data <> 0 <-> k ∈ data.
Proof.
  induction data as [|c rest IH]; simpl.
  - split; [lia | intros H; inversion H].
  - rewrite elem_of_cons. pose proof (occ_nonneg k rest).
    destruct (Z.eqb_spec c k) as [->|Hne].
    + split; [auto | lia].
    + rewrite Z.add_0_l, IH. split; [auto | intros [E | H']; [congruence | exact H']].
Qed.

Lemma sum_below_add (f g : Z -> Z) (n : nat) :
  sum_below (fun i => f i + g i) n = sum_below f n + sum_below g n.
Proof. induction n as [|n IH]; simpl; [reflexivity | rewrite IH; lia]. Qed.

Lemma sum_below_indicator (c : Z) (n : nat) :
  0 <= c < Z.of_nat n -> sum_below (fun i => if c =? i then 1 else 0) n = 1.
Proof.
  intros Hc.
  rewrite (sum_below_ext _ (upd (fun _ => 0) c 1)).
  - rewrite sum_below_upd by exact Hc. rewrite sum_below_zero by auto. reflexivity.
  - intros i _. unfold upd. rewrite (Z.eqb_sym c i). reflexivity.
Qed.

Lemma sum_below_occ (data : list Z) (n : nat) :
  Forall (fun c => 0 <= c < Z.of_nat n) data ->
  sum_below (fun i => occ i data) n = Z.of_nat (length data).
Proof.
  induction data as [|c rest IH]; intros H.
  - simpl. apply sum_below_zero. auto.
  - apply Forall_cons_1 in H as [Hc Hrest]. cbn [occ length].
    rewrite sum_below_add, sum_below_indicator, IH by assumption. lia.
Qed.

Lemma accumulate_loop_spec (data : list Z) (t : FreqTree) :
  Forall is_byte data ->
  TOKEN_SIZE <= Z.of_nat (length (m_count t)) ->
  (forall i, 0 <= cnt t i /\ cnt t i + Z.of_nat (length data) < SIZE_MOD) ->
  exists t',
    accumulate_loop t data = Some t' /\
    m_left t' = m_left t /\ m_right t' = m_right t /\ m_top t' = m_top t /\
    length (m_count t') = length (m_count t) /\
    forall i, cnt t' i = cnt t i + occ i data.
Proof.
  revert t. induction data as [|c rest IH]; intros t Hdata Hlen Hcnt.
  - exists t. simpl. repeat split; auto. intros i. lia.
  - apply Forall_cons_1 in Hdata as [Hc Hrest]. unfold is_byte in Hc.
    cbn [accumulate_loop length] in *.
    rewrite (aget_cnt t c) by lia. cbn [bind].
    rewrite (aset_is_Some (m_count t) c) by lia. cbn [bind].
    rewrite Z.mod_small by (specialize (Hcnt c); lia).
    set (t1 := set_count t _).
    assert (Hc1 : forall i, cnt t1 i = upd (cnt t) c (cnt t c + 1) i).
    { apply cnt_set. simpl. apply aset_is_Some. lia. }
    destruct (IH t1 Hrest) as (t' & Hacc & Hl & Hr & Htop & Hlen' & Hcnt').
    + simpl. rewrite length_insert. exact Hlen.
    + intros i. rewrite Hc1. unfold upd. specialize (Hcnt i).
      destruct (Z.eqb_spec i c) as [->|]; lia.
    + exists t'. split; [exact Hacc|]. repeat split; auto.
      * rewrite Hlen'. simpl. apply length_insert.
      * intros i. rewrite Hcnt', Hc1. unfold upd. cbn [occ].
        rewrite (Z.eqb_sym c i). destruct (Z.eqb_spec i c) as [->|]; lia.
Qed.

Lemma init_count : m_count freq_tree_init = replicate (Z.to_nat FREQ_TREE_MAX_NODES) 0.
Proof. reflexivity. Qed.

Lemma init_left :
  m_left freq_tree_init = replicate (Z.to_nat FREQ_TREE_MAX_NODES) INVALID_TOKEN.
Proof. reflexivity. Qed.

Lemma init_right :
  m_right freq_tree_init = replicate (Z.to_nat FREQ_TREE_MAX_NODES) INVALID_TOKEN.
Proof. reflexivity. Qed.

Lemma cnt_init (i : Z) : cnt freq_tree_init i = 0.
Proof.
  unfold cnt. destruct (aget (m_count freq_tree_init) i) as [v|] eqn:E; [|reflexivity].
  apply aget_Some in E as [_ E]. rewrite init_count in E.
  apply lookup_replicate in E as [-> _]. reflexivity.
Qed.

(** Accumulating a buffer of bytes into a fresh tree counts each byte. *)
Lemma freq_tree_accumulate_spec (data : list Z) :
  Forall is_byte data -> Z.of_nat (length data) < UINT32_MOD ->
  exists t,
    freq_tree_accumulate freq_tree_init data = Some t /\
    accumulated t /\ forall i, cnt t i = occ i data.
Proof.
  intros Hdata Hlen. unfold freq_tree_accumulate.
  destruct (Z.ltb_spec (Z.of_nat (length data)) UINT32_MOD) as [_|]; [|lia].
  destruct (accumulate_loop_spec data freq_tree_init Hdata)
    as (t & Hacc & Hl & Hr & _ & Hlc & Hcnt).
  - rewrite init_count, length_replicate. consts. lia.
  - intros i. rewrite cnt_init. consts. lia.
  - exists t. split; [exact Hacc|].
    assert (Hocc : forall i, cnt t i = occ i data).
    { intros i. rewrite Hcnt, cnt_init. lia. }
    split; [|exact Hocc].
    split; [|split; [|split]].
    + unfold tree_sizes. rewrite Hlc, Hl, Hr, init_count, init_left, init_right.
      rewrite !length_replicate. consts. lia.
    + intros i Hi. rewrite Hl, init_left. apply aget_Some. rewrite length_replicate.
      split; [consts; lia|]. apply lookup_replicate. split; [reflexivity|]. consts. lia.
    + intros i _. rewrite Hocc. apply occ_nonneg.
    + rewrite (sum_below_ext _ (fun i => occ i data)) by (intros i _; apply Hocc).
      rewrite sum_below_occ.
      * consts. lia.
      * eapply Forall_impl; [exact Hdata|]. unfold is_byte. intros c Hc. consts. lia.
Qed.

(** * Paths and code lengths *)

Lemma path_leaves (T : tree) (p : list Z) (k : Z) : path T p k -> k ∈ leaves T.
Proof.
  induction 1; simpl.
  - apply list_elem_of_singleton. reflexivity.
  - apply elem_of_app. auto.
  - apply elem_of_app. auto.
Qed.

Lemma leaves_path (T : tree) (k : Z) : k ∈ leaves T -> exists p, path T p k.
Proof.
  induction T as [tok | l IHl r IHr]; simpl; intros H.
  - apply list_elem_of_singleton in H as ->. exists []. constructor.
  - apply elem_of_app in H as [H | H].
    + destruct (IHl H) as [p Hp]. exists (0 :: p). constructor. exact Hp.
    + destruct (IHr H) as [p Hp]. exists (1 :: p). constructor. exact Hp.
Qed.

Lemma path_unique (T : tree) (p q : list Z) (k : Z) :
  NoDup (leaves T) -> path T p k -> path T q k -> p = q.
Proof.
  intros Hnd Hp. revert q.
  induction Hp as [k | l r p k Hp IH | l r p k Hp IH]; intros q Hq.
  - inversion Hq. reflexivity.
  - simpl in Hnd. apply NoDup_app in Hnd as (Hl & Hdisj & Hr).
    inversion Hq as [| ? ? q' ? Hq' | ? ? q' ? Hq']; subst.
    + f_equal. apply IH; assumption.
    + exfalso. apply (Hdisj k); eapply path_leaves; eauto.
  - simpl in Hnd. apply NoDup_app in Hnd as (Hl & Hdisj & Hr).
    inversion Hq as [| ? ? q' ? Hq' | ? ? q' ? Hq']; subst.
    + exfalso. apply (Hdisj k); eapply path_leaves; eauto.
    + f_equal. apply IH; assumption.
Qed.

Lemma code_bits_shift (T : tree) (d : Z) :
  code_bits T d = d * Z.of_nat (length (leaves T)) + code_bits T 0.
Proof.
  revert d. induction T as [tok | l IHl r IHr]; intros d; simpl.
  - lia.
  - rewrite length_app, (IHl (d + 1)), (IHr (d + 1)), (IHl (0 + 1)), (IHr (0 + 1)). lia.
Qed.

Lemma leaves_nonempty (T : tree) : (1 <= length (leaves T))%nat.
Proof. induction T; simpl; [lia | rewrite length_app; lia]. Qed.

Lemma code_bits_ge (T : tree) (d : Z) : 0 <= d -> d <= code_bits T d.
Proof.
  revert d. induction T as [tok | l IHl r IHr]; intros d Hd; simpl; [lia|].
  pose proof (IHl (d + 1)). pose proof (IHr (d + 1)). lia.
Qed.

(** The deepest tree on [n] leaves is a chain: its code lengths add up to
    [n (n + 1) / 2 - 1]. *)
Lemma code_bits_bound (T : tree) :
  2 * code_bits T 0 <=
  Z.of_nat (length (leaves T)) * Z.of_nat (length (leaves T))
  + Z.of_nat (length (leaves T)) - 2.
Proof.
  induction T as [tok | l IHl r IHr]; simpl; [lia|].
  rewrite (code_bits_shift l (0 + 1)), (code_bits_shift r (0 + 1)), length_app.
  pose proof (leaves_nonempty l). pose proof (leaves_nonempty r).
  nia.
Qed.

Lemma nodup_bytes_length (l : list Z) :
  NoDup l -> (forall k, k ∈ l -> 0 <= k < TOKEN_SIZE) ->
  Z.of_nat (length l) <= TOKEN_SIZE.
Proof.
  intros Hnd Hin.
  assert (l ⊆+ seqZ 0 TOKEN_SIZE) as Hsub.
  { apply NoDup_submseteq; [exact Hnd|]. intros k Hk. apply elem_of_seqZ.
    specialize (Hin k Hk). lia. }
  apply submseteq_length in Hsub. rewrite length_seqZ in Hsub. consts. lia.
Qed.

Lemma code_bits_capacity (T : tree) :
  NoDup (leaves T) -> (forall k, k ∈ leaves T -> 0 <= k < TOKEN_SIZE) ->
  2 * code_bits T 0 < MAX_ENCODING_TABLE_BITS.
Proof.
  intros Hnd Hin. pose proof (code_bits_bound T).
  pose proof (nodup_bytes_length _ Hnd Hin). pose proof (leaves_nonempty T).
  unfold MAX_ENCODING_TABLE_BITS. consts. nia.
Qed.

Lemma repr_height (t : FreqTree) (i : Z) (T : tree) :
  repr t i T -> Z.of_nat (height T) <= i.
Proof.
  induction 1 as [i Hl | i l r tl tr Hl Hne Hr Hlb Hrb _ IHl _ IHr]; simpl.
  - apply aget_bounds in Hl. lia.
  - lia.
Qed.

(** * Writing the code table *)

Lemma table_capacity (enc : EncodedTable.t) :
  table_sizes enc -> 8 * Z.of_nat (length (EncodedTable.m_packedData enc)) = 65792.
Proof. intros (H & _). rewrite H. reflexivity. Qed.

Lemma set_encoded_bit_spec (enc : EncodedTable.t) (off v : Z) :
  is_bit v -> 0 <= off < 8 * Z.of_nat (length (EncodedTable.m_packedData enc)) ->
  exists data',
    set_encoded_bit enc off v =
      Some (EncodedTable.mk data' (EncodedTable.m_offset enc)
              (EncodedTable.m_bitcount enc) (EncodedTable.m_currentOffset enc)) /\
    length data' = length (EncodedTable.m_packedData enc) /\
    bit_at data' off = Z.lor (bit_at (EncodedTable.m_packedData enc) off) v /\
    (forall j, 0 <= j -> j <> off ->
       bit_at data' j = bit_at (EncodedTable.m_packedData enc) j).
Proof.
  intros Hv Hoff.
  destruct (or_bit_at (EncodedTable.m_packedData enc) off v Hv Hoff)
    as (data' & Hw & Hlen & Hbit & Hframe).
  exists data'. split; [|auto].
  unfold set_encoded_bit. cbv zeta.
  apply bind_Some in Hw as (old & Hold & Hset).
  rewrite Hold. cbn [bind]. rewrite Hset. reflexivity.
Qed.

Lemma read_encoded_bit_spec (enc : EncodedTable.t) (off : Z) :
  0 <= off < 8 * Z.of_nat (length (EncodedTable.m_packedData enc)) ->
  read_encoded_bit enc off = Some (bit_at (EncodedTable.m_packedData enc) off).
Proof. intros H. unfold read_encoded_bit. cbv zeta. apply read_bit_at. exact H. Qed.

Lemma bits_from_snoc (buf : list Z) (n : nat) (off : Z) :
  bits_from buf off (S n) = bits_from buf off n ++ [bit_at buf (off + Z.of_nat n)].
Proof.
  replace (S n) with (n + 1)%nat by lia. rewrite bits_from_app. reflexivity.
Qed.

(** The chain is written backward from [off], so where the table was zero
    the bits of the chain end up in address order reversed: oldest link
    first. *)
Lemma write_chain_spec (chain : list Z) (enc : EncodedTable.t) (off : Z) :
  Forall is_bit chain ->
  Z.of_nat (length chain) <= off <= 8 * Z.of_nat (length (EncodedTable.m_packedData enc)) ->
  off < SIZE_MOD ->
  exists data',
    write_chain enc off chain =
      Some (EncodedTable.mk data' (EncodedTable.m_offset enc)
              (EncodedTable.m_bitcount enc) (EncodedTable.m_currentOffset enc)) /\
    length data' = length (EncodedTable.m_packedData enc) /\
    (forall j, 0 <= j -> j < off - Z.of_nat (length chain) \/ off <= j ->
       bit_at data' j = bit_at (EncodedTable.m_packedData enc) j) /\
    ((forall j, off - Z.of_nat (length chain) <= j < off ->
        bit_at (EncodedTable.m_packedData enc) j = 0) ->
     bits_from data' (off - Z.of_nat (length chain)) (length chain) = rev chain).
Proof.
  revert enc off. induction chain as [|v parent IH]; intros enc off Hbits Hoff Hmax.
  - exists (EncodedTable.m_packedData enc). simpl. destruct enc. simpl. auto.
  - apply Forall_cons_1 in Hbits as [Hv Hparent]. cbn [length] in *.
    cbn [write_chain]. rewrite (Z.mod_small (off - 1)) by (unfold SIZE_MOD in *; lia).
    destruct (set_encoded_bit_spec enc (off - 1) v Hv ltac:(lia))
      as (data1 & Hset & Hlen1 & Hbit1 & Hframe1).
    rewrite Hset. cbn [bind].
    set (enc1 := EncodedTable.mk data1 _ _ _).
    destruct (IH enc1 (off - 1) Hparent) as (data' & Hw & Hlen' & Hframe' & Hbits').
    + simpl. rewrite Hlen1. lia.
    + lia.
    + exists data'. split; [exact Hw|]. split; [simpl in Hlen'; congruence|]. split.
      * intros j Hj0 Hj. rewrite Hframe' by lia. simpl. apply Hframe1; lia.
      * intros Hzero. rewrite bits_from_snoc. simpl rev. f_equal.
        -- replace (off - Z.of_nat (S (length parent)))
             with (off - 1 - Z.of_nat (length parent)) by lia.
           apply Hbits'. intros j Hj. simpl. rewrite Hframe1 by lia. apply Hzero. lia.
        -- f_equal.
           replace (off - Z.of_nat (S (length parent)) + Z.of_nat (length parent))
             with (off - 1) by lia.
           rewrite Hframe' by lia. simpl. rewrite Hbit1, Hzero by lia.
           destruct Hv as [-> | ->]; reflexivity.
Qed.
Lemma traverse_unfold (fuel : nat) (pEnc : EncodedTable.t) (t : FreqTree)
    (top : Z) (pChain : list Z) (bitcount : Z) (onlyCount : bool) (l : Z) :
  aget (m_left t) top = Some l ->
  freq_tree_traverse (S fuel) pEnc t top pChain bitcount onlyCount =
  if l =? INVALID_TOKEN then
    if onlyCount then
      do bc <- aset (EncodedTable.m_bitcount pEnc) top bitcount;
      Some (EncodedTable.mk (EncodedTable.m_packedData pEnc) (EncodedTable.m_offset pEnc)
              bc (EncodedTable.m_currentOffset pEnc), bitcount)
    else
      do off <- aset (EncodedTable.m_offset pEnc) top (EncodedTable.m_currentOffset pEnc);
      do pEnc' <- write_chain
                    (EncodedTable.mk (EncodedTable.m_packedData pEnc) off
                       (EncodedTable.m_bitcount pEnc)
                       ((EncodedTable.m_currentOffset pEnc + bitcount) mod SIZE_MOD))
                    ((EncodedTable.m_currentOffset pEnc + bitcount) mod SIZE_MOD) pChain;
      Some (pEnc', bitcount)
  else
    do (pEnc1, size1) <- freq_tree_traverse fuel pEnc t l (0 :: pChain)
                            ((bitcount + 1) mod SIZE_MOD) onlyCount;
    do r <- aget (m_right t) top;
    do (pEnc2, size2) <- freq_tree_traverse fuel pEnc1 t r (1 :: pChain)
                            ((bitcount + 1) mod SIZE_MOD) onlyCount;
    Some (pEnc2, (size1 + size2) mod SIZE_MOD).
Proof. intros H. cbn [freq_tree_traverse]. rewrite H. reflexivity. Qed.

(** The pass that places the bits ([onlyCount = 0]).  Offsets are handed out
    in the order the leaves are visited; where the table was zero from the
    write cursor on, the range of each leaf holds its chain followed by its
    path. *)
Lemma traverse_write_spec (t : FreqTree) (T : tree) :
  forall (fuel : nat) (top : Z) (enc : EncodedTable.t) (chain : list Z) (d : Z),
  repr t top T -> (height T < fuel)%nat -> table_sizes enc ->
  Forall is_bit chain -> d = Z.of_nat (length chain) ->
  0 <= EncodedTable.m_currentOffset enc ->
  EncodedTable.m_currentOffset enc + code_bits T d <= 65792 ->
  (forall k, k ∈ leaves T -> 0 <= k < TOKEN_SIZE) -> NoDup (leaves T) ->
  exists enc',
    freq_tree_traverse fuel enc t top chain d false = Some (enc', code_bits T d) /\
    table_sizes enc' /\
    EncodedTable.m_currentOffset enc' = EncodedTable.m_currentOffset enc + code_bits T d /\
    EncodedTable.m_bitcount enc' = EncodedTable.m_bitcount enc /\
    (forall j, 0 <= j < EncodedTable.m_currentOffset enc ->
       bit_at (EncodedTable.m_packedData enc') j = bit_at (EncodedTable.m_packedData enc) j) /\
    (forall j, EncodedTable.m_currentOffset enc' <= j ->
       bit_at (EncodedTable.m_packedData enc') j = bit_at (EncodedTable.m_packedData enc) j) /\
    (forall k, k ∉ leaves T ->
       aget (EncodedTable.m_offset enc') k = aget (EncodedTable.m_offset enc) k) /\
    (forall k p, path T p k ->
       exists off,
         aget (EncodedTable.m_offset enc') k = Some off /\
         EncodedTable.m_currentOffset enc <= off /\
         off + d + Z.of_nat (length p) <= EncodedTable.m_currentOffset enc' /\
         ((forall j, EncodedTable.m_currentOffset enc <= j ->
             bit_at (EncodedTable.m_packedData enc) j = 0) ->
          bits_from (EncodedTable.m_packedData enc') off (length chain + length p)
            = rev chain ++ p)).
Proof.
  induction T as [tok | tl IHl tr IHr];
    intros fuel top enc chain d Hrepr Hfuel Hsz Hchain Hd Hc0 Hcap Hleaves Hnd;
    assert (Hd' : d <= Z.of_nat (length chain) <= d) by lia; clear Hd.
  - (* a leaf: the chain is written out *)
    inversion Hrepr as [? Hl |]; subst top.
    destruct fuel as [|fuel]; [simpl in Hfuel; lia|].
    rewrite (traverse_unfold _ _ _ _ _ _ _ _ Hl), Z.eqb_refl.
    pose proof (table_capacity enc Hsz) as Hcapacity.
    destruct Hsz as (Sp & So & Sb).
    assert (Htok : 0 <= tok < TOKEN_SIZE).
    { apply Hleaves. simpl. apply list_elem_of_singleton. reflexivity. }
    simpl code_bits in *.
    rewrite (aset_is_Some (EncodedTable.m_offset enc) tok) by lia. cbn [bind].
    rewrite Z.mod_small by (unfold SIZE_MOD; lia).
    set (enc0 := EncodedTable.mk _ _ _ _).
    destruct (write_chain_spec chain enc0 (EncodedTable.m_currentOffset enc + d) Hchain)
      as (data' & Hw & Hlen' & Hframe' & Hbits').
    { simpl. lia. }
    { unfold SIZE_MOD. lia. }
    rewrite Hw. cbn [bind]. eexists. split; [reflexivity|]. simpl.
    replace (EncodedTable.m_currentOffset enc + d - Z.of_nat (length chain))
      with (EncodedTable.m_currentOffset enc) in * by lia.
    split.
    { unfold table_sizes. simpl. rewrite Hlen', length_insert. auto. }
    split; [reflexivity|]. split; [reflexivity|].
    split. { intros j Hj. apply Hframe'; lia. }
    split. { intros j Hj. apply Hframe'; lia. }
    split.
    { intros k Hk. apply (aget_aset_ne (EncodedTable.m_offset enc) _ tok _
                            (EncodedTable.m_currentOffset enc)).
      - apply aset_is_Some. lia.
      - intros ->. apply Hk. apply list_elem_of_singleton. reflexivity. }
    intros k p Hp. inversion Hp; subst.
    exists (EncodedTable.m_currentOffset enc).
    split.
    { apply (aget_aset_eq (EncodedTable.m_offset enc)). apply aset_is_Some. lia. }
    split; [lia|]. split; [simpl; lia|].
    intros Hzero. rewrite Nat.add_0_r, app_nil_r. apply Hbits'.
    intros j Hj. simpl. apply Hzero. lia.
  - (* an inner node: left subtree, then right subtree *)
    inversion Hrepr as [| ? li ri ? ? Hl Hne Hr Hlb Hrb Hrl Hrr]; subst.
    destruct fuel as [|fuel]; [lia|]. simpl in Hfuel.
    rewrite (traverse_unfold _ _ _ _ _ _ _ _ Hl).
    destruct (Z.eqb_spec li INVALID_TOKEN) as [|_]; [contradiction|].
    simpl in Hnd. apply NoDup_app in Hnd as (Hndl & Hdisj & Hndr).
    simpl code_bits in *.
    assert (Hd0 : 0 <= d) by lia.
    pose proof (code_bits_ge tl (d + 1) ltac:(lia)) as Hgl.
    pose proof (code_bits_ge tr (d + 1) ltac:(lia)) as Hgr.
    rewrite (Z.mod_small (d + 1)) by (unfold SIZE_MOD; lia).
    destruct (IHl fuel li enc (0 :: chain) (d + 1) Hrl) as
      (enc1 & Ht1 & Hsz1 & Hc1 & Hb1 & Hlow1 & Hhigh1 & Hoth1 & Hpath1);
      [lia | exact Hsz | constructor; [left; reflexivity | exact Hchain]
       | simpl length; lia | lia | lia
       | intros k Hk; apply Hleaves; simpl; apply elem_of_app; auto | exact Hndl |].
    rewrite Ht1. cbn [bind]. rewrite Hr. cbn [bind].
    destruct (IHr fuel ri enc1 (1 :: chain) (d + 1) Hrr) as
      (enc2 & Ht2 & Hsz2 & Hc2 & Hb2 & Hlow2 & Hhigh2 & Hoth2 & Hpath2);
      [lia | exact Hsz1 | constructor; [right; reflexivity | exact Hchain]
       | simpl length; lia | lia | lia
       | intros k Hk; apply Hleaves; simpl; apply elem_of_app; auto | exact Hndr |].
    rewrite Ht2. cbn [bind].
    rewrite Z.mod_small by (unfold SIZE_MOD; lia).
    exists enc2. split; [reflexivity|]. split; [exact Hsz2|].
    split; [lia|]. split; [congruence|].
    split. { intros j Hj. rewrite Hlow2 by lia. apply Hlow1. lia. }
    split. { intros j Hj. rewrite Hhigh2 by lia. apply Hhigh1. lia. }
    split.
    { intros k Hk. simpl in Hk. rewrite elem_of_app in Hk.
      rewrite Hoth2, Hoth1; auto. }
    intros k p Hp. inversion Hp as [| ? ? p' ? Hp' | ? ? p' ? Hp']; subst.
    + destruct (Hpath1 k p' Hp') as (off & Hoff & Hlo & Hhi & Hbits).
      exists off. rewrite Hoth2.
      2:{ intros Hk. apply (Hdisj k); [eapply path_leaves; eauto | exact Hk]. }
      split; [exact Hoff|]. split; [lia|]. split; [simpl length; lia|].
      intros Hzero. specialize (Hbits Hzero).
      change (rev (0 :: chain)) with (rev chain ++ [0]) in Hbits.
      rewrite <- app_assoc in Hbits. cbn [app] in Hbits.
      replace (length chain + length (0%Z :: p'))%nat
        with (length (0%Z :: chain) + length p')%nat by (simpl; lia).
      rewrite <- Hbits. apply bits_from_ext. intros j Hj. apply Hlow2.
      cbn [length] in Hj. lia.
    + destruct (Hpath2 k p' Hp') as (off & Hoff & Hlo & Hhi & Hbits).
      exists off. split; [exact Hoff|]. split; [lia|]. split; [simpl length; lia|].
      intros Hzero.
      assert (Hzero1 : forall j, EncodedTable.m_currentOffset enc1 <= j ->
                bit_at (EncodedTable.m_packedData enc1) j = 0).
      { intros j Hj. rewrite Hhigh1 by lia. apply Hzero. lia. }
      specialize (Hbits Hzero1).
      change (rev (1 :: chain)) with (rev chain ++ [1]) in Hbits.
      rewrite <- app_assoc in Hbits. cbn [app] in Hbits.
      replace (length chain + length (1%Z :: p'))%nat
        with (length (1%Z :: chain) + length p')%nat by (simpl; lia).
      exact Hbits.
Qed.
(** The pass that records the code lengths ([onlyCount = 1]). *)
Lemma traverse_count_spec (t : FreqTree) (T : tree) :
  forall (fuel : nat) (top : Z) (enc : EncodedTable.t) (chain : list Z) (d : Z),
  repr t top T -> (height T < fuel)%nat -> table_sizes enc ->
  0 <= d -> d + Z.of_nat (height T) < SIZE_MOD ->
  (forall k, k ∈ leaves T -> 0 <= k < TOKEN_SIZE) -> NoDup (leaves T) ->
  exists bc total,
    freq_tree_traverse fuel enc t top chain d true =
      Some (EncodedTable.mk (EncodedTable.m_packedData enc) (EncodedTable.m_offset enc)
              bc (EncodedTable.m_currentOffset enc), total) /\
    length bc = length (EncodedTable.m_bitcount enc) /\
    (forall k, k ∉ leaves T -> aget bc k = aget (EncodedTable.m_bitcount enc) k) /\
    (forall k p, path T p k -> aget bc k = Some (d + Z.of_nat (length p))).
Proof.
  induction T as [tok | tl IHl tr IHr];
    intros fuel top enc chain d Hrepr Hfuel Hsz Hd Hmax Hleaves Hnd.
  - inversion Hrepr as [? Hl |]; subst top.
    destruct fuel as [|fuel]; [simpl in Hfuel; lia|].
    rewrite (traverse_unfold _ _ _ _ _ _ _ _ Hl), Z.eqb_refl.
    destruct Hsz as (Sp & So & Sb).
    assert (Htok : 0 <= tok < TOKEN_SIZE).
    { apply Hleaves. simpl. apply list_elem_of_singleton. reflexivity. }
    assert (Hset : aset (EncodedTable.m_bitcount enc) tok d =
                   Some (<[Z.to_nat tok := d]> (EncodedTable.m_bitcount enc)))
      by (apply aset_is_Some; lia).
    rewrite Hset. cbn [bind]. eexists _, _. split; [reflexivity|].
    split; [apply length_insert|]. split.
    + intros k Hk. apply (aget_aset_ne _ _ _ _ _ Hset).
      intros ->. apply Hk. apply list_elem_of_singleton. reflexivity.
    + intros k p Hp. inversion Hp; subst. simpl. rewrite Z.add_0_r.
      apply (aget_aset_eq _ _ _ _ Hset).
  - inversion Hrepr as [| ? li ri ? ? Hl Hne Hr Hlb Hrb Hrl Hrr]; subst.
    destruct fuel as [|fuel]; [lia|]. simpl in Hfuel, Hmax.
    rewrite (traverse_unfold _ _ _ _ _ _ _ _ Hl).
    destruct (Z.eqb_spec li INVALID_TOKEN) as [|_]; [contradiction|].
    simpl in Hnd. apply NoDup_app in Hnd as (Hndl & Hdisj & Hndr).
    rewrite (Z.mod_small (d + 1)) by lia.
    destruct (IHl fuel li enc (0 :: chain) (d + 1) Hrl) as
      (bc1 & s1 & Ht1 & Hlen1 & Hoth1 & Hpath1);
      [lia | exact Hsz | lia | lia
       | intros k Hk; apply Hleaves; simpl; apply elem_of_app; auto | exact Hndl |].
    rewrite Ht1. cbn [bind]. rewrite Hr. cbn [bind].
    set (enc1 := EncodedTable.mk _ _ bc1 _).
    destruct (IHr fuel ri enc1 (1 :: chain) (d + 1) Hrr) as
      (bc2 & s2 & Ht2 & Hlen2 & Hoth2 & Hpath2);
      [lia | | lia | lia
       | intros k Hk; apply Hleaves; simpl; apply elem_of_app; auto | exact Hndr |].
    { destruct Hsz as (Sp & So & Sb). unfold table_sizes, enc1. simpl.
      rewrite Hlen1. auto. }
    rewrite Ht2. cbn [bind]. eexists _, _. split; [reflexivity|].
    split; [simpl in Hlen2; congruence|]. split.
    + intros k Hk. simpl in Hk. rewrite elem_of_app in Hk.
      rewrite Hoth2 by auto. simpl. apply Hoth1. auto.
    + intros k p Hp. inversion Hp as [| ? ? p' ? Hp' | ? ? p' ? Hp']; subst.
      * rewrite Hoth2.
        2:{ intros Hk. apply (Hdisj k); [eapply path_leaves; eauto | exact Hk]. }
        simpl. rewrite (Hpath1 k p' Hp'). f_equal. simpl length. lia.
      * rewrite (Hpath2 k p' Hp'). f_equal. simpl length. lia.
Qed.

Lemma init_table_sizes (enc0 : EncodedTable.t) :
  Z.of_nat (length (EncodedTable.m_packedData enc0)) = MAX_ENCODING_TABLE_BYTES ->
  table_sizes (encoded_table_init enc0).
Proof.
  intros H. unfold table_sizes, encoded_table_init.
  cbn [EncodedTable.m_packedData EncodedTable.m_offset EncodedTable.m_bitcount].
  rewrite !length_replicate. split; [exact H|]. consts. lia.
Qed.

Lemma aget_replicate (n : nat) (v i : Z) :
  0 <= i < Z.of_nat n -> aget (replicate n v) i = Some v.
Proof.
  intros H. apply aget_Some. rewrite length_replicate. split; [exact H|].
  apply lookup_replicate. split; [reflexivity | lia].
Qed.

(** [create_encodings] on a tree whose leaves are distinct tokens: every
    leaf gets an offset and the length of its root-to-leaf path, and the
    number printed is the sum of the code lengths.  Where the packed bytes
    were zero before the call, the range of a leaf holds its path. *)
Lemma create_encodings_spec (t : FreqTree) (T : tree) (enc0 : EncodedTable.t) :
  tree_sizes t -> repr t (m_top t) T ->
  NoDup (leaves T) -> (forall k, k ∈ leaves T -> 0 <= k < TOKEN_SIZE) ->
  Z.of_nat (length (EncodedTable.m_packedData enc0)) = MAX_ENCODING_TABLE_BYTES ->
  exists enc,
    create_encodings enc0 t = Some (code_bits T 0, enc) /\
    table_sizes enc /\
    EncodedTable.m_currentOffset enc = code_bits T 0 /\
    (forall k p, path T p k ->
       exists off,
         aget (EncodedTable.m_offset enc) k = Some off /\
         aget (EncodedTable.m_bitcount enc) k = Some (Z.of_nat (length p)) /\
         0 <= off /\ off + Z.of_nat (length p) <= 65792 /\
         (all_zero (EncodedTable.m_packedData enc0) ->
          bits_from (EncodedTable.m_packedData enc) off (length p) = p)) /\
    (forall k, 0 <= k < TOKEN_SIZE -> k ∉ leaves T ->
       aget (EncodedTable.m_bitcount enc) k = Some 0).
Proof.
  intros Hts Hrepr Hnd Hleaves Hlen.
  pose proof (init_table_sizes enc0 Hlen) as Hsz0.
  pose proof (code_bits_capacity T Hnd Hleaves) as Hcap.
  pose proof (code_bits_ge T 0 ltac:(lia)) as Hge.
  assert (Hh : (height T < Z.to_nat FREQ_TREE_MAX_NODES)%nat).
  { pose proof (repr_height _ _ _ Hrepr). pose proof (repr_bounds _ _ _ Hrepr).
    destruct Hts as (_ & Hl & _). consts. lia. }
  assert (Hcap' : code_bits T 0 <= 65792).
  { unfold MAX_ENCODING_TABLE_BITS in Hcap. consts. lia. }
  unfold create_encodings. cbv zeta.
  destruct (traverse_write_spec t T (Z.to_nat FREQ_TREE_MAX_NODES) (m_top t)
              (encoded_table_init enc0) [] 0 Hrepr Hh Hsz0)
    as (enc1 & Ht1 & Hsz1 & Hc1 & Hb1 & _ & _ & _ & Hpath1);
    [constructor | reflexivity | simpl; lia | simpl; lia | exact Hleaves | exact Hnd |].
  rewrite Ht1. cbn [bind].
  destruct (traverse_count_spec t T (Z.to_nat FREQ_TREE_MAX_NODES) (m_top t)
              enc1 [] 0 Hrepr Hh Hsz1)
    as (bc & total & Ht2 & Hlen2 & Hoth2 & Hpath2);
    [lia | consts; lia | exact Hleaves | exact Hnd |].
  rewrite Ht2. cbn [bind]. eexists. split; [reflexivity|].
  change (EncodedTable.m_currentOffset (encoded_table_init enc0)) with 0 in *.
  change (EncodedTable.m_packedData (encoded_table_init enc0))
    with (EncodedTable.m_packedData enc0) in *.
  cbn [EncodedTable.m_packedData EncodedTable.m_offset EncodedTable.m_bitcount
       EncodedTable.m_currentOffset].
  split.
  { destruct Hsz1 as (Sp & So & Sb). unfold table_sizes.
    cbn [EncodedTable.m_packedData EncodedTable.m_offset EncodedTable.m_bitcount].
    rewrite Hlen2. auto. }
  split; [lia|]. split.
  - intros k p Hp. destruct (Hpath1 k p Hp) as (off & Hoff & Hlo & Hhi & Hbits).
    exists off. split; [exact Hoff|]. split; [rewrite (Hpath2 k p Hp); f_equal; lia|].
    split; [lia|]. split; [lia|]. intros Hzero. apply Hbits.
    intros j _. apply bit_at_all_zero. exact Hzero.
  - intros k Hk Hnot. rewrite (Hoth2 k Hnot), Hb1.
    apply aget_replicate. consts. lia.
Qed.

(** * Encoding into the stream *)

Lemma stream_write_bits_app (s : Stream.t) (l1 l2 : list Z) :
  stream_write_bits s (l1 ++ l2) =
  do s' <- stream_write_bits s l1; stream_write_bits s' l2.
Proof.
  revert s. induction l1 as [|b l1 IH]; intros s; simpl; [reflexivity|].
  destruct (stream_write_bit s b) as [s1|]; simpl; [apply IH | reflexivity].
Qed.

(** The inner loop copies the bits [startBit .. endBit) of the table. *)
Lemma encode_bits_spec (enc : EncodedTable.t) (n : nat) (s : Stream.t) (a : Z) :
  0 <= a ->
  a + Z.of_nat n <= 8 * Z.of_nat (length (EncodedTable.m_packedData enc)) ->
  a + Z.of_nat n < UINT32_MOD ->
  encode_bits n s enc a (a + Z.of_nat n) =
  stream_write_bits s (bits_from (EncodedTable.m_packedData enc) a n).
Proof.
  revert s a. induction n as [|n IH]; intros s a Ha Hb Hmax.
  - simpl. rewrite Z.add_0_r, Z.eqb_refl. reflexivity.
  - cbn [encode_bits bits_from stream_write_bits].
    destruct (Z.eqb_spec a (a + Z.of_nat (S n))) as [E|_]; [lia|].
    rewrite read_encoded_bit_spec by lia. cbn [bind].
    destruct (stream_write_bit s _) as [s1|]; cbn [bind]; [|reflexivity].
    rewrite Z.mod_small by lia.
    replace (a + Z.of_nat (S n)) with (a + 1 + Z.of_nat n) by lia.
    apply IH; lia.
Qed.

Lemma encode_loop_spec (enc : EncodedTable.t) (data : list Z) (s : Stream.t) :
  table_sizes enc -> Forall (has_code enc) data ->
  encode_loop s data enc = stream_write_bits s (encoded enc data).
Proof.
  intros Hsz. revert s. induction data as [|k rest IH]; intros s Hdata; [reflexivity|].
  apply Forall_cons_1 in Hdata as [(off & len & Hoff & Hlen & Ho & Hl & Hcap) Hrest].
  pose proof (table_capacity enc Hsz) as Hc.
  cbn [encode_loop encoded]. rewrite Hoff, Hlen. cbn [bind].
  rewrite stream_write_bits_app. unfold code_of. rewrite Hoff, Hlen. cbn [default].
  rewrite (Z.mod_small off) by (consts; lia).
  rewrite (Z.mod_small (off + len)) by (consts; lia).
  replace ((off + len - off) mod UINT32_MOD) with len
    by (rewrite Z.mod_small; consts; lia).
  replace (off + len) with (off + Z.of_nat (Z.to_nat len)) at 1 by lia.
  rewrite encode_bits_spec by (consts; lia).
  destruct (stream_write_bits s _) as [s1|]; cbn [bind]; [|reflexivity].
  apply IH. exact Hrest.
Qed.

Lemma encoded_is_bits (enc : EncodedTable.t) (data : list Z) :
  Forall is_bit (encoded enc data).
Proof.
  induction data as [|k rest IH]; simpl; [constructor|].
  apply Forall_app. split; [|exact IH].
  unfold code_of. generalize (default 0 (aget (EncodedTable.m_offset enc) k)).
  induction (Z.to_nat _) as [|n IHn]; intros off; simpl; constructor.
  - apply bit_at_is_bit.
  - apply IHn.
Qed.

Lemma encoded_length (enc : EncodedTable.t) (data : list Z) :
  Forall (has_code enc) data ->
  Z.of_nat (length (encoded enc data)) = encoded_bits enc data.
Proof.
  induction data as [|k rest IH]; intros Hdata; [reflexivity|].
  apply Forall_cons_1 in Hdata as [(off & len & Hoff & Hlen & Ho & Hl & Hcap) Hrest].
  cbn [encoded encoded_bits]. rewrite length_app, Nat2Z.inj_add, IH by exact Hrest.
  unfold code_of. rewrite bits_from_length, Hlen. simpl. lia.
Qed.

(** Encoding into a zeroed stream from offset 0 leaves exactly the codes of
    the bytes at the front of the buffer. *)
Lemma stream_encode_spec (enc : EncodedTable.t) (data : list Z) (s : Stream.t) :
  table_sizes enc -> Forall (has_code enc) data ->
  Z.of_nat (length data) < UINT32_MOD ->
  stream_ok s -> all_zero (Stream.m_buffer s) ->
  encoded_bits enc data <= 8 * STREAM_BYTES ->
  exists s',
    stream_encode (stream_reset s) data enc = Some s' /\ stream_ok s' /\
    bits_from (Stream.m_buffer s') 0 (length (encoded enc data)) = encoded enc data.
Proof.
  intros Hsz Hdata Hlen Hok Hzero Hcap. unfold stream_encode.
  destruct (Z.ltb_spec (Z.of_nat (length data)) UINT32_MOD) as [_|]; [|lia].
  rewrite encode_loop_spec by assumption.
  pose proof (encoded_length enc data Hdata) as Hel.
  destruct (stream_write_bits_spec (encoded enc data) (stream_reset s))
    as (s' & Hw & Hok' & _ & Hbits & _).
  - exact Hok.
  - apply encoded_is_bits.
  - simpl. lia.
  - simpl. unfold STREAM_BYTES in Hcap. lia.
  - intros j _. simpl. apply bit_at_all_zero. exact Hzero.
  - exists s'. auto.
Qed.
(** * Decoding from the stream *)

Lemma bits_left_step (s : Stream.t) :
  stream_ok s -> 0 <= Stream.m_offset s < 65536 ->
  bits_left s =
  S (bits_left (Stream.mk (Stream.m_buffer s) (Stream.m_offset s + 1))).
Proof.
  intros Hok Hoff. pose proof (stream_capacity s Hok). unfold bits_left. simpl. lia.
Qed.

Lemma decode_loop_unfold (s : Stream.t) (t : FreqTree) (current : Z) :
  stream_ok s -> 0 <= Stream.m_offset s < 65536 ->
  let s1 := Stream.mk (Stream.m_buffer s) (Stream.m_offset s + 1) in
  decode_loop (bits_left s) s t current =
  do next <- (if negb (bit_at (Stream.m_buffer s) (Stream.m_offset s) =? 0)
              then aget (m_right t) current else aget (m_left t) current);
  do l <- aget (m_left t) (next mod UINT32_MOD);
  if negb (l =? INVALID_TOKEN) then decode_loop (bits_left s1) s1 t (next mod UINT32_MOD)
  else if next mod UINT32_MOD =? 0 then Some ([next mod UINT32_MOD], s1)
  else
    do (out, s2) <- decode_loop (bits_left s1) s1 t (m_top t mod UINT32_MOD);
    Some (next mod UINT32_MOD :: out, s2).
Proof.
  intros Hok Hoff s1. rewrite (bits_left_step s Hok Hoff). fold s1.
  cbn [decode_loop]. rewrite (stream_read_bit_spec s Hok Hoff). reflexivity.
Qed.

Lemma path_node_nonempty (l r : tree) (p : list Z) (k : Z) :
  path (Node l r) p k -> p <> [].
Proof. intros H. inversion H; discriminate. Qed.

(** One token: the walk from [cur] along the code of [k] ends at leaf [k]. *)
Lemma decode_token (t : FreqTree) (T : tree) :
  forall (cur : Z) (s : Stream.t) (p : list Z) (k : Z),
  tree_sizes t -> repr t cur T -> path T p k -> p <> [] ->
  stream_ok s -> 0 <= Stream.m_offset s ->
  Stream.m_offset s + Z.of_nat (length p) <= 65536 ->
  bits_from (Stream.m_buffer s) (Stream.m_offset s) (length p) = p ->
  let s' := Stream.mk (Stream.m_buffer s) (Stream.m_offset s + Z.of_nat (length p)) in
  decode_loop (bits_left s) s t cur =
  if k =? 0 then Some ([k], s')
  else
    do (out, s2) <- decode_loop (bits_left s') s' t (m_top t mod UINT32_MOD);
    Some (k :: out, s2).
Proof.
  induction T as [tok | tl IHl tr IHr];
    intros cur s p k Hts Hrepr Hpath Hne Hok Hoff Hcap Hbits s'.
  - inversion Hpath; subst. contradiction.
  - inversion Hrepr as [| ? li ri ? ? Hl Hnl Hr Hlb Hrb Hrl Hrr]; subst.
    pose proof (repr_bounds _ _ _ Hrepr) as Hcur.
    destruct Hts as (Sc & Sl & Sr). rewrite Sl in Hcur.
    assert (Hsmall : forall x, 0 <= x < cur -> x mod UINT32_MOD = x).
    { intros x Hx. apply Z.mod_small. consts. lia. }
    inversion Hpath as [| ? ? p' ? Hp' | ? ? p' ? Hp']; subst;
      cbn [length bits_from] in Hbits, Hcap; injection Hbits as Hb0 Hbits;
      rewrite decode_loop_unfold by (auto; lia); cbv zeta;
      rewrite Hb0; cbn [Z.eqb negb].
    + (* bit 0: to the left *)
      rewrite Hl. cbn [bind]. rewrite (Hsmall li Hlb).
      destruct tl as [tok | tll tlr].
      * inversion Hrl as [? Hleaf |]; subst. inversion Hp'; subst.
        rewrite Hleaf. cbn [bind]. rewrite Z.eqb_refl. cbn [negb].
        subst s'. cbn [length]. reflexivity.
      * inversion Hrl as [| ? x y ? ? Hx Hxne]; subst.
        rewrite Hx. cbn [bind].
        destruct (Z.eqb_spec x INVALID_TOKEN) as [|_]; [contradiction|]. cbn [negb].
        rewrite (IHl li (Stream.mk (Stream.m_buffer s) (Stream.m_offset s + 1)) p' k
                   (conj Sc (conj Sl Sr)) Hrl Hp' (path_node_nonempty _ _ _ _ Hp') Hok);
          cbn [Stream.m_offset Stream.m_buffer]; [| lia | lia | exact Hbits].
        subst s'. cbn [length].
        replace (Stream.m_offset s + 1 + Z.of_nat (length p'))
          with (Stream.m_offset s + Z.of_nat (S (length p'))) by lia.
        reflexivity.
    + (* bit 1: to the right *)
      rewrite Hr. cbn [bind]. rewrite (Hsmall ri Hrb).
      destruct tr as [tok | trl trr].
      * inversion Hrr as [? Hleaf |]; subst. inversion Hp'; subst.
        rewrite Hleaf. cbn [bind]. rewrite Z.eqb_refl. cbn [negb].
        subst s'. cbn [length]. reflexivity.
      * inversion Hrr as [| ? x y ? ? Hx Hxne]; subst.
        rewrite Hx. cbn [bind].
        destruct (Z.eqb_spec x INVALID_TOKEN) as [|_]; [contradiction|]. cbn [negb].
        rewrite (IHr ri (Stream.mk (Stream.m_buffer s) (Stream.m_offset s + 1)) p' k
                   (conj Sc (conj Sl Sr)) Hrr Hp' (path_node_nonempty _ _ _ _ Hp') Hok);
          cbn [Stream.m_offset Stream.m_buffer]; [| lia | lia | exact Hbits].
        subst s'. cbn [length].
        replace (Stream.m_offset s + 1 + Z.of_nat (length p'))
          with (Stream.m_offset s + Z.of_nat (S (length p'))) by lia.
        reflexivity.
Qed.
(** The whole stream: tokens are emitted up to the first token 0. *)
Lemma decode_data (t : FreqTree) (T : tree) (enc : EncodedTable.t) :
  forall (data : list Z) (s : Stream.t),
  tree_sizes t -> repr t (m_top t) T -> (exists Tl Tr, T = Node Tl Tr) ->
  (forall k, k ∈ data -> path T (code_of enc k) k) ->
  stream_ok s -> 0 <= Stream.m_offset s ->
  Stream.m_offset s + Z.of_nat (length (encoded enc data)) <= 65536 ->
  bits_from (Stream.m_buffer s) (Stream.m_offset s) (length (encoded enc data))
    = encoded enc data ->
  0 ∈ data ->
  exists s',
    decode_loop (bits_left s) s t (m_top t mod UINT32_MOD)
      = Some (upto_terminator data, s').
Proof.
  intros data s Hts Hrepr (Tl & Tr & ->).
  assert (Htop : m_top t mod UINT32_MOD = m_top t).
  { pose proof (repr_bounds _ _ _ Hrepr) as Hb. destruct Hts as (_ & Sl & _).
    rewrite Sl in Hb. apply Z.mod_small. consts. lia. }
  rewrite Htop. revert s.
  induction data as [|k rest IH]; intros s Hcodes Hok Hoff Hcap Hbits Hzero.
  - inversion Hzero.
  - cbn [encoded] in Hcap, Hbits. rewrite length_app in Hcap, Hbits.
    rewrite bits_from_app in Hbits.
    apply app_inj_1 in Hbits as [Hb1 Hb2]; [|apply bits_from_length].
    assert (Hk : path (Node Tl Tr) (code_of enc k) k).
    { apply Hcodes. apply elem_of_cons. left. reflexivity. }
    rewrite (decode_token t (Node Tl Tr) (m_top t) s (code_of enc k) k Hts Hrepr Hk
               (path_node_nonempty _ _ _ _ Hk) Hok Hoff ltac:(lia) Hb1).
    rewrite Htop. cbn [upto_terminator].
    destruct (Z.eqb_spec k 0) as [->|Hk0]; [eexists; reflexivity|].
    set (s1 := Stream.mk _ _).
    destruct (IH s1) as (s' & Hdec).
    + intros k' Hk'. apply Hcodes. apply elem_of_cons. right. exact Hk'.
    + exact Hok.
    + simpl. lia.
    + simpl. lia.
    + exact Hb2.
    + apply elem_of_cons in Hzero as [E | H]; [congruence | exact H].
    + rewrite Hdec. cbn [bind]. eexists. reflexivity.
Qed.

(** * The tree that [generate_huffman] builds *)

(** [generate_huffman] returns on every accumulated tree.  The root it leaves
    in [m_top] heads a tree whose leaves are distinct tokens; when two tokens
    had a count, the root is an inner node and the leaves are exactly the
    tokens that had a count. *)
Lemma generate_huffman_tree (t0 : FreqTree) :
  accumulated t0 ->
  exists t T,
    generate_huffman t0 = Some t /\ tree_sizes t /\ repr t (m_top t) T /\
    NoDup (leaves T) /\ (forall k, k ∈ leaves T -> 0 <= k < TOKEN_SIZE) /\
    ((exists a b, 0 <= a < TOKEN_SIZE /\ 0 <= b < TOKEN_SIZE /\ a <> b /\
                  cnt t0 a <> 0 /\ cnt t0 b <> 0) ->
     (exists Tl Tr, T = Node Tl Tr) /\
     (forall k, k ∈ leaves T <-> 0 <= k < TOKEN_SIZE /\ cnt t0 k <> 0)).
Proof.
  intros Hacc.
  destruct (generate_huffman_spec t0 Hacc) as (t' & n & _ & Hgen & Hsz & Hn & Hleaf & Hpost).
  exists (set_top t' (n - 1)).
  destruct Hpost as [[-> Hone] | [Hn' (Tl & Tr & Hrepr & Hnd & Hl)]].
  - exists (Leaf (TOKEN_SIZE - 1)).
    split; [exact Hgen|]. split; [exact Hsz|].
    split.
    { apply (repr_same_links t'); [reflexivity | reflexivity |].
      apply repr_leaf. apply Hleaf. consts. lia. }
    split; [apply NoDup_singleton|].
    split.
    { intros k Hk. simpl in Hk. apply list_elem_of_singleton in Hk. consts. lia. }
    intros (a & b & Ha & Hb & Hne & Hca & Hcb). exfalso. apply Hne.
    apply Hone; assumption.
  - exists (Node Tl Tr).
    split; [exact Hgen|]. split; [exact Hsz|].
    split; [apply (repr_same_links t'); [reflexivity | reflexivity | exact Hrepr]|].
    split; [exact Hnd|].
    split; [intros k Hk; apply Hl; exact Hk|].
    intros _. split; [eauto | exact Hl].
Qed.

(** The codes of a table built for a buffer of bytes with two distinct values,
    in a table that was zero: every byte of the buffer has a code in the
    table, and the code is the path to its leaf. *)
Lemma code_table_spec (data : list Z) (enc0 : EncodedTable.t) :
  Forall is_byte data -> Z.of_nat (length data) < UINT32_MOD ->
  (exists a b, a ∈ data /\ b ∈ data /\ a <> b) -> table_zeroed enc0 ->
  exists t0 t total enc T,
    freq_tree_accumulate freq_tree_init data = Some t0 /\
    generate_huffman t0 = Some t /\
    create_encodings enc0 t = Some (total, enc) /\
    tree_sizes t /\ table_sizes enc /\
    repr t (m_top t) T /\ (exists Tl Tr, T = Node Tl Tr) /\
    Forall (has_code enc) data /\
    (forall k, k ∈ data -> path T (code_of enc k) k).
Proof.
  intros Hdata Hlen (a & b & Ha & Hb & Hab) (Hplen & Hzero).
  destruct (freq_tree_accumulate_spec data Hdata Hlen) as (t0 & Hacc & Haccd & Hcnt).
  destruct (generate_huffman_tree t0 Haccd)
    as (t & T & Hgen & Hts & Hrepr & Hnd & Hrange & Htwo).
  assert (Hbyte : forall k, k ∈ data -> 0 <= k < TOKEN_SIZE).
  { intros k Hk. exact (proj1 (list.Forall_forall _ _) Hdata k Hk). }
  destruct Htwo as (Hnode & Hleaves).
  { exists a, b. split; [auto|]. split; [auto|]. split; [exact Hab|].
    rewrite !Hcnt. split; apply occ_pos; assumption. }
  destruct (create_encodings_spec t T enc0 Hts Hrepr Hnd Hrange Hplen)
    as (enc & Hce & Hsz & _ & Hpaths & _).
  assert (Hcode : forall k, k ∈ data ->
            has_code enc k /\ path T (code_of enc k) k).
  { intros k Hk.
    assert (HkT : k ∈ leaves T).
    { apply Hleaves. split; [auto|]. rewrite Hcnt. apply occ_pos. exact Hk. }
    destruct (leaves_path T k HkT) as (p & Hp).
    destruct (Hpaths k p Hp) as (off & Hoff & Hbc & Ho & Hcap & Hbits).
    split.
    - exists off, (Z.of_nat (length p)). repeat split; auto; lia.
    - unfold code_of. rewrite Hoff, Hbc. simpl. rewrite Nat2Z.id.
      rewrite (Hbits Hzero). exact Hp. }
  exists t0, t, (code_bits T 0), enc, T.
  split; [exact Hacc|]. split; [exact Hgen|]. split; [exact Hce|].
  split; [exact Hts|]. split; [exact Hsz|]. split; [exact Hrepr|].
  split; [exact Hnode|]. split.
  - apply list.Forall_forall. intros k Hk. apply Hcode. exact Hk.
  - intros k Hk. apply Hcode. exact Hk.
Qed.

(** * Round trip *)


(** * Ties, the first merge and the empty table *)

Lemma scan_result (t : FreqTree) (n r : Z) :
  0 <= n <= Z.of_nat (length (m_count t)) ->
  first_smallest t 0 n r -> cnt t r < INVALID_TOKEN ->
  get_smallest_huffman t n = Some r.
Proof.
  intros Hn Hr Hlt.
  destruct (get_smallest_huffman_spec t n Hn) as (r' & Hs & [[-> Hall] | [Hr' _]]).
  - exfalso. destruct Hr as (Hrange & Hnz & _).
    destruct (Hall r Hrange); [contradiction | lia].
  - rewrite Hs. f_equal. eapply first_smallest_unique; eauto.
Qed.

Lemma scan_nothing (t : FreqTree) (n : Z) :
  0 <= n <= Z.of_nat (length (m_count t)) ->
  (forall j, 0 <= j < n -> cnt t j = 0) ->
  get_smallest_huffman t n = Some INVALID_TOKEN.
Proof.
  intros Hn Hzero.
  destruct (get_smallest_huffman_spec t n Hn) as (r & Hs & [[-> _] | [Hr _]]);
    [exact Hs|].
  exfalso. destruct Hr as (Hrange & Hnz & _). apply Hnz, Hzero, Hrange.
Qed.

Lemma generate_loop_S (fuel : nat) (t : FreqTree) (new_index : Z) :
  generate_loop (S fuel) t new_index =
  do ind1 <- get_smallest_huffman t new_index;
  if ind1 =? INVALID_TOKEN then Some (t, new_index) else
  do val1 <- aget (m_count t) ind1;
  do c1 <- aset (m_count t) ind1 0;
  do ind2 <- get_smallest_huffman (set_count t c1) new_index;
  if ind2 =? INVALID_TOKEN then Some (set_count t c1, new_index) else
  do val2 <- aget c1 ind2;
  do c2 <- aset c1 ind2 0;
  do c3 <- aset c2 new_index ((val1 + val2) mod SIZE_MOD);
  do l3 <- aset (m_left t) new_index ind1;
  do r3 <- aset (m_right t) new_index ind2;
  generate_loop fuel (mkFreqTree c3 l3 r3 (m_top t)) ((new_index + 1) mod SIZE_MOD).
Proof. reflexivity. Qed.

(** The loop never touches the links below [new_index]. *)
Lemma generate_loop_frame (fuel : nat) :
  forall (t t' : FreqTree) (n n' : Z),
  generate_loop fuel t n = Some (t', n') ->
  0 <= n -> Z.of_nat (length (m_left t)) < SIZE_MOD ->
  forall i, 0 <= i < n ->
    aget (m_left t') i = aget (m_left t) i /\ aget (m_right t') i = aget (m_right t) i.
Proof.
  induction fuel as [|fuel IH]; intros t t' n n' H Hn Hlen i Hi; [discriminate|].
  rewrite generate_loop_S in H.
  apply bind_Some in H as (ind1 & _ & H).
  destruct (ind1 =? INVALID_TOKEN); [injection H as <- _; auto|].
  apply bind_Some in H as (val1 & _ & H).
  apply bind_Some in H as (c1 & _ & H).
  apply bind_Some in H as (ind2 & _ & H).
  destruct (ind2 =? INVALID_TOKEN); [injection H as <- _; auto|].
  apply bind_Some in H as (val2 & _ & H).
  apply bind_Some in H as (c2 & _ & H).
  apply bind_Some in H as (c3 & _ & H).
  apply bind_Some in H as (l3 & Hl3 & H).
  apply bind_Some in H as (r3 & Hr3 & H).
  apply aset_Some in Hl3 as [Hbl ->].
  assert (Hn1 : (n + 1) mod SIZE_MOD = n + 1) by (apply Z.mod_small; lia).
  rewrite Hn1 in H.
  destruct (IH _ _ _ _ H ltac:(lia) ltac:(simpl; rewrite length_insert; lia) i ltac:(lia))
    as [E1 E2].
  simpl in E1, E2. rewrite E1, E2. split.
  - unfold aget, in_bounds. rewrite length_insert.
    destruct ((0 <=? i) && (i <? Z.of_nat (length (m_left t)))); [|reflexivity].
    apply list_lookup_insert_ne. lia.
  - eapply aget_aset_ne; [exact Hr3 | lia].
Qed.

(** One pass of the loop that finds two nodes merges them into [new_index]. *)
Lemma generate_loop_merge (fuel : nat) (t : FreqTree) (n r1 r2 : Z) :
  get_smallest_huffman t n = Some r1 -> r1 <> INVALID_TOKEN ->
  get_smallest_huffman (set_count t (<[Z.to_nat r1 := 0]> (m_count t))) n = Some r2 ->
  r2 <> INVALID_TOKEN ->
  0 <= r1 < Z.of_nat (length (m_count t)) ->
  0 <= r2 < Z.of_nat (length (m_count t)) ->
  0 <= n < Z.of_nat (length (m_count t)) ->
  0 <= n < Z.of_nat (length (m_left t)) ->
  0 <= n < Z.of_nat (length (m_right t)) ->
  exists t3,
    generate_loop (S fuel) t n = generate_loop fuel t3 ((n + 1) mod SIZE_MOD) /\
    aget (m_left t3) n = Some r1 /\ aget (m_right t3) n = Some r2 /\
    length (m_left t3) = length (m_left t).
Proof.
  intros H1 Hi1 H2 Hi2 Hr1 Hr2 Hnc Hnl Hnr.
  rewrite generate_loop_S, H1. cbn [bind].
  destruct (Z.eqb_spec r1 INVALID_TOKEN) as [|_]; [contradiction|].
  rewrite (aget_cnt t r1 Hr1). cbn [bind].
  rewrite (aset_is_Some (m_count t) r1 0 Hr1). cbn [bind].
  rewrite H2. cbn [bind].
  destruct (Z.eqb_spec r2 INVALID_TOKEN) as [|_]; [contradiction|].
  set (c1 := <[Z.to_nat r1 := 0]> (m_count t)).
  assert (Hlen1 : length c1 = length (m_count t)) by apply length_insert.
  destruct (aget_is_Some c1 r2) as [v2 Hv2]; [rewrite Hlen1; exact Hr2|].
  rewrite Hv2. cbn [bind].
  rewrite (aset_is_Some c1 r2) by (rewrite Hlen1; exact Hr2). cbn [bind].
  rewrite (aset_is_Some _ n) by (rewrite length_insert, Hlen1; exact Hnc). cbn [bind].
  rewrite (aset_is_Some (m_left t) n _ Hnl). cbn [bind].
  rewrite (aset_is_Some (m_right t) n _ Hnr). cbn [bind].
  eexists. split; [reflexivity|]. cbn [m_left m_right].
  split; [apply (aget_aset_eq (m_left t)); apply aset_is_Some; exact Hnl|].
  split; [apply (aget_aset_eq (m_right t)); apply aset_is_Some; exact Hnr|].
  apply length_insert.
Qed.
Lemma scan_found (t : FreqTree) (n r : Z) :
  0 <= n <= Z.of_nat (length (m_count t)) ->
  get_smallest_huffman t n = Some r -> r <> INVALID_TOKEN ->
  first_smallest t 0 n r.
Proof.
  intros Hn Hs Hr.
  destruct (get_smallest_huffman_spec t n Hn) as (r' & Hs' & [[E _] | [H _]]);
    rewrite Hs in Hs'; injection Hs' as <-; [contradiction | exact H].
Qed.

(** The budget of the loop of [generate_huffman] is never the reason for a
    missing result: every pass that merges hides a node, so a budget of one
    pass per visible node leaves no pass undone. *)
Lemma generate_loop_budget (fuel : nat) :
  forall (extra : nat) (t : FreqTree) (n : Z),
  (1 <= fuel)%nat -> live t n <= Z.of_nat fuel -> 0 <= n ->
  Z.of_nat (length (m_count t)) < SIZE_MOD ->
  generate_loop (fuel + extra) t n = generate_loop fuel t n.
Proof.
  induction fuel as [|f IH]; intros extra t n Hf Hlive Hn Hlen; [lia|].
  change (S f + extra)%nat with (S (f + extra)). rewrite !generate_loop_S.
  destruct (get_smallest_huffman t n) as [ind1|] eqn:H1; cbn [bind]; [|reflexivity].
  destruct (Z.eqb_spec ind1 INVALID_TOKEN) as [|Hi1]; [reflexivity|].
  destruct (aget (m_count t) ind1) as [val1|] eqn:Hv1; cbn [bind]; [|reflexivity].
  destruct (aset (m_count t) ind1 0) as [c1|] eqn:Hc1; cbn [bind]; [|reflexivity].
  destruct (get_smallest_huffman (set_count t c1) n) as [ind2|] eqn:H2;
    cbn [bind]; [|reflexivity].
  destruct (Z.eqb_spec ind2 INVALID_TOKEN) as [|Hi2]; [reflexivity|].
  destruct (aget c1 ind2) as [val2|] eqn:Hv2; cbn [bind]; [|reflexivity].
  destruct (aset c1 ind2 0) as [c2|] eqn:Hc2; cbn [bind]; [|reflexivity].
  destruct (aset c2 n _) as [c3|] eqn:Hc3; cbn [bind]; [|reflexivity].
  destruct (aset (m_left t) n ind1) as [l3|] eqn:Hl3; cbn [bind]; [|reflexivity].
  destruct (aset (m_right t) n ind2) as [r3|] eqn:Hr3; cbn [bind]; [|reflexivity].
  pose proof (aset_length _ _ _ _ Hc1) as L1.
  pose proof (aset_length _ _ _ _ Hc2) as L2.
  pose proof (aset_length _ _ _ _ Hc3) as L3.
  pose proof (proj1 (proj1 (aset_Some _ _ _ _) Hc3)) as Hnb.
  rewrite L2, L1 in Hnb.
  destruct (scan_found t n ind1 ltac:(lia) H1 Hi1) as (Hr1 & Hnz1 & _).
  destruct (scan_found (set_count t c1) n ind2) as (Hr2 & Hnz2 & _);
    [cbn [m_count set_count]; lia | exact H2 | exact Hi2 |].
  assert (Hcnt1 : forall i, cnt (set_count t c1) i = upd (cnt t) ind1 0 i)
    by (apply cnt_set; exact Hc1).
  rewrite Hcnt1 in Hnz2. unfold upd in Hnz2.
  destruct (Z.eqb_spec ind2 ind1) as [|Hne]; [contradiction|].
  pose proof (live_two t n ind1 ind2 Hr1 Hr2 ltac:(congruence) Hnz1 Hnz2) as Htwo.
  set (t3 := mkFreqTree c3 l3 r3 (m_top t)).
  assert (M : merged t n ind1 ind2 ((val1 + val2) mod SIZE_MOD) t3)
    by (exists c1, c2; auto).
  pose proof (merged_live t t3 n ind1 ind2 _ M Hr1 Hr2 ltac:(congruence) Hnz1 Hnz2).
  rewrite (Z.mod_small (n + 1)) by lia.
  apply IH; [lia | lia | lia | cbn [m_count t3]; lia].
Qed.

Lemma occ_two_two_three (A B C j : Z) :
  occ j [A; A; B; B; C; C; C] =
  2 * Z.b2z (A =? j) + 2 * Z.b2z (B =? j) + 3 * Z.b2z (C =? j).
Proof. cbn [occ]. destruct (A =? j), (B =? j), (C =? j); reflexivity. Qed.


(** C9 (as amended): on a table with no nonzero entry [generate_huffman]
    reports nothing: it returns the tree as it was, with [m_top] set to the
    last token slot, [TOKEN_SIZE - 1]. *)
Theorem generate_huffman_empty_alphabet (t : FreqTree) :
  TOKEN_SIZE <= Z.of_nat (length (m_count t)) ->
  (forall i, 0 <= i < TOKEN_SIZE -> cnt t i = 0) ->
  generate_huffman t = Some (set_top t (TOKEN_SIZE - 1)).
Proof.
  intros Hlen Hzero. unfold generate_huffman.
  change (Z.to_nat TOKEN_SIZE) with (S (Z.to_nat 255)).
  rewrite generate_loop_S.
  rewrite (scan_nothing t TOKEN_SIZE) by (auto; consts; lia).
  cbn [bind]. rewrite Z.eqb_refl. reflexivity.
Qed.

Lemma generate_huffman_empty_alphabet_witness :
  generate_huffman freq_tree_init = Some (set_top freq_tree_init (TOKEN_SIZE - 1)).
Proof.
  apply generate_huffman_empty_alphabet.
  - vm_compute. discriminate.
  - intros i _. apply cnt_init.
Defined.

(** C9 (as stated) fails: with every count zero [generate_huffman] returns
    normally, and the root it leaves is the unused leaf of token 255. *)
Lemma empty_alphabet_counterexample :
  exists t,
    generate_huffman freq_tree_init = Some t /\
    m_top t = 255 /\ aget (m_left t) 255 = Some INVALID_TOKEN /\
    aget (m_count t) 255 = Some 0 /\
    generate_huffman freq_tree_init <> None.
Proof.
  eexists. split; [vm_compute; reflexivity|].
  split; [reflexivity|]. split; [reflexivity|]. split; [reflexivity|].
  vm_compute. discriminate.
Qed.
(** * The diagnostic total *)

Lemma sum_code_lengths (T : tree) :
  forall (d : Z) (f : Z -> Z) (n : nat),
  NoDup (leaves T) -> (forall k, k ∈ leaves T -> 0 <= k < Z.of_nat n) ->
  (forall k p, path T p k -> f k = d + Z.of_nat (length p)) ->
  (forall k, 0 <= k < Z.of_nat n -> k ∉ leaves T -> f k = 0) ->
  sum_below f n = code_bits T d.
Proof.
  induction T as [tok | tl IHl tr IHr]; intros d f n Hnd Hrange Hpath Hzero.
  - simpl. rewrite (sum_below_ext f (upd (fun _ => 0) tok d)).
    + rewrite sum_below_upd.
      * rewrite sum_below_zero by auto. lia.
      * apply Hrange. simpl. apply list_elem_of_singleton. reflexivity.
    + intros i Hi. unfold upd. destruct (Z.eqb_spec i tok) as [->|Hne].
      * rewrite (Hpath tok [] (path_leaf tok)). simpl. lia.
      * apply Hzero; [exact Hi|]. simpl. intros H.
        apply list_elem_of_singleton in H. contradiction.
  - simpl in *. apply NoDup_app in Hnd as (Hndl & Hdisj & Hndr).
    set (fl := fun k => if bool_decide (k ∈ leaves tl) then f k else 0).
    set (fr := fun k => if bool_decide (k ∈ leaves tr) then f k else 0).
    rewrite (sum_below_ext f (fun k => fl k + fr k)).
    + rewrite sum_below_add. f_equal.
      * apply IHl; [exact Hndl | | |].
        -- intros k Hk. apply Hrange. apply elem_of_app. auto.
        -- intros k p Hp. unfold fl.
           rewrite bool_decide_eq_true_2 by (eapply path_leaves; eauto).
           rewrite (Hpath k (0 :: p) (path_left _ _ _ _ Hp)). simpl length. lia.
        -- intros k _ Hk. unfold fl. rewrite bool_decide_eq_false_2 by exact Hk.
           reflexivity.
      * apply IHr; [exact Hndr | | |].
        -- intros k Hk. apply Hrange. apply elem_of_app. auto.
        -- intros k p Hp. unfold fr.
           rewrite bool_decide_eq_true_2 by (eapply path_leaves; eauto).
           rewrite (Hpath k (1 :: p) (path_right _ _ _ _ Hp)). simpl length. lia.
        -- intros k _ Hk. unfold fr. rewrite bool_decide_eq_false_2 by exact Hk.
           reflexivity.
    + intros k Hk. unfold fl, fr.
      destruct (bool_decide_reflect (k ∈ leaves tl)) as [Hl | Hl];
        destruct (bool_decide_reflect (k ∈ leaves tr)) as [Hr | Hr].
      * exfalso. exact (Hdisj k Hl Hr).
      * lia.
      * lia.
      * rewrite Hzero; [lia | exact Hk |]. rewrite elem_of_app. tauto.
Qed.

(** C5 (as amended): on every accumulated tree [generate_huffman] and
    [create_encodings] return, and the total that the traversal hands to
    [create_encodings] is the sum over all tokens of the code length, not
    weighted by frequency; it is also the final write cursor, the size of the
    packed codes in bits. *)
Theorem total_bitcount_is_sum_of_code_lengths (t0 : FreqTree) (enc0 : EncodedTable.t) :
  accumulated t0 ->
  Z.of_nat (length (EncodedTable.m_packedData enc0)) = MAX_ENCODING_TABLE_BYTES ->
  exists t total enc,
    generate_huffman t0 = Some t /\
    create_encodings enc0 t = Some (total, enc) /\
    total = total_code_length enc /\
    total = EncodedTable.m_currentOffset enc.
Proof.
  intros Hacc Hlen.
  destruct (generate_huffman_tree t0 Hacc) as (t & T & Hgen & Hts & Hrepr & Hnd & Hrange & _).
  destruct (create_encodings_spec t T enc0 Hts Hrepr Hnd Hrange Hlen)
    as (enc & Hce & Hsz & Hcur & Hpaths & Hrest).
  exists t, (code_bits T 0), enc.
  split; [exact Hgen|]. split; [exact Hce|]. split; [|symmetry; exact Hcur].
  symmetry. unfold total_code_length. apply sum_code_lengths.
  - exact Hnd.
  - intros k Hk. specialize (Hrange k Hk). consts. lia.
  - intros k p Hp. destruct (Hpaths k p Hp) as (off & _ & Hbc & _).
    unfold code_length. rewrite Hbc. simpl. lia.
  - intros k Hk Hnot. unfold code_length. rewrite (Hrest k); [reflexivity | | exact Hnot].
    consts. lia.
Qed.
(** * The decoder as a state machine *)

Lemma decode_loop_step (fuel : nat) (s : Stream.t) (t : FreqTree) (current : Z) :
  decode_loop (S fuel) s t current =
  do (bit, s1) <- stream_read_bit s;
  do next <- decode_child t current bit;
  do l <- aget (m_left t) next;
  if negb (l =? INVALID_TOKEN) then decode_loop fuel s1 t next
  else if next =? 0 then Some ([next], s1)
  else
    do (out, s2) <- decode_loop fuel s1 t (m_top t mod UINT32_MOD);
    Some (next :: out, s2).
Proof.
  cbn [decode_loop]. destruct (stream_read_bit s) as [[bit s1]|]; [|reflexivity].
  cbn [bind]. unfold decode_child.
  destruct (Z.eqb_spec bit 0); cbn [negb];
    [destruct (aget (m_left t) current) | destruct (aget (m_right t) current)];
    reflexivity.
Qed.

Lemma decode_loop_sound (t : FreqTree) (fuel : nat) :
  forall (s : Stream.t) (cur : Z) (out : list Z) (s' : Stream.t),
  decode_loop fuel s t cur = Some (out, s') -> decodes t s cur out s'.
Proof.
  induction fuel as [|fuel IH]; intros s cur out s' H; [discriminate|].
  rewrite decode_loop_step in H.
  apply bind_Some in H as ([bit s1] & Hread & H).
  apply bind_Some in H as (next & Hchild & H).
  apply bind_Some in H as (l & Hl & H).
  destruct (Z.eqb_spec l INVALID_TOKEN) as [-> | Hne]; cbn [negb] in H.
  - destruct (Z.eqb_spec next 0) as [E | E].
    + injection H as <- <-. rewrite E. eapply decodes_halt; eauto.
    + apply bind_Some in H as ([out' s2] & Hrest & H). injection H as <- <-.
      eapply decodes_emit; eauto.
  - eapply decodes_inner; eauto.
Qed.

Lemma read_bit_bits_left (s s1 : Stream.t) (bit : Z) :
  stream_ok s -> stream_read_bit s = Some (bit, s1) ->
  stream_ok s1 /\ bits_left s = S (bits_left s1).
Proof.
  intros Hok H. pose proof (stream_capacity s Hok) as Hcap.
  unfold stream_read_bit in H. cbv zeta in H.
  apply bind_Some in H as (byte & Hbyte & H). injection H as _ <-.
  apply aget_bounds in Hbyte.
  assert (0 <= Stream.m_offset s < 65536).
  { pose proof (Z.div_mod (Stream.m_offset s) 8 ltac:(lia)).
    pose proof (Z.mod_pos_bound (Stream.m_offset s) 8 ltac:(lia)). lia. }
  split; [exact Hok|]. unfold bits_left. simpl.
  rewrite Z.mod_small by (unfold SIZE_MOD; lia). lia.
Qed.

Lemma decode_loop_complete (t : FreqTree) (s : Stream.t) (cur : Z) (out : list Z)
    (s' : Stream.t) :
  decodes t s cur out s' -> stream_ok s ->
  decode_loop (bits_left s) s t cur = Some (out, s').
Proof.
  induction 1 as [s s1 s' cur bit next l out Hread Hchild Hl Hne _ IH
                 | s s1 cur bit next Hread Hchild Hl Hzero
                 | s s1 s' cur bit next out Hread Hchild Hl Hnz _ IH];
    intros Hok;
    destruct (read_bit_bits_left s s1 bit Hok Hread) as [Hok1 ->];
    rewrite decode_loop_step, Hread; cbn [bind]; rewrite Hchild; cbn [bind];
    rewrite Hl; cbn [bind].
  - destruct (Z.eqb_spec l INVALID_TOKEN) as [|_]; [contradiction|]. cbn [negb].
    apply IH. exact Hok1.
  - rewrite Z.eqb_refl. cbn [negb]. subst next. reflexivity.
  - rewrite Z.eqb_refl. cbn [negb].
    destruct (Z.eqb_spec next 0) as [|_]; [contradiction|].
    rewrite (IH Hok1). reflexivity.
Qed.

Lemma decodes_ends_with_zero (t : FreqTree) (s : Stream.t) (cur : Z) (out : list Z)
    (s' : Stream.t) :
  decodes t s cur out s' -> exists pre, out = pre ++ [0] /\ 0 ∉ pre.
Proof.
  induction 1 as [s s1 s' cur bit next l out _ _ _ _ _ IH
                 | s s1 cur bit next _ _ _ _
                 | s s1 s' cur bit next out _ _ _ Hnz _ IH].
  - exact IH.
  - exists []. split; [reflexivity|]. apply not_elem_of_nil.
  - destruct IH as (pre & -> & Hpre). exists (next :: pre). split; [reflexivity|].
    rewrite not_elem_of_cons. auto.
Qed.

(** C4: on a stream of the declared size, [stream_decode] returns exactly the
    runs of the state machine [decodes] started at the top node: one bit per
    step, left on 0 and right on 1 down to a leaf, the leaf emitted, a halt
    when the leaf is token 0 and a restart at the top node otherwise.  So the
    tokens returned end with token 0 and hold no other 0. *)
Theorem stream_decode_state_machine (s : Stream.t) (t : FreqTree) (out : list Z)
    (s' : Stream.t) :
  stream_ok s ->
  (stream_decode s t = Some (out, s') <->
   decodes t s (m_top t mod UINT32_MOD) out s') /\
  (stream_decode s t = Some (out, s') ->
   exists pre, out = pre ++ [0] /\ 0 ∉ pre).
Proof.
  intros Hok. unfold stream_decode. split; [split|].
  - apply decode_loop_sound.
  - intros H. apply decode_loop_complete; assumption.
  - intros H. eapply decodes_ends_with_zero. eapply decode_loop_sound. exact H.
Qed.


(** C10: on a stream whose buffer is zero and whose cursor is at 0, writing
    bits that fit the buffer, resetting and reading as many bits back returns
    the bits written; and the zero buffer is needed, since a bit that is
    already set survives the writing of a 0. *)
Theorem stream_write_read_round_trip :
  (forall (s : Stream.t) (bits : list Z),
     stream_ok s -> all_zero (Stream.m_buffer s) -> Stream.m_offset s = 0 ->
     Forall is_bit bits -> Z.of_nat (length bits) <= 8 * STREAM_BYTES ->
     exists s1 s2,
       stream_write_bits s bits = Some s1 /\
       stream_read_bits (length bits) (stream_reset s1) = Some (bits, s2)) /\
  (exists (s s1 s2 : Stream.t) (bits out : list Z),
     stream_ok s /\ Stream.m_offset s = 0 /\ Forall is_bit bits /\
     stream_write_bits s bits = Some s1 /\
     stream_read_bits (length bits) (stream_reset s1) = Some (out, s2) /\
     out <> bits).
Proof.
  split.
  - intros s bits Hok Hzero Hoff Hbits Hlen. unfold STREAM_BYTES in Hlen.
    destruct (stream_write_bits_spec bits s Hok Hbits) as (s1 & Hw & Hok1 & _ & Hb & _).
    + lia.
    + lia.
    + intros j _. apply bit_at_all_zero. exact Hzero.
    + exists s1. eexists. split; [exact Hw|].
      rewrite stream_read_bits_spec; [| exact Hok1 | simpl; lia | simpl; lia].
      simpl. rewrite Hoff in Hb. rewrite Hb. reflexivity.
  - exists (Stream.mk (128 :: replicate (Z.to_nat (STREAM_BYTES - 1)) 0) 0).
    eexists _, _, [0], [1].
    split; [reflexivity|]. split; [reflexivity|].
    split; [repeat constructor|].
    split; [vm_compute; reflexivity|].
    split; [vm_compute; reflexivity|]. discriminate.
Qed.

Lemma stream_write_read_round_trip_witness :
  exists s1 s2,
    stream_write_bits zeroed_stream [1; 0; 1; 1; 0; 0; 0; 1; 1] = Some s1 /\
    stream_read_bits 9 (stream_reset s1) = Some ([1; 0; 1; 1; 0; 0; 0; 1; 1], s2).
Proof.
  apply (proj1 stream_write_read_round_trip zeroed_stream [1; 0; 1; 1; 0; 0; 0; 1; 1]).
  - reflexivity.
  - apply Forall_replicate. reflexivity.
  - reflexivity.
  - repeat constructor; unfold is_bit; lia.
  - vm_compute. discriminate.
Defined.

(** * Codes in a zeroed table *)

(** Two different leaves of a tree never have one path a prefix of the
    other. *)
Lemma path_prefix_free (T : tree) (p q : list Z) (k k' : Z) :
  path T p k -> path T q k' -> k <> k' -> ~ p `prefix_of` q.
Proof.
  intros Hp. revert q k'.
  induction Hp as [k | l r p k Hp IH | l r p k Hp IH]; intros q k' Hq Hne Hpre.
  - inversion Hq; subst. contradiction.
  - inversion Hq as [| ? ? q' ? Hq' | ? ? q' ? Hq']; subst.
    + apply (IH q' k' Hq' Hne). eapply prefix_cons_inv_2. exact Hpre.
    + apply prefix_cons_inv_1 in Hpre. discriminate.
  - inversion Hq as [| ? ? q' ? Hq' | ? ? q' ? Hq']; subst.
    + apply prefix_cons_inv_1 in Hpre. discriminate.
    + apply (IH q' k' Hq' Hne). eapply prefix_cons_inv_2. exact Hpre.
Qed.

(** Derived into a table that was zero, the codes of the bytes of a buffer
    are the paths of their leaves, and no code is a prefix of the code of
    another byte. *)
Lemma zeroed_table_codes (data : list Z) (enc0 : EncodedTable.t) :
  Forall is_byte data -> Z.of_nat (length data) < UINT32_MOD ->
  (exists a b, a ∈ data /\ b ∈ data /\ a <> b) -> table_zeroed enc0 ->
  exists t0 t total enc T,
    freq_tree_accumulate freq_tree_init data = Some t0 /\
    generate_huffman t0 = Some t /\
    create_encodings enc0 t = Some (total, enc) /\
    repr t (m_top t) T /\
    (forall k, k ∈ data -> path T (code_of enc k) k) /\
    (forall k k', k ∈ data -> k' ∈ data -> k <> k' ->
       ~ code_of enc k `prefix_of` code_of enc k').
Proof.
  intros Hdata Hlen Htwo Htab.
  destruct (code_table_spec data enc0 Hdata Hlen Htwo Htab)
    as (t0 & t & total & enc & T & Hacc & Hgen & Hce & _ & _ & Hrepr & _ & _ & Hpaths).
  exists t0, t, total, enc, T. repeat (split; [assumption|]).
  intros k k' Hk Hk' Hne. eapply path_prefix_free; eauto.
Qed.

(** The budget of [stream_decode] is never the reason for a missing result:
    whatever the loop returns on any budget, it returns on the bits left in
    the buffer. *)
Lemma decode_loop_budget (fuel : nat) (s : Stream.t) (t : FreqTree) (cur : Z)
    (r : list Z * Stream.t) :
  stream_ok s -> decode_loop fuel s t cur = Some r ->
  decode_loop (bits_left s) s t cur = Some r.
Proof.
  intros Hok H. destruct r as [out s'].
  apply decode_loop_complete; [|exact Hok]. eapply decode_loop_sound. exact H.
Qed.
(** * The program on concrete inputs *)


Lemma stream_decode_state_machine_witness :
  exists t0 t s',
    freq_tree_accumulate freq_tree_init [0; 1] = Some t0 /\
    generate_huffman t0 = Some t /\
    stream_decode zeroed_stream t = Some ([0], s') /\
    decodes t zeroed_stream (m_top t mod UINT32_MOD) [0] s'.
Proof.
  eexists _, _, _.
  split; [vm_compute; reflexivity|]. split; [vm_compute; reflexivity|].
  split; [vm_compute; reflexivity|].
  apply (proj1 (proj1 (stream_decode_state_machine zeroed_stream _ [0] _ eq_refl))).
  vm_compute. reflexivity.
Defined.

Lemma accumulated_textbook (t0 : FreqTree) :
  freq_tree_accumulate freq_tree_init textbook_data = Some t0 -> accumulated t0.
Proof.
  intros H. destruct (freq_tree_accumulate_spec textbook_data) as (t & Ht & Hacc & _).
  - unfold textbook_data. repeat (apply Forall_app; split);
      apply Forall_replicate; unfold is_byte, TOKEN_SIZE; lia.
  - vm_compute. reflexivity.
  - congruence.
Qed.

Lemma total_bitcount_is_sum_of_code_lengths_witness :
  exists t0 t total enc,
    freq_tree_accumulate freq_tree_init textbook_data = Some t0 /\
    generate_huffman t0 = Some t /\
    create_encodings zeroed_table t = Some (total, enc) /\
    total = total_code_length enc /\
    total = EncodedTable.m_currentOffset enc.
Proof.
  destruct (freq_tree_accumulate freq_tree_init textbook_data) as [t0|] eqn:H0;
    [|vm_compute in H0; discriminate].
  destruct (total_bitcount_is_sum_of_code_lengths t0 zeroed_table
              (accumulated_textbook t0 H0) eq_refl)
    as (t & total & enc & Hgen & Hce & Hsum & Hcur).
  exists t0, t, total, enc. auto.
Defined.

(** C5 (as stated) fails: for the frequencies a:5 b:9 c:12 d:13 e:16 f:45 the
    traversal returns 18, the sum of the six code lengths, while the code
    lengths weighted by frequency add up to 224. *)
Lemma total_bitcount_counterexample :
  exists t0 t total enc,
    freq_tree_accumulate freq_tree_init textbook_data = Some t0 /\
    generate_huffman t0 = Some t /\
    create_encodings zeroed_table t = Some (total, enc) /\
    total = 18 /\ weighted_code_length t0 enc = 224 /\
    total <> weighted_code_length t0 enc.
Proof.
  eexists _, _, _, _.
  split; [vm_compute; reflexivity|]. split; [vm_compute; reflexivity|].
  split; [vm_compute; reflexivity|]. split; [reflexivity|].
  split; [vm_compute; reflexivity|]. vm_compute. discriminate.
Qed.

(** C6: the frequencies a:5 b:9 c:12 d:13 e:16 f:45 give the code lengths
    f:1 c:3 d:3 a:4 b:4 e:3, and code length times frequency adds up to 224. *)
Theorem textbook_code_lengths :
  exists t0 t total enc,
    freq_tree_accumulate freq_tree_init textbook_data = Some t0 /\
    (cnt t0 97 = 5 /\ cnt t0 98 = 9 /\ cnt t0 99 = 12 /\
     cnt t0 100 = 13 /\ cnt t0 101 = 16 /\ cnt t0 102 = 45) /\
    generate_huffman t0 = Some t /\
    create_encodings zeroed_table t = Some (total, enc) /\
    code_length enc 102 = 1 /\ code_length enc 99 = 3 /\ code_length enc 100 = 3 /\
    code_length enc 97 = 4 /\ code_length enc 98 = 4 /\ code_length enc 101 = 3 /\
    weighted_code_length t0 enc = 224.
Proof.
  eexists _, _, _, _.
  split; [vm_compute; reflexivity|].
  split; [vm_compute; repeat split; reflexivity|].
  split; [vm_compute; reflexivity|]. split; [vm_compute; reflexivity|].
  repeat split; vm_compute; reflexivity.
Qed.

(** C2 at a failing input: the tree for the bytes 65 and 66 has 65 as the left
    child of the root, so the path of 65 is the single bit 0; derived into a
    table whose packed bytes were not zero, the range of 65 reads 1. *)
Theorem stale_table_code_is_not_path :
  exists t0 t total enc off,
    freq_tree_accumulate freq_tree_init [65; 66] = Some t0 /\
    generate_huffman t0 = Some t /\
    repr t (m_top t) (Node (Leaf 65) (Leaf 66)) /\
    path (Node (Leaf 65) (Leaf 66)) [0] 65 /\
    create_encodings stale_table t = Some (total, enc) /\
    aget (EncodedTable.m_offset enc) 65 = Some off /\
    aget (EncodedTable.m_bitcount enc) 65 = Some 1 /\
    read_encoded_bit enc off = Some 1 /\
    code_of enc 65 = [1].
Proof.
  eexists _, _, _, _, _.
  split; [vm_compute; reflexivity|]. split; [vm_compute; reflexivity|].
  split.
  { apply repr_node with (l := 65) (r := 66);
      [reflexivity | discriminate | reflexivity | vm_compute; split; [discriminate | reflexivity]
       | vm_compute; split; [discriminate | reflexivity]
       | apply repr_leaf; reflexivity | apply repr_leaf; reflexivity]. }
  split; [repeat constructor|].
  split; [vm_compute; reflexivity|].
  split; [vm_compute; reflexivity|]. split; [vm_compute; reflexivity|].
  split; vm_compute; reflexivity.
Qed.

(** C7 at a failing input: derived into a table whose packed bytes were not
    zero, the codes of 65 and 66 are both the single bit 1, each a prefix of
    the other. *)
Theorem stale_table_codes_not_prefix_free :
  exists t0 t total enc,
    freq_tree_accumulate freq_tree_init [65; 66] = Some t0 /\
    generate_huffman t0 = Some t /\
    create_encodings stale_table t = Some (total, enc) /\
    code_length enc 65 = 1 /\ code_length enc 66 = 1 /\
    code_of enc 65 = [1] /\ code_of enc 66 = [1] /\
    code_of enc 65 `prefix_of` code_of enc 66.
Proof.
  eexists _, _, _, _.
  split; [vm_compute; reflexivity|]. split; [vm_compute; reflexivity|].
  split; [vm_compute; reflexivity|].
  split; [vm_compute; reflexivity|]. split; [vm_compute; reflexivity|].
  split; [vm_compute; reflexivity|]. split; [vm_compute; reflexivity|].
  exists []. vm_compute. reflexivity.
Qed.

(** C8 at a failing input: with the single symbol 65 the first scan finds node
    65, the second scan finds nothing, and [m_top] becomes 255, a token slot
    that never had a count, not node 65. *)
Theorem single_symbol_root_is_last_slot :
  exists t0 c1 t,
    freq_tree_accumulate freq_tree_init [65; 65; 65] = Some t0 /\
    get_smallest_huffman t0 TOKEN_SIZE = Some 65 /\
    aset (m_count t0) 65 0 = Some c1 /\
    get_smallest_huffman (set_count t0 c1) TOKEN_SIZE = Some INVALID_TOKEN /\
    generate_huffman t0 = Some t /\
    m_top t = 255 /\ m_top t <> 65 /\ cnt t0 255 = 0 /\ cnt t 65 = 0.
Proof.
  eexists _, _, _.
  split; [vm_compute; reflexivity|]. split; [vm_compute; reflexivity|].
  split; [vm_compute; reflexivity|]. split; [vm_compute; reflexivity|].
  split; [vm_compute; reflexivity|].
  split; [reflexivity|]. split; [discriminate|].
  split; vm_compute; reflexivity.
Qed.

(** * A rule for the loop of [generate_huffman] *)

Section LoopRule.

(** [P] holds before every pass, [Q] is what the caller wants at the [break]. *)
Variable f0 : Z -> Z.
Variables P Q : FreqTree -> Z -> Prop.

Hypothesis merge_step : forall t n r1 r2 t3,
  gen_inv f0 t n -> P t n -> two_smallest t n r1 r2 ->
  merged t n r1 r2 (cnt t r1 + cnt t r2) t3 -> P t3 (n + 1).

Hypothesis break_first : forall t n,
  gen_inv f0 t n -> P t n -> (forall j, 0 <= j < n -> cnt t j = 0) -> Q t n.

Hypothesis break_second : forall t n r1 c1,
  gen_inv f0 t n -> P t n -> 0 <= r1 < n -> cnt t r1 <> 0 ->
  (forall j, 0 <= j < n -> j <> r1 -> cnt t j = 0) ->
  aset (m_count t) r1 0 = Some c1 -> Q (set_count t c1) n.

Lemma generate_loop_rule (fuel : nat) :
  forall (t : FreqTree) (n : Z) (t' : FreqTree) (n' : Z),
  gen_inv f0 t n -> P t n -> generate_loop fuel t n = Some (t', n') -> Q t' n'.
Proof.
  induction fuel as [|fuel IH]; intros t n t' n' I HP H; [discriminate|].
  pose proof (gen_inv_bound _ _ _ I) as Hn511.
  pose proof (gi_n _ _ _ I) as Hn256.
  destruct (gi_sizes _ _ _ I) as (S1 & S2 & S3).
  rewrite generate_loop_S in H.
  destruct (get_smallest_huffman_spec t n) as (r1 & Hs1 & Hspec1); [consts; lia|].
  rewrite Hs1 in H. cbn [bind] in H.
  destruct Hspec1 as [[-> Hall] | [(Hr1 & Hnz1 & Hmin1) Hlt1]].
  - rewrite Z.eqb_refl in H. injection H as <- <-.
    apply break_first; [exact I | exact HP |].
    intros j Hj. eapply gen_inv_hidden; eauto.
  - destruct (Z.eqb_spec r1 INVALID_TOKEN) as [E|_]; [consts; lia|].
    rewrite (aget_cnt t r1) in H by (consts; lia). cbn [bind] in H.
    assert (Hset1 : aset (m_count t) r1 0 = Some (<[Z.to_nat r1 := 0]> (m_count t)))
      by (apply aset_is_Some; consts; lia).
    rewrite Hset1 in H. cbn [bind] in H.
    set (c1 := <[Z.to_nat r1 := 0]> (m_count t)) in *.
    assert (Hc1 : forall i, cnt (set_count t c1) i = upd (cnt t) r1 0 i)
      by (apply cnt_set; exact Hset1).
    assert (L1 : length c1 = length (m_count t)) by apply length_insert.
    destruct (get_smallest_huffman_spec (set_count t c1) n) as (r2 & Hs2 & Hspec2).
    { cbn [m_count set_count]. rewrite L1. consts. lia. }
    rewrite Hs2 in H. cbn [bind] in H.
    destruct Hspec2 as [[-> Hall] | [(Hr2 & Hnz2 & Hmin2) Hlt2]].
    + rewrite Z.eqb_refl in H. injection H as <- <-.
      apply (break_second t n r1 c1); auto.
      intros j Hj Hne. specialize (Hall j Hj). rewrite Hc1 in Hall. unfold upd in Hall.
      destruct (Z.eqb_spec j r1); [contradiction|].
      eapply gen_inv_hidden; eauto.
    + assert (Hne : r1 <> r2).
      { intros <-. apply Hnz2. rewrite Hc1. unfold upd. rewrite Z.eqb_refl. reflexivity. }
      assert (Hc2 : cnt (set_count t c1) r2 = cnt t r2).
      { rewrite Hc1. unfold upd. destruct (Z.eqb_spec r2 r1); [congruence | reflexivity]. }
      rewrite Hc2 in Hnz2.
      assert (Htwo : two_smallest t n r1 r2).
      { unfold two_smallest. repeat split; try lia; try assumption.
        - intros j Hj Hnz. apply (Hmin1 j Hj Hnz).
        - intros j Hj Hjne Hnz. rewrite <- Hc2.
          assert (E : cnt (set_count t c1) j = cnt t j).
          { rewrite Hc1. unfold upd. destruct (Z.eqb_spec j r1); [contradiction | reflexivity]. }
          rewrite <- E. apply (Hmin2 j Hj). rewrite E. exact Hnz. }
      pose proof (live_two t n r1 r2 Hr1 Hr2 Hne Hnz1 Hnz2) as Hl2.
      pose proof (gi_live _ _ _ I) as Hln.
      pose proof (gen_inv_small _ _ _ _ I Hr1) as Hv1.
      pose proof (gen_inv_small _ _ _ _ I Hr2) as Hv2.
      assert (Hv12 : cnt t r1 + cnt t r2 < INVALID_TOKEN).
      { pose proof (gi_sum _ _ _ I) as Hsum.
        pose proof (sum_below_upd (cnt t) r1 0 (Z.to_nat n) ltac:(lia)) as E1.
        pose proof (sum_below_upd (upd (cnt t) r1 0) r2 0 (Z.to_nat n) ltac:(lia)) as E2.
        assert (0 <= sum_below (upd (upd (cnt t) r1 0) r2 0) (Z.to_nat n)).
        { apply sum_below_nonneg. intros i Hi. unfold upd.
          destruct (i =? r2); [lia|]. destruct (i =? r1); [lia|].
          apply (gi_pos _ _ _ I). lia. }
        assert (Hu : upd (cnt t) r1 0 r2 = cnt t r2).
        { unfold upd. destruct (Z.eqb_spec r2 r1); [congruence | reflexivity]. }
        rewrite Hu in E2. lia. }
      destruct (Z.eqb_spec r2 INVALID_TOKEN) as [E|_]; [consts; lia|].
      assert (Hget2 : aget c1 r2 = Some (cnt t r2)).
      { rewrite <- Hc2. apply (aget_cnt (set_count t c1)).
        cbn [m_count set_count]. rewrite L1. consts. lia. }
      rewrite Hget2 in H. cbn [bind] in H.
      assert (Hset2 : aset c1 r2 0 = Some (<[Z.to_nat r2 := 0]> c1))
        by (apply aset_is_Some; rewrite L1; consts; lia).
      rewrite Hset2 in H. cbn [bind] in H.
      rewrite (Z.mod_small (cnt t r1 + cnt t r2)) in H by (consts; lia).
      rewrite (Z.mod_small (n + 1)) in H by (consts; lia).
      assert (Hset3 : aset (<[Z.to_nat r2 := 0]> c1) n (cnt t r1 + cnt t r2)
                      = Some (<[Z.to_nat n := cnt t r1 + cnt t r2]> (<[Z.to_nat r2 := 0]> c1)))
        by (apply aset_is_Some; rewrite length_insert, L1; consts; lia).
      rewrite Hset3 in H. cbn [bind] in H.
      assert (Hsetl : aset (m_left t) n r1 = Some (<[Z.to_nat n := r1]> (m_left t)))
        by (apply aset_is_Some; consts; lia).
      assert (Hsetr : aset (m_right t) n r2 = Some (<[Z.to_nat n := r2]> (m_right t)))
        by (apply aset_is_Some; consts; lia).
      rewrite Hsetl in H. cbn [bind] in H. rewrite Hsetr in H. cbn [bind] in H.
      match type of H with generate_loop fuel ?x _ = _ => set (t3 := x) in * end.
      assert (M : merged t n r1 r2 (cnt t r1 + cnt t r2) t3).
      { exists c1, (<[Z.to_nat r2 := 0]> c1). auto. }
      destruct (merge_inv t t3 n r1 r2 _ M f0 I Hr1 Hr2 Hne Hnz1 Hnz2 eq_refl)
        as [I3 _].
      apply (IH t3 (n + 1) t' n' I3); [|exact H].
      exact (merge_step t n r1 r2 t3 I HP Htwo M).
Qed.

End LoopRule.

(** * What the loop leaves in the arrays *)

Lemma cnt_outside (t : FreqTree) (i : Z) :
  ~ (0 <= i < Z.of_nat (length (m_count t))) -> cnt t i = 0.
Proof.
  intros H. unfold cnt, aget. apply in_bounds_false in H. rewrite H. reflexivity.
Qed.

Lemma live_zero (t : FreqTree) (n : Z) :
  (forall j, 0 <= j < n -> cnt t j = 0) -> live t n = 0.
Proof.
  intros H. unfold live. apply sum_below_zero. intros i Hi. cbv beta.
  rewrite H by lia. reflexivity.
Qed.

Lemma live_one (t : FreqTree) (n r : Z) :
  0 <= r < n -> cnt t r <> 0 ->
  (forall j, 0 <= j < n -> j <> r -> cnt t j = 0) -> live t n = 1.
Proof.
  intros Hr Hnz H. unfold live. set (g := fun i => nonzero (cnt t i)).
  pose proof (sum_below_upd g r 0 (Z.to_nat n) ltac:(lia)) as E.
  rewrite (sum_below_zero (upd g r 0)) in E.
  - assert (g r = 1) by (apply nonzero_one; exact Hnz). lia.
  - intros i Hi. unfold upd, g. destruct (Z.eqb_spec i r); [reflexivity|].
    rewrite H by lia. reflexivity.
Qed.

(** A merge hides two nodes and shows the new one when its count is not 0. *)
Lemma merged_live_eq (t t3 : FreqTree) (n r1 r2 v : Z) :
  merged t n r1 r2 v t3 ->
  0 <= r1 < n -> 0 <= r2 < n -> r1 <> r2 -> cnt t r1 <> 0 -> cnt t r2 <> 0 ->
  live t3 (n + 1) = live t n - 2 + nonzero v.
Proof.
  intros M H1 H2 Hne Hnz1 Hnz2.
  assert (Hnat : Z.to_nat (n + 1) = S (Z.to_nat n)) by lia.
  assert (Hofnat : Z.of_nat (Z.to_nat n) = n) by lia.
  unfold live at 1. rewrite Hnat. cbn [sum_below]. rewrite Hofnat.
  assert (Hn : cnt t3 n = v).
  { rewrite (merged_cnt t t3 n r1 r2 v M). unfold upd. rewrite Z.eqb_refl. reflexivity. }
  rewrite Hn.
  assert (sum_below (fun i => nonzero (cnt t3 i)) (Z.to_nat n) = live t n - 2); [|lia].
  unfold live. set (g := fun i => nonzero (cnt t i)).
  rewrite (sum_below_ext _ (upd (upd g r1 0) r2 0)).
  - rewrite !sum_below_upd by lia. unfold upd, g.
    destruct (Z.eqb_spec r2 r1); [congruence|].
    rewrite !nonzero_one by assumption. lia.
  - intros i Hi. cbv beta. rewrite (merged_cnt t t3 n r1 r2 v M). unfold upd, g.
    destruct (Z.eqb_spec i n); [lia|].
    destruct (i =? r2); [reflexivity|]. destruct (i =? r1); reflexivity.
Qed.

(** At the [break] every count is zero, and [new_index] has advanced by one
    less than the number of nodes that were visible. *)
Lemma generate_loop_exit (f0 : Z -> Z) (fuel : nat) (t : FreqTree) (n : Z)
    (t' : FreqTree) (n' : Z) :
  gen_inv f0 t n -> (forall i, n <= i -> cnt t i = 0) ->
  generate_loop fuel t n = Some (t', n') ->
  (forall i, cnt t' i = 0) /\
  ((live t n = 0 /\ n' = n) \/ (1 <= live t n /\ n' = n + live t n - 1)).
Proof.
  intros I Hz H.
  set (K := live t n + n).
  set (P := fun (t1 : FreqTree) (n1 : Z) =>
              (forall i, n1 <= i -> cnt t1 i = 0) /\ live t1 n1 + n1 = K /\ n <= n1).
  set (Q := fun (t1 : FreqTree) (n1 : Z) =>
              (forall i, cnt t1 i = 0) /\
              ((K = n /\ n1 = n) \/ (n <= n1 /\ n1 = K - 1))).
  assert (HQ : Q t' n').
  { apply (generate_loop_rule f0 P Q) with (fuel := fuel) (t := t) (n := n); auto.
    - intros t1 n1 r1 r2 t3 I1 (Hz1 & HK & Hle) (Hr1 & Hr2 & Hne & Hnz1 & Hnz2 & _) M.
      split; [|split; [|lia]].
      + intros i Hi. rewrite (merged_cnt _ _ _ _ _ _ M). unfold upd.
        destruct (Z.eqb_spec i n1); [lia|]. destruct (Z.eqb_spec i r2); [lia|].
        destruct (Z.eqb_spec i r1); [lia|]. apply Hz1. lia.
      + rewrite (merged_live_eq _ _ _ _ _ _ M) by assumption.
        pose proof (gi_pos _ _ _ I1 r1 Hr1). pose proof (gi_pos _ _ _ I1 r2 Hr2).
        rewrite nonzero_one by lia. lia.
    - intros t1 n1 I1 (Hz1 & HK & Hle) Hall. split.
      + intros i. destruct (Z_lt_le_dec i 0) as [Hneg | Hpos].
        * apply cnt_outside. lia.
        * destruct (Z_lt_le_dec i n1); [apply Hall; lia | apply Hz1; lia].
      + left. rewrite (live_zero t1 n1 Hall) in HK.
        destruct (Z.eq_dec n1 TOKEN_SIZE) as [E|E].
        * pose proof (gi_n _ _ _ I). lia.
        * exfalso. pose proof (gi_n _ _ _ I1).
          apply (gi_last _ _ _ I1); [lia|]. apply Hall. consts. lia.
    - intros t1 n1 r1 c1 I1 (Hz1 & HK & Hle) Hr1 Hnz1 Hall Hset. split.
      + intros i. rewrite (cnt_set t1 (set_count t1 c1) r1 0 Hset). unfold upd.
        destruct (Z.eqb_spec i r1); [reflexivity|].
        destruct (Z_lt_le_dec i 0) as [Hneg | Hpos].
        * apply cnt_outside. lia.
        * destruct (Z_lt_le_dec i n1); [apply Hall; lia | apply Hz1; lia].
      + right. rewrite (live_one t1 n1 r1 Hr1 Hnz1 Hall) in HK. lia.
    - unfold P. split; [exact Hz|]. split; [reflexivity | lia]. }
  destruct HQ as [Hzero Hcase]. split; [exact Hzero|].
  pose proof (live_nonneg t n).
  destruct Hcase as [[HK ->] | [Hle ->]]; [left | right]; unfold K in *; lia.
Qed.

(** * Symbols and dumps *)

Lemma filter_none {A : Type} (P : A -> Prop) `{!forall x, Decision (P x)} (l : list A) :
  Forall (fun x => ~ P x) l -> filter P l = [].
Proof.
  induction 1 as [|x l Hx _ IH]; [reflexivity|].
  rewrite filter_cons_False by exact Hx. exact IH.
Qed.

Lemma sum_below_filter (P : Z -> Prop) `{!forall x, Decision (P x)} (n : nat) :
  sum_below (fun i => if decide (P i) then 1 else 0) n =
  Z.of_nat (length (filter P (seqZ 0 (Z.of_nat n)))).
Proof.
  induction n as [|n IH]; [reflexivity|].
  rewrite seqZ_S, filter_app, length_app, Nat2Z.inj_add, <- IH. cbn [sum_below].
  rewrite Z.add_0_l. f_equal.
  destruct (decide (P (Z.of_nat n))) as [Hp|Hp].
  - rewrite filter_cons_True by exact Hp. reflexivity.
  - rewrite filter_cons_False by exact Hp. reflexivity.
Qed.

(** The visible nodes of an accumulated tree are the symbols of the data. *)
Lemma live_symbols (t : FreqTree) (data : list Z) :
  (forall i, cnt t i = occ i data) ->
  live t TOKEN_SIZE = Z.of_nat (length (symbols data)).
Proof.
  intros H. unfold live, symbols.
  change TOKEN_SIZE with (Z.of_nat 256) at 2. rewrite <- sum_below_filter.
  change (Z.to_nat TOKEN_SIZE) with 256%nat.
  apply sum_below_ext. intros i _. cbv beta. rewrite H. unfold nonzero.
  destruct (Z.eqb_spec (occ i data) 0) as [E|E];
    destruct (decide (occ i data <> 0)); first [reflexivity | contradiction].
Qed.

Lemma elem_of_symbols (data : list Z) (k : Z) :
  Forall is_byte data -> (k ∈ symbols data <-> k ∈ data).
Proof.
  intros Hb. unfold symbols. rewrite list_elem_of_filter, elem_of_seqZ, occ_pos.
  split; [tauto|]. intros Hk. split; [exact Hk|].
  rewrite Forall_forall in Hb. specialize (Hb k Hk). unfold is_byte in Hb. lia.
Qed.

Lemma dump_counts_spec (count : list Z) (n : nat) :
  forall i, 0 <= i -> i + Z.of_nat n <= Z.of_nat (length count) ->
  dump_counts count n i =
  Some (map (fun k => (k, default 0 (aget count k)))
          (filter (fun k => default 0 (aget count k) <> 0) (seqZ i (Z.of_nat n)))).
Proof.
  induction n as [|n IH]; intros i Hi Hlen; [reflexivity|].
  rewrite seqZ_cons by lia.
  replace (Z.pred (Z.of_nat (S n))) with (Z.of_nat n) by lia.
  cbn [dump_counts].
  destruct (aget_is_Some count i) as [v Hv]; [lia|].
  rewrite Hv. cbn [bind]. rewrite (IH (i + 1)) by lia. cbn [bind].
  replace (Z.succ i) with (i + 1) by lia.
  destruct (Z.eqb_spec v 0) as [E|E].
  - rewrite filter_cons_False; [reflexivity|]. rewrite Hv. simpl. lia.
  - rewrite filter_cons_True by (rewrite Hv; exact E).
    cbn [map]. rewrite Hv. reflexivity.
Qed.

(** * Frequencies: accumulation, dump and what the build leaves of them *)

Lemma accumulate_loop_app (d1 d2 : list Z) :
  forall t, accumulate_loop t (d1 ++ d2) =
            do t1 <- accumulate_loop t d1; accumulate_loop t1 d2.
Proof.
  induction d1 as [|c d1 IH]; intros t; [reflexivity|].
  cbn [app accumulate_loop].
  destruct (aget (m_count t) c) as [n|]; cbn [bind]; [|reflexivity].
  destruct (aset (m_count t) c ((n + 1) mod SIZE_MOD)) as [c'|]; cbn [bind];
    [apply IH | reflexivity].
Qed.

Lemma occ_byte (data : list Z) (i : Z) :
  Forall is_byte data -> ~ (0 <= i < TOKEN_SIZE) -> occ i data = 0.
Proof.
  intros Hb Hi. destruct (Z.eq_dec (occ i data) 0) as [E|E]; [exact E|].
  apply occ_pos in E. rewrite Forall_forall in Hb. elim Hi. exact (Hb i E).
Qed.

Lemma generate_huffman_all_hidden (t : FreqTree) :
  TOKEN_SIZE <= Z.of_nat (length (m_count t)) ->
  (forall i, 0 <= i < TOKEN_SIZE -> cnt t i = 0) ->
  generate_huffman t = Some (set_top t (TOKEN_SIZE - 1)).
Proof.
  intros Hlen Hzero. unfold generate_huffman.
  change (Z.to_nat TOKEN_SIZE) with (S (Z.to_nat 255)).
  rewrite generate_loop_S.
  rewrite (scan_nothing t TOKEN_SIZE) by (auto; consts; lia).
  cbn [bind]. rewrite Z.eqb_refl. reflexivity.
Qed.

(** What [generate_huffman] does to a tree accumulated from a buffer: every
    count ends at zero, and [m_top] is fixed by the number of symbols. *)
Lemma generate_huffman_exit (data : list Z) :
  Forall is_byte data -> Z.of_nat (length data) < UINT32_MOD ->
  exists t0 t,
    freq_tree_accumulate freq_tree_init data = Some t0 /\
    accumulated t0 /\ (forall i, cnt t0 i = occ i data) /\
    generate_huffman t0 = Some t /\ tree_sizes t /\
    (forall i, cnt t i = 0) /\
    (symbols data = [] -> m_top t = TOKEN_SIZE - 1) /\
    (symbols data <> [] ->
     m_top t = TOKEN_SIZE + Z.of_nat (length (symbols data)) - 2).
Proof.
  intros Hb Hlen.
  destruct (freq_tree_accumulate_spec data Hb Hlen) as (t0 & Hacc & Ha & Hocc).
  destruct (generate_huffman_spec t0 Ha) as (t' & n & Hloop & Hgen & Hpost).
  pose proof (accumulated_gen_inv t0 Ha) as I.
  assert (Hz : forall i, TOKEN_SIZE <= i -> cnt t0 i = 0).
  { intros i Hi. rewrite Hocc. apply occ_byte; [exact Hb | lia]. }
  destruct (generate_loop_exit (cnt t0) (Z.to_nat TOKEN_SIZE) t0 TOKEN_SIZE t' n
              I Hz Hloop) as [Hzero Hn].
  rewrite (live_symbols t0 data Hocc) in Hn.
  exists t0, (set_top t' (n - 1)).
  split; [exact Hacc|]. split; [exact Ha|]. split; [exact Hocc|].
  split; [exact Hgen|]. split; [exact (proj1 Hpost)|]. split; [exact Hzero|].
  cbn [m_top set_top]. split.
  - intros E. rewrite E in Hn. simpl in Hn. lia.
  - intros E. destruct (symbols data) as [|k l]; [contradiction|].
    simpl length in *. lia.
Qed.



(** X2.  Accumulating a buffer in two calls is accumulating the whole buffer
    in one, as long as the whole buffer is shorter than [2^32] bytes. *)
Theorem freq_tree_accumulate_app (t : FreqTree) (d1 d2 : list Z) :
  Z.of_nat (length (d1 ++ d2)) < UINT32_MOD ->
  freq_tree_accumulate t (d1 ++ d2) =
  do t1 <- freq_tree_accumulate t d1; freq_tree_accumulate t1 d2.
Proof.
  intros Hlen. rewrite length_app, Nat2Z.inj_add in Hlen. unfold freq_tree_accumulate.
  rewrite length_app, Nat2Z.inj_add.
  destruct (Z.ltb_spec (Z.of_nat (length d1) + Z.of_nat (length d2)) UINT32_MOD); [|lia].
  destruct (Z.ltb_spec (Z.of_nat (length d1)) UINT32_MOD); [|lia].
  destruct (Z.ltb_spec (Z.of_nat (length d2)) UINT32_MOD); [|lia].
  apply accumulate_loop_app.
Qed.

Lemma freq_tree_accumulate_app_witness :
  freq_tree_accumulate freq_tree_init ([7; 9] ++ [9; 8]) =
  do t1 <- freq_tree_accumulate freq_tree_init [7; 9]; freq_tree_accumulate t1 [9; 8].
Proof.
  apply (freq_tree_accumulate_app freq_tree_init [7; 9] [9; 8]).
  vm_compute. reflexivity.
Defined.







(** * The layout of the code table *)

Lemma height_leaves (T : tree) : (height T + 1 <= length (leaves T))%nat.
Proof.
  induction T as [k | l IHl r IHr]; simpl; [lia|].
  rewrite length_app. lia.
Qed.

Lemma path_height (T : tree) (p : list Z) (k : Z) :
  path T p k -> (length p <= height T)%nat.
Proof. induction 1; simpl; lia. Qed.

Lemma path_is_bits (T : tree) (p : list Z) (k : Z) : path T p k -> Forall is_bit p.
Proof.
  induction 1; constructor; auto; [left | right]; reflexivity.
Qed.

(** The write pass gives the leaves of a subtree ranges of the table that do
    not overlap. *)
Lemma traverse_write_disjoint (t : FreqTree) (T : tree) :
  forall (fuel : nat) (top : Z) (enc : EncodedTable.t) (chain : list Z) (d : Z),
  repr t top T -> (height T < fuel)%nat -> table_sizes enc ->
  Forall is_bit chain -> d = Z.of_nat (length chain) ->
  0 <= EncodedTable.m_currentOffset enc ->
  EncodedTable.m_currentOffset enc + code_bits T d <= 65792 ->
  (forall k, k ∈ leaves T -> 0 <= k < TOKEN_SIZE) -> NoDup (leaves T) ->
  exists enc',
    freq_tree_traverse fuel enc t top chain d false = Some (enc', code_bits T d) /\
    forall k p k' p' off off',
      path T p k -> path T p' k' -> k <> k' ->
      aget (EncodedTable.m_offset enc') k = Some off ->
      aget (EncodedTable.m_offset enc') k' = Some off' ->
      off + d + Z.of_nat (length p) <= off' \/ off' + d + Z.of_nat (length p') <= off.
Proof.
  induction T as [tok | tl IHl tr IHr];
    intros fuel top enc chain d Hrepr Hfuel Hsz Hchain Hd Hc0 Hcap Hleaves Hnd.
  - destruct (traverse_write_spec t (Leaf tok) fuel top enc chain d Hrepr Hfuel Hsz
                Hchain Hd Hc0 Hcap Hleaves Hnd) as (enc' & Ht & _).
    exists enc'. split; [exact Ht|].
    intros k p k' p' off off' Hp Hp' Hne. inversion Hp; inversion Hp'; congruence.
  - destruct (traverse_write_spec t (Node tl tr) fuel top enc chain d Hrepr Hfuel Hsz
                Hchain Hd Hc0 Hcap Hleaves Hnd) as (enc' & Ht & _).
    exists enc'. split; [exact Ht|].
    inversion Hrepr as [| ? li ri ? ? Hl Hne Hr Hlb Hrb Hrl Hrr]; subst.
    destruct fuel as [|fuel]; [lia|]. simpl in Hfuel.
    rewrite (traverse_unfold _ _ _ _ _ _ _ _ Hl) in Ht.
    destruct (Z.eqb_spec li INVALID_TOKEN) as [|_]; [contradiction|].
    simpl in Hnd. apply NoDup_app in Hnd as (Hndl & Hdisj & Hndr).
    simpl code_bits in *.
    assert (Hd0 : 0 <= Z.of_nat (length chain)) by lia.
    pose proof (code_bits_ge tl (Z.of_nat (length chain) + 1) ltac:(lia)) as Hgl.
    pose proof (code_bits_ge tr (Z.of_nat (length chain) + 1) ltac:(lia)) as Hgr.
    rewrite (Z.mod_small (Z.of_nat (length chain) + 1)) in Ht by (unfold SIZE_MOD; lia).
    assert (Hll : forall k, k ∈ leaves tl -> 0 <= k < TOKEN_SIZE)
      by (intros k Hk; apply Hleaves; simpl; apply elem_of_app; auto).
    assert (Hlr : forall k, k ∈ leaves tr -> 0 <= k < TOKEN_SIZE)
      by (intros k Hk; apply Hleaves; simpl; apply elem_of_app; auto).
    assert (Hcl : Forall is_bit (0 :: chain))
      by (constructor; [left; reflexivity | exact Hchain]).
    assert (Hcr : Forall is_bit (1 :: chain))
      by (constructor; [right; reflexivity | exact Hchain]).
    assert (Hdl : Z.of_nat (length chain) + 1 = Z.of_nat (length (0 :: chain)))
      by (simpl length; lia).
    assert (Hdr : Z.of_nat (length chain) + 1 = Z.of_nat (length (1 :: chain)))
      by (simpl length; lia).
    destruct (traverse_write_spec t tl fuel li enc (0 :: chain) _ Hrl ltac:(lia) Hsz
                Hcl Hdl Hc0 ltac:(lia) Hll Hndl)
      as (enc1 & Ht1 & Hsz1 & Hc1 & _ & _ & _ & Hoth1 & Hpath1).
    destruct (IHl fuel li enc (0 :: chain) _ Hrl ltac:(lia) Hsz
                Hcl Hdl Hc0 ltac:(lia) Hll Hndl) as (enc1' & Ht1' & Hdisj1).
    assert (enc1' = enc1) by congruence. subst enc1'.
    rewrite Ht1 in Ht. cbn [bind] in Ht. rewrite Hr in Ht. cbn [bind] in Ht.
    destruct (traverse_write_spec t tr fuel ri enc1 (1 :: chain) _ Hrr ltac:(lia) Hsz1
                Hcr Hdr ltac:(lia) ltac:(lia) Hlr Hndr)
      as (enc2 & Ht2 & Hsz2 & Hc2 & _ & _ & _ & Hoth2 & Hpath2).
    destruct (IHr fuel ri enc1 (1 :: chain) _ Hrr ltac:(lia) Hsz1
                Hcr Hdr ltac:(lia) ltac:(lia) Hlr Hndr) as (enc2' & Ht2' & Hdisj2).
    assert (enc2' = enc2) by congruence. subst enc2'.
    rewrite Ht2 in Ht. cbn [bind] in Ht. injection Ht as <- _.
    assert (Hkeep : forall k q, path tl q k ->
              aget (EncodedTable.m_offset enc2) k = aget (EncodedTable.m_offset enc1) k).
    { intros k q Hq. apply Hoth2. intros Hk.
      apply (Hdisj k); [eapply path_leaves; eauto | exact Hk]. }
    intros k p k' p' off off' Hp Hp' Hkk Hoff Hoff'.
    inversion Hp as [| ? ? q ? Hq | ? ? q ? Hq]; subst;
      inversion Hp' as [| ? ? q' ? Hq' | ? ? q' ? Hq']; subst; cbn [length].
    + rewrite (Hkeep _ _ Hq) in Hoff. rewrite (Hkeep _ _ Hq') in Hoff'.
      pose proof (Hdisj1 _ _ _ _ _ _ Hq Hq' Hkk Hoff Hoff'). lia.
    + rewrite (Hkeep _ _ Hq) in Hoff.
      destruct (Hpath1 _ _ Hq) as (o1 & Ho1 & Hlo1 & Hhi1 & _).
      destruct (Hpath2 _ _ Hq') as (o2 & Ho2 & Hlo2 & Hhi2 & _).
      assert (o1 = off) by congruence. assert (o2 = off') by congruence. lia.
    + rewrite (Hkeep _ _ Hq') in Hoff'.
      destruct (Hpath1 _ _ Hq') as (o1 & Ho1 & Hlo1 & Hhi1 & _).
      destruct (Hpath2 _ _ Hq) as (o2 & Ho2 & Hlo2 & Hhi2 & _).
      assert (o1 = off') by congruence. assert (o2 = off) by congruence. lia.
    + pose proof (Hdisj2 _ _ _ _ _ _ Hq Hq' Hkk Hoff Hoff'). lia.
Qed.

(** Where [create_encodings] puts the codes: the range of every leaf lies
    below the final [m_currentOffset], and the ranges of two leaves do not
    overlap. *)
Lemma create_encodings_layout (t : FreqTree) (T : tree) (enc0 enc : EncodedTable.t)
    (total : Z) :
  tree_sizes t -> repr t (m_top t) T ->
  NoDup (leaves T) -> (forall k, k ∈ leaves T -> 0 <= k < TOKEN_SIZE) ->
  Z.of_nat (length (EncodedTable.m_packedData enc0)) = MAX_ENCODING_TABLE_BYTES ->
  create_encodings enc0 t = Some (total, enc) ->
  (forall k p off,
     path T p k -> aget (EncodedTable.m_offset enc) k = Some off ->
     0 <= off /\ off + Z.of_nat (length p) <= EncodedTable.m_currentOffset enc) /\
  (forall k p k' p' off off',
     path T p k -> path T p' k' -> k <> k' ->
     aget (EncodedTable.m_offset enc) k = Some off ->
     aget (EncodedTable.m_offset enc) k' = Some off' ->
     off + Z.of_nat (length p) <= off' \/ off' + Z.of_nat (length p') <= off).
Proof.
  intros Hts Hrepr Hnd Hleaves Hlen Hce.
  pose proof (init_table_sizes enc0 Hlen) as Hsz0.
  pose proof (code_bits_capacity T Hnd Hleaves) as Hcap.
  pose proof (code_bits_ge T 0 ltac:(lia)) as Hge.
  assert (Hh : (height T < Z.to_nat FREQ_TREE_MAX_NODES)%nat).
  { pose proof (repr_height _ _ _ Hrepr). pose proof (repr_bounds _ _ _ Hrepr).
    destruct Hts as (_ & Hl & _). consts. lia. }
  assert (Hcap' : code_bits T 0 <= 65792).
  { unfold MAX_ENCODING_TABLE_BITS in Hcap. consts. lia. }
  unfold create_encodings in Hce. cbv zeta in Hce.
  assert (Hcur0 : 0 <= EncodedTable.m_currentOffset (encoded_table_init enc0))
    by (simpl; lia).
  assert (Hcap0 : EncodedTable.m_currentOffset (encoded_table_init enc0)
                  + code_bits T 0 <= 65792) by (simpl; lia).
  destruct (traverse_write_spec t T (Z.to_nat FREQ_TREE_MAX_NODES) (m_top t)
              (encoded_table_init enc0) [] 0 Hrepr Hh Hsz0 (Forall_nil_2 _) eq_refl
              Hcur0 Hcap0 Hleaves Hnd)
    as (enc1 & Ht1 & Hsz1 & Hc1 & _ & _ & _ & _ & Hpath1).
  destruct (traverse_write_disjoint t T (Z.to_nat FREQ_TREE_MAX_NODES) (m_top t)
              (encoded_table_init enc0) [] 0 Hrepr Hh Hsz0 (Forall_nil_2 _) eq_refl
              Hcur0 Hcap0 Hleaves Hnd)
    as (enc1' & Ht1' & Hdisj).
  assert (enc1' = enc1) by congruence. subst enc1'.
  rewrite Ht1 in Hce. cbn [bind] in Hce.
  destruct (traverse_count_spec t T (Z.to_nat FREQ_TREE_MAX_NODES) (m_top t)
              enc1 [] 0 Hrepr Hh Hsz1)
    as (bc & total' & Ht2 & _);
    [lia | consts; lia | exact Hleaves | exact Hnd |].
  rewrite Ht2 in Hce. cbn [bind] in Hce. injection Hce as _ <-.
  cbn [EncodedTable.m_offset EncodedTable.m_currentOffset].
  split.
  - intros k p off Hp Hoff. destruct (Hpath1 k p Hp) as (o & Ho & Hlo & Hhi & _).
    assert (o = off) by congruence. subst o.
    change (EncodedTable.m_currentOffset (encoded_table_init enc0)) with 0 in *. lia.
  - intros k p k' p' off off' Hp Hp' Hne Hoff Hoff'.
    pose proof (Hdisj k p k' p' off off' Hp Hp' Hne Hoff Hoff'). lia.
Qed.

(** Everything the three steps of the build give for a buffer that holds two
    different bytes. *)
Lemma build_spec (data : list Z) (enc0 : EncodedTable.t) :
  Forall is_byte data -> Z.of_nat (length data) < UINT32_MOD ->
  (exists a b, a ∈ data /\ b ∈ data /\ a <> b) ->
  Z.of_nat (length (EncodedTable.m_packedData enc0)) = MAX_ENCODING_TABLE_BYTES ->
  exists t0 t enc T,
    freq_tree_accumulate freq_tree_init data = Some t0 /\
    accumulated t0 /\ (forall i, cnt t0 i = occ i data) /\
    generate_huffman t0 = Some t /\ tree_sizes t /\
    repr t (m_top t) T /\ (exists Tl Tr, T = Node Tl Tr) /\
    NoDup (leaves T) /\ (forall k, k ∈ leaves T <-> k ∈ data) /\
    create_encodings enc0 t = Some (code_bits T 0, enc) /\ table_sizes enc /\
    EncodedTable.m_currentOffset enc = code_bits T 0 /\
    (forall k p, path T p k ->
       exists off,
         aget (EncodedTable.m_offset enc) k = Some off /\
         aget (EncodedTable.m_bitcount enc) k = Some (Z.of_nat (length p)) /\
         0 <= off /\ off + Z.of_nat (length p) <= 65792 /\
         (all_zero (EncodedTable.m_packedData enc0) ->
          bits_from (EncodedTable.m_packedData enc) off (length p) = p)) /\
    (forall k, 0 <= k < TOKEN_SIZE -> k ∉ leaves T ->
       aget (EncodedTable.m_bitcount enc) k = Some 0).
Proof.
  intros Hdata Hlen (a & b & Ha & Hb & Hab) Hplen.
  destruct (freq_tree_accumulate_spec data Hdata Hlen) as (t0 & Hacc & Haccd & Hcnt).
  destruct (generate_huffman_tree t0 Haccd)
    as (t & T & Hgen & Hts & Hrepr & Hnd & Hrange & Htwo).
  assert (Hbyte : forall k, k ∈ data -> 0 <= k < TOKEN_SIZE).
  { intros k Hk. exact (proj1 (list.Forall_forall _ _) Hdata k Hk). }
  destruct Htwo as (Hnode & Hleaves).
  { exists a, b. split; [auto|]. split; [auto|]. split; [exact Hab|].
    rewrite !Hcnt. split; apply occ_pos; assumption. }
  destruct (create_encodings_spec t T enc0 Hts Hrepr Hnd Hrange Hplen)
    as (enc & Hce & Hsz & Hcur & Hpaths & Hzero).
  exists t0, t, enc, T.
  repeat (split; [assumption|]). split.
  { intros k. rewrite Hleaves, Hcnt, occ_pos. split; [tauto|].
    intros Hk. split; [apply Hbyte; exact Hk | exact Hk]. }
  repeat (split; [assumption|]). exact Hzero.
Qed.

Lemma symbols_nodup (data : list Z) : NoDup (symbols data).
Proof. unfold symbols. apply NoDup_filter, NoDup_seqZ. Qed.

Lemma leaves_symbols (T : tree) (data : list Z) :
  Forall is_byte data -> NoDup (leaves T) -> (forall k, k ∈ leaves T <-> k ∈ data) ->
  leaves T ≡ₚ symbols data.
Proof.
  intros Hb Hnd H. apply NoDup_Permutation; [exact Hnd | apply symbols_nodup|].
  intros k. rewrite H. symmetry. apply elem_of_symbols. exact Hb.
Qed.

Lemma code_length_path (enc : EncodedTable.t) (k : Z) (n : nat) :
  aget (EncodedTable.m_bitcount enc) k = Some (Z.of_nat n) ->
  code_length enc k = Z.of_nat n.
Proof. intros H. unfold code_length. rewrite H. reflexivity. Qed.

Lemma path_complete (T : tree) :
  forall bits, Forall is_bit bits -> (height T <= length bits)%nat ->
  exists p k, path T p k /\ p `prefix_of` bits.
Proof.
  induction T as [k | l IHl r IHr]; intros bits Hbits Hlen.
  - exists [], k. split; [constructor | apply prefix_nil].
  - destruct bits as [|b rest]; [simpl in Hlen; lia|].
    apply Forall_cons_1 in Hbits as [Hb Hrest]. simpl in Hlen.
    destruct Hb as [-> | ->].
    + destruct (IHl rest Hrest ltac:(lia)) as (p & k & Hp & Hpre).
      exists (0 :: p), k. split; [constructor; exact Hp | apply prefix_cons; exact Hpre].
    + destruct (IHr rest Hrest ltac:(lia)) as (p & k & Hp & Hpre).
      exists (1 :: p), k. split; [constructor; exact Hp | apply prefix_cons; exact Hpre].
Qed.

Lemma dump_bits_spec (enc : EncodedTable.t) (n : nat) (a : Z) :
  0 <= a ->
  a + Z.of_nat n <= 8 * Z.of_nat (length (EncodedTable.m_packedData enc)) ->
  a + Z.of_nat n < UINT32_MOD ->
  dump_bits n enc a (a + Z.of_nat n) =
  Some (bits_from (EncodedTable.m_packedData enc) a n).
Proof.
  revert a. induction n as [|n IH]; intros a Ha Hb Hmax.
  - simpl. rewrite Z.add_0_r, Z.eqb_refl. reflexivity.
  - cbn [dump_bits bits_from].
    destruct (Z.eqb_spec a (a + Z.of_nat (S n))) as [E|_]; [lia|].
    rewrite read_encoded_bit_spec by lia. cbn [bind].
    rewrite Z.mod_small by lia.
    replace (a + Z.of_nat (S n)) with (a + 1 + Z.of_nat n) by lia.
    rewrite IH by lia. reflexivity.
Qed.

Lemma dump_tokens_spec (enc : EncodedTable.t) (n : nat) :
  forall i, table_sizes enc -> 0 <= i -> i + Z.of_nat n <= TOKEN_SIZE ->
  (forall k, i <= k < i + Z.of_nat n -> code_length enc k <> 0 -> has_code enc k) ->
  dump_tokens enc n i =
  Some (map (fun k => (k, code_of enc k))
          (filter (fun k => code_length enc k <> 0) (seqZ i (Z.of_nat n)))).
Proof.
  induction n as [|n IH]; intros i Hsz Hi Hn Hcode; [reflexivity|].
  rewrite seqZ_cons by lia.
  replace (Z.pred (Z.of_nat (S n))) with (Z.of_nat n) by lia.
  replace (Z.succ i) with (i + 1) by lia.
  cbn [dump_tokens].
  pose proof (table_capacity enc Hsz) as Hc.
  destruct Hsz as (Sp & So & Sb).
  destruct (aget_is_Some (EncodedTable.m_bitcount enc) i) as [len Hlen]; [lia|].
  rewrite Hlen. cbn [bind].
  assert (Hcl : code_length enc i = len) by (unfold code_length; rewrite Hlen; reflexivity).
  specialize (IH (i + 1) (conj Sp (conj So Sb)) ltac:(lia) ltac:(lia)).
  rewrite IH by (intros k Hk; apply Hcode; lia).
  destruct (Z.eqb_spec len 0) as [E|E].
  - rewrite filter_cons_False by (rewrite Hcl; lia). reflexivity.
  - rewrite filter_cons_True by (rewrite Hcl; exact E).
    destruct (Hcode i ltac:(lia) ltac:(lia)) as (off & len' & Hoff & Hlen' & Ho & Hl & Hcap).
    assert (len' = len) by congruence. subst len'.
    assert (Hcode_i : code_of enc i =
              bits_from (EncodedTable.m_packedData enc) off (Z.to_nat len))
      by (unfold code_of; rewrite Hoff, Hlen; reflexivity).
    rewrite Hoff. cbn [bind map]. rewrite Hcode_i.
    rewrite (Z.mod_small off) by (consts; lia).
    rewrite (Z.mod_small (off + len)) by (consts; lia).
    replace ((off + len - off) mod UINT32_MOD) with len
      by (rewrite Z.mod_small; consts; lia).
    replace (off + len) with (off + Z.of_nat (Z.to_nat len)) at 1 by lia.
    rewrite dump_bits_spec by (consts; lia). reflexivity.
Qed.

Ltac in_list := repeat first [apply list_elem_of_here | apply list_elem_of_further].

Lemma code_of_bits (enc : EncodedTable.t) (k off : Z) (p : list Z) :
  aget (EncodedTable.m_offset enc) k = Some off ->
  aget (EncodedTable.m_bitcount enc) k = Some (Z.of_nat (length p)) ->
  bits_from (EncodedTable.m_packedData enc) off (length p) = p ->
  code_of enc k = p.
Proof.
  intros Hoff Hlen Hbits. unfold code_of. rewrite Hoff, Hlen. simpl.
  rewrite Nat2Z.id. exact Hbits.
Qed.

Lemma code_length_outside (enc : EncodedTable.t) (k : Z) :
  table_sizes enc -> ~ (0 <= k < TOKEN_SIZE) -> code_length enc k = 0.
Proof.
  intros (_ & _ & Sb) Hk. unfold code_length, aget.
  assert (E : in_bounds (EncodedTable.m_bitcount enc) k = false)
    by (apply in_bounds_false; lia).
  rewrite E. reflexivity.
Qed.









(** * Writing over a buffer that is not zero *)

Lemma stream_write_bits_or (bits : list Z) (s : Stream.t) :
  stream_ok s -> Forall is_bit bits ->
  0 <= Stream.m_offset s ->
  Stream.m_offset s + Z.of_nat (length bits) <= 65536 ->
  exists s',
    stream_write_bits s bits = Some s' /\
    stream_ok s' /\
    Stream.m_offset s' = Stream.m_offset s + Z.of_nat (length bits) /\
    bits_from (Stream.m_buffer s') (Stream.m_offset s) (length bits) =
      zip_with Z.lor (bits_from (Stream.m_buffer s) (Stream.m_offset s) (length bits)) bits /\
    (forall j, 0 <= j ->
       j < Stream.m_offset s \/ Stream.m_offset s + Z.of_nat (length bits) <= j ->
       bit_at (Stream.m_buffer s') j = bit_at (Stream.m_buffer s) j).
Proof.
  revert s. induction bits as [|b bits IH]; intros s Hok Hbits Hoff Hcap.
  - exists s. simpl. repeat split; auto; lia.
  - apply Forall_cons_1 in Hbits as [Hb Hbits]. simpl length in *.
    destruct (stream_write_bit_spec s b Hok Hb ltac:(lia)) as
      (s1 & Hw & Hok1 & Hoff1 & Hbit1 & Hframe1).
    destruct (IH s1 Hok1 Hbits) as (s' & Hws & Hok' & Hoff' & Hbits' & Hframe');
      [lia | lia |].
    exists s'. cbn [stream_write_bits]. rewrite Hw. cbn [bind].
    split; [exact Hws|]. split; [exact Hok'|]. split; [lia|]. split.
    + cbn [bits_from zip_with]. f_equal.
      * rewrite Hframe' by lia. exact Hbit1.
      * rewrite <- Hoff1, Hbits'. f_equal.
        apply bits_from_ext. intros j Hj. apply Hframe1; lia.
    + intros j Hj0 Hj. rewrite Hframe' by lia. apply Hframe1; lia.
Qed.

Lemma stream_write_bit_outside (s : Stream.t) (v : Z) :
  stream_ok s -> 65536 <= Stream.m_offset s -> stream_write_bit s v = None.
Proof.
  intros Hok Hoff. pose proof (stream_capacity s Hok) as Hcap.
  unfold stream_write_bit, aget. cbv zeta.
  assert (E : in_bounds (Stream.m_buffer s) (Stream.m_offset s / 8) = false).
  { apply in_bounds_false. intros [_ H].
    assert (8192 <= Stream.m_offset s / 8) by (apply Z.div_le_lower_bound; lia). lia. }
  rewrite E. reflexivity.
Qed.

Lemma stream_write_bits_overflow (bits : list Z) (s : Stream.t) :
  stream_ok s -> Forall is_bit bits ->
  0 <= Stream.m_offset s <= 65536 ->
  65536 < Stream.m_offset s + Z.of_nat (length bits) ->
  stream_write_bits s bits = None.
Proof.
  revert s. induction bits as [|b bits IH]; intros s Hok Hbits Hoff Hcap.
  - simpl in Hcap. lia.
  - apply Forall_cons_1 in Hbits as [Hb Hbits]. simpl length in *.
    cbn [stream_write_bits].
    destruct (Z.eq_dec (Stream.m_offset s) 65536) as [E|E].
    + rewrite stream_write_bit_outside by (auto; lia). reflexivity.
    + destruct (stream_write_bit_spec s b Hok Hb ltac:(lia)) as
        (s1 & Hw & Hok1 & Hoff1 & _).
      rewrite Hw. cbn [bind]. apply IH; auto; lia.
Qed.

Lemma sum_below_pick (f : Z -> Z) (c : Z) (n : nat) :
  0 <= c < Z.of_nat n ->
  sum_below (fun k => f k * (if c =? k then 1 else 0)) n = f c.
Proof.
  intros Hc.
  rewrite (sum_below_ext _ (upd (fun _ => 0) c (f c))).
  - rewrite sum_below_upd by exact Hc. rewrite sum_below_zero by reflexivity. lia.
  - intros k _. unfold upd. rewrite (Z.eqb_sym k c).
    destruct (Z.eqb_spec c k) as [->|_]; lia.
Qed.

Lemma encoded_bits_sum (enc : EncodedTable.t) (data : list Z) (n : nat) :
  Forall (fun c => 0 <= c < Z.of_nat n) data ->
  encoded_bits enc data = sum_below (fun k => code_length enc k * occ k data) n.
Proof.
  induction 1 as [|c rest Hc _ IH].
  - cbn [encoded_bits occ]. rewrite sum_below_zero; [reflexivity | intros; lia].
  - cbn [encoded_bits occ].
    rewrite (sum_below_ext _ (fun k => code_length enc k * (if c =? k then 1 else 0)
                                       + code_length enc k * occ k rest))
      by (intros k _; cbv beta; apply Z.mul_add_distr_l).
    rewrite IH.
    rewrite (sum_below_add (fun k => code_length enc k * (if c =? k then 1 else 0))
               (fun k => code_length enc k * occ k rest)).
    rewrite sum_below_pick by exact Hc. reflexivity.
Qed.

(** The bits written for a buffer are the code lengths weighted by the
    frequencies. *)
Lemma encoded_bits_weighted (t0 : FreqTree) (enc : EncodedTable.t) (data : list Z) :
  Forall is_byte data -> (forall i, cnt t0 i = occ i data) ->
  encoded_bits enc data = weighted_code_length t0 enc.
Proof.
  intros Hb Hocc. unfold weighted_code_length.
  rewrite (sum_below_ext _ (fun k => code_length enc k * occ k data))
    by (intros k _; cbv beta; rewrite Hocc; reflexivity).
  apply encoded_bits_sum. exact Hb.
Qed.

Lemma build_has_code (data : list Z) (enc0 enc : EncodedTable.t) (T : tree) :
  (forall k, k ∈ leaves T <-> k ∈ data) ->
  (forall k p, path T p k ->
     exists off,
       aget (EncodedTable.m_offset enc) k = Some off /\
       aget (EncodedTable.m_bitcount enc) k = Some (Z.of_nat (length p)) /\
       0 <= off /\ off + Z.of_nat (length p) <= 65792 /\
       (all_zero (EncodedTable.m_packedData enc0) ->
        bits_from (EncodedTable.m_packedData enc) off (length p) = p)) ->
  Forall (has_code enc) data.
Proof.
  intros Hleaves Hpaths. apply list.Forall_forall. intros k Hk.
  apply Hleaves in Hk. destruct (leaves_path T k Hk) as (p & Hp).
  destruct (Hpaths k p Hp) as (off & Hoff & Hbc & Ho & Hcap & _).
  exists off, (Z.of_nat (length p)). repeat split; auto; lia.
Qed.





(** X12.  [stream_write_bit] only sets bits: after writing into a buffer
    that is not zero, reading back gives each old bit or-ed with the bit
    written over it, and the bits behind the last one written are as before. *)
Theorem stream_write_then_read_is_or (s : Stream.t) (bits : list Z) :
  stream_ok s -> Stream.m_offset s = 0 -> Forall is_bit bits ->
  Z.of_nat (length bits) <= 8 * STREAM_BYTES ->
  exists s1 s2,
    stream_write_bits s bits = Some s1 /\
    stream_read_bits (length bits) (stream_reset s1) =
      Some (zip_with Z.lor (bits_from (Stream.m_buffer s) 0 (length bits)) bits, s2) /\
    forall j, Z.of_nat (length bits) <= j ->
      bit_at (Stream.m_buffer s1) j = bit_at (Stream.m_buffer s) j.
Proof.
  intros Hok Hoff Hbits Hlen. unfold STREAM_BYTES in Hlen.
  destruct (stream_write_bits_or bits s Hok Hbits) as (s1 & Hw & Hok1 & _ & Hb & Hframe);
    [lia | lia |].
  exists s1. eexists. split; [exact Hw|]. split.
  - rewrite stream_read_bits_spec; [| exact Hok1 | simpl; lia | simpl; lia].
    simpl. rewrite Hoff in Hb. rewrite Hb. reflexivity.
  - intros j Hj. apply Hframe; lia.
Qed.

Lemma stream_write_then_read_is_or_witness :
  exists s1 s2,
    stream_write_bits (Stream.mk (160 :: replicate (Z.to_nat (STREAM_BYTES - 1)) 0) 0)
      [0; 1; 1; 0] = Some s1 /\
    stream_read_bits 4 (stream_reset s1) =
      Some (zip_with Z.lor
              (bits_from (160 :: replicate (Z.to_nat (STREAM_BYTES - 1)) 0) 0 4)
              [0; 1; 1; 0], s2) /\
    forall j, 4 <= j ->
      bit_at (Stream.m_buffer s1) j
      = bit_at (160 :: replicate (Z.to_nat (STREAM_BYTES - 1)) 0) j.
Proof.
  apply (stream_write_then_read_is_or
           (Stream.mk (160 :: replicate (Z.to_nat (STREAM_BYTES - 1)) 0) 0) [0; 1; 1; 0]).
  - reflexivity.
  - reflexivity.
  - repeat constructor; unfold is_bit; lia.
  - vm_compute. discriminate.
Defined.

(** X13.  [set_encoded_bit] and [read_encoded_bit] on the packed table: a
    bit set at an offset inside the table reads back as the old bit or-ed
    with the value, every other bit reads as before, and the offset and
    length arrays are untouched; at an offset behind the table both functions
    access memory outside [m_packedData]. *)
Theorem encoded_bit_set_then_read (enc : EncodedTable.t) (off v : Z) :
  table_sizes enc -> is_bit v -> 0 <= off ->
  (off < 8 * MAX_ENCODING_TABLE_BYTES ->
   exists old enc',
     read_encoded_bit enc off = Some old /\
     set_encoded_bit enc off v = Some enc' /\
     read_encoded_bit enc' off = Some (Z.lor old v) /\
     (forall j, 0 <= j < 8 * MAX_ENCODING_TABLE_BYTES -> j <> off ->
        read_encoded_bit enc' j = read_encoded_bit enc j) /\
     EncodedTable.m_offset enc' = EncodedTable.m_offset enc /\
     EncodedTable.m_bitcount enc' = EncodedTable.m_bitcount enc /\
     EncodedTable.m_currentOffset enc' = EncodedTable.m_currentOffset enc) /\
  (8 * MAX_ENCODING_TABLE_BYTES <= off ->
   read_encoded_bit enc off = None /\ set_encoded_bit enc off v = None).
Proof.
  intros Hsz Hv Hoff. pose proof (table_capacity enc Hsz) as Hcap.
  change (8 * MAX_ENCODING_TABLE_BYTES) with 65792. split.
  - intros Hin.
    destruct (set_encoded_bit_spec enc off v Hv ltac:(lia))
      as (data' & Hset & Hlen & Hbit & Hframe).
    exists (bit_at (EncodedTable.m_packedData enc) off). eexists.
    split; [apply read_encoded_bit_spec; lia|].
    split; [exact Hset|].
    split; [rewrite read_encoded_bit_spec by (simpl; lia); simpl; rewrite Hbit; reflexivity|].
    split; [|auto].
    intros j Hj Hne. rewrite !read_encoded_bit_spec by (simpl; lia). simpl.
    rewrite Hframe by lia. reflexivity.
  - intros Hout.
    assert (E : in_bounds (EncodedTable.m_packedData enc) (off / 8) = false).
    { apply in_bounds_false. intros [_ H].
      assert (8224 <= off / 8) by (apply Z.div_le_lower_bound; lia). lia. }
    unfold read_encoded_bit, set_encoded_bit, aget. cbv zeta. rewrite E. auto.
Qed.

Lemma encoded_bit_set_then_read_witness :
  (5 < 8 * MAX_ENCODING_TABLE_BYTES ->
   exists old enc',
     read_encoded_bit zeroed_table 5 = Some old /\
     set_encoded_bit zeroed_table 5 1 = Some enc' /\
     read_encoded_bit enc' 5 = Some (Z.lor old 1) /\
     (forall j, 0 <= j < 8 * MAX_ENCODING_TABLE_BYTES -> j <> 5 ->
        read_encoded_bit enc' j = read_encoded_bit zeroed_table j) /\
     EncodedTable.m_offset enc' = EncodedTable.m_offset zeroed_table /\
     EncodedTable.m_bitcount enc' = EncodedTable.m_bitcount zeroed_table /\
     EncodedTable.m_currentOffset enc' = EncodedTable.m_currentOffset zeroed_table) /\
  (8 * MAX_ENCODING_TABLE_BYTES <= 5 ->
   read_encoded_bit zeroed_table 5 = None /\ set_encoded_bit zeroed_table 5 1 = None).
Proof.
  apply (encoded_bit_set_then_read zeroed_table 5 1).
  - repeat split.
  - right. reflexivity.
  - lia.
Defined.

(** * What the decoder can print *)

Lemma stream_read_bit_inv (s s1 : Stream.t) (bit : Z) :
  stream_ok s -> stream_read_bit s = Some (bit, s1) ->
  0 <= Stream.m_offset s < 65536 /\
  bit = bit_at (Stream.m_buffer s) (Stream.m_offset s) /\
  s1 = Stream.mk (Stream.m_buffer s) (Stream.m_offset s + 1).
Proof.
  intros Hok H. pose proof (stream_capacity s Hok) as Hcap.
  assert (Hoff : 0 <= Stream.m_offset s < 65536).
  { unfold stream_read_bit in H. cbv zeta in H.
    apply bind_Some in H as (byte & Hbyte & _). apply aget_bounds in Hbyte.
    pose proof (Z.div_mod (Stream.m_offset s) 8 ltac:(lia)).
    pose proof (Z.mod_pos_bound (Stream.m_offset s) 8 ltac:(lia)). lia. }
  rewrite (stream_read_bit_spec s Hok Hoff) in H. injection H as <- <-. auto.
Qed.

(** One step of the decoder from an inner node: the bit read picks the left
    or the right subtree, and the node reached is its root. *)
Lemma decode_child_step (t : FreqTree) (cur bit next : Z) (Tl Tr : tree)
    (s s1 : Stream.t) :
  tree_sizes t -> repr t cur (Node Tl Tr) -> stream_ok s ->
  stream_read_bit s = Some (bit, s1) -> decode_child t cur bit = Some next ->
  exists Tn,
    repr t next Tn /\ is_bit bit /\ (bit = 0 /\ Tn = Tl \/ bit = 1 /\ Tn = Tr) /\
    0 <= Stream.m_offset s < 65536 /\
    bit_at (Stream.m_buffer s) (Stream.m_offset s) = bit /\
    s1 = Stream.mk (Stream.m_buffer s) (Stream.m_offset s + 1).
Proof.
  intros (_ & Sl & _) Hrepr Hok Hread Hchild.
  destruct (stream_read_bit_inv s s1 bit Hok Hread) as (Hoff & Hbit & Hs1).
  pose proof (bit_at_is_bit (Stream.m_buffer s) (Stream.m_offset s)) as Hb.
  rewrite <- Hbit in Hb.
  inversion Hrepr as [| ? li ri ? ? Hl Hne Hr Hlb Hrb Hrl Hrr]; subst.
  pose proof (repr_bounds _ _ _ Hrepr) as Hcur. rewrite Sl in Hcur.
  unfold decode_child in Hchild.
  destruct Hb as [E | E]; rewrite E in Hchild; simpl in Hchild.
  - rewrite Hl in Hchild. cbn [bind] in Hchild. injection Hchild as <-.
    rewrite Z.mod_small by (consts; lia).
    exists Tl. rewrite E. repeat split; auto; [left; reflexivity | lia | lia].
  - rewrite Hr in Hchild. cbn [bind] in Hchild. injection Hchild as <-.
    rewrite Z.mod_small by (consts; lia).
    exists Tr. rewrite E. repeat split; auto; [right; reflexivity | lia | lia].
Qed.

Lemma repr_inner (t : FreqTree) (i l : Z) (T : tree) :
  repr t i T -> aget (m_left t) i = Some l -> l <> INVALID_TOKEN ->
  exists Tl Tr, T = Node Tl Tr.
Proof.
  intros H Hl Hne. inversion H; subst; [congruence | eauto].
Qed.

Lemma repr_is_leaf (t : FreqTree) (i : Z) (T : tree) :
  repr t i T -> aget (m_left t) i = Some INVALID_TOKEN -> T = Leaf i.
Proof.
  intros H Hl. inversion H; subst; [reflexivity | congruence].
Qed.

(** Every run of the decoder follows paths of the tree: the first token is
    reached from the node the run starts at, every later one from the top,
    and the bits read are these paths one after the other. *)
Lemma decodes_sound (t : FreqTree) (T : tree) :
  tree_sizes t -> repr t (m_top t) T -> (exists Tl Tr, T = Node Tl Tr) ->
  forall s cur out s', decodes t s cur out s' ->
  forall Tl Tr, repr t cur (Node Tl Tr) -> stream_ok s ->
  exists k rest p ps,
    out = k :: rest /\ path (Node Tl Tr) p k /\ Forall2 (path T) ps rest /\
    Stream.m_buffer s' = Stream.m_buffer s /\
    Stream.m_offset s' = Stream.m_offset s + Z.of_nat (length (p ++ concat ps)) /\
    bits_from (Stream.m_buffer s) (Stream.m_offset s) (length (p ++ concat ps))
      = p ++ concat ps.
Proof.
  intros Hts Htop (Tl0 & Tr0 & HT).
  assert (Htopmod : m_top t mod UINT32_MOD = m_top t).
  { pose proof (repr_bounds _ _ _ Htop) as Hb. destruct Hts as (_ & Sl & _).
    rewrite Sl in Hb. apply Z.mod_small. consts. lia. }
  induction 1 as [s s1 s' cur bit next l out Hread Hchild Hl Hne Hrec IH
                 | s s1 cur bit next Hread Hchild Hleaf Hzero
                 | s s1 s' cur bit next out Hread Hchild Hleaf Hnz Hrec IH];
    intros Tl Tr Hcur Hok.
  - destruct (decode_child_step t cur bit next Tl Tr s s1 Hts Hcur Hok Hread Hchild)
      as (Tn & Hn & Hbit & Hside & Hoff & Hat & Hs1).
    destruct (repr_inner t next l Tn Hn Hl Hne) as (Ta & Tb & ->).
    assert (Hok1 : stream_ok s1) by (subst s1; exact Hok).
    destruct (IH Ta Tb Hn Hok1) as (k & rest & p & ps & -> & Hp & Hps & Hbuf & Hoff' & Hbits).
    subst s1. cbn [Stream.m_buffer Stream.m_offset] in *.
    exists k, rest, (bit :: p), ps.
    split; [reflexivity|]. split.
    { destruct Hside as [[-> <-] | [-> <-]]; constructor; exact Hp. }
    split; [exact Hps|]. split; [exact Hbuf|].
    cbn [app length]. split; [lia|].
    cbn [bits_from]. rewrite Hat, Hbits. reflexivity.
  - destruct (decode_child_step t cur bit next Tl Tr s s1 Hts Hcur Hok Hread Hchild)
      as (Tn & Hn & Hbit & Hside & Hoff & Hat & Hs1).
    pose proof (repr_is_leaf t next Tn Hn Hleaf) as ->.
    subst s1. cbn [Stream.m_buffer Stream.m_offset].
    exists 0, [], [bit], [].
    split; [reflexivity|]. split.
    { subst next. destruct Hside as [[-> <-] | [-> <-]]; repeat constructor. }
    split; [constructor|]. split; [reflexivity|].
    cbn [app concat length]. split; [lia|].
    cbn [bits_from]. rewrite Hat. reflexivity.
  - destruct (decode_child_step t cur bit next Tl Tr s s1 Hts Hcur Hok Hread Hchild)
      as (Tn & Hn & Hbit & Hside & Hoff & Hat & Hs1).
    pose proof (repr_is_leaf t next Tn Hn Hleaf) as ->.
    assert (Hok1 : stream_ok s1) by (subst s1; exact Hok).
    rewrite Htopmod in IH. rewrite HT in Htop.
    destruct (IH Tl0 Tr0 Htop Hok1) as (k & rest & p & ps & -> & Hp & Hps & Hbuf & Hoff' & Hbits).
    subst s1. cbn [Stream.m_buffer Stream.m_offset] in *.
    exists next, (k :: rest), [bit], (p :: ps).
    split; [reflexivity|]. split.
    { destruct Hside as [[-> <-] | [-> <-]]; repeat constructor. }
    split; [constructor; [rewrite HT; exact Hp | exact Hps]|].
    split; [exact Hbuf|].
    cbn [app concat length]. split; [lia|].
    cbn [bits_from]. rewrite Hat, Hbits. reflexivity.
Qed.

Lemma encoded_concat (enc : EncodedTable.t) (T : tree) (ps : list (list Z))
    (out : list Z) :
  NoDup (leaves T) -> Forall2 (path T) ps out ->
  (forall k, k ∈ leaves T -> path T (code_of enc k) k) ->
  encoded enc out = concat ps.
Proof.
  intros Hnd H Hcode. induction H as [|p k ps out Hp _ IH]; [reflexivity|].
  cbn [encoded concat]. rewrite IH. f_equal.
  eapply path_unique; [exact Hnd | apply Hcode; eapply path_leaves; exact Hp | exact Hp].
Qed.

Lemma paths_in_leaves (T : tree) (ps : list (list Z)) (out : list Z) :
  Forall2 (path T) ps out -> Forall (fun k => k ∈ leaves T) out.
Proof.
  induction 1 as [|p k ps out Hp _ IH]; constructor; [|exact IH].
  eapply path_leaves. exact Hp.
Qed.

(** A run of [stream_decode] from the top of a tree with an inner root. *)
Lemma stream_decode_paths (t : FreqTree) (T : tree) (s s' : Stream.t) (out : list Z) :
  tree_sizes t -> repr t (m_top t) T -> (exists Tl Tr, T = Node Tl Tr) ->
  stream_ok s -> stream_decode s t = Some (out, s') ->
  exists ps,
    Forall2 (path T) ps out /\
    Stream.m_buffer s' = Stream.m_buffer s /\
    Stream.m_offset s' = Stream.m_offset s + Z.of_nat (length (concat ps)) /\
    bits_from (Stream.m_buffer s) (Stream.m_offset s) (length (concat ps)) = concat ps.
Proof.
  intros Hts Htop Hnode Hok Hdec.
  unfold stream_decode in Hdec. apply decode_loop_sound in Hdec.
  assert (Htopmod : m_top t mod UINT32_MOD = m_top t).
  { pose proof (repr_bounds _ _ _ Htop) as Hb. destruct Hts as (_ & Sl & _).
    rewrite Sl in Hb. apply Z.mod_small. consts. lia. }
  rewrite Htopmod in Hdec. destruct Hnode as (Tl & Tr & HT).
  pose proof Htop as Htop'. rewrite HT in Htop'.
  destruct (decodes_sound t T Hts Htop (ex_intro _ Tl (ex_intro _ Tr HT))
              s (m_top t) out s' Hdec Tl Tr Htop' Hok)
    as (k & rest & p & ps & -> & Hp & Hps & Hbuf & Hoff & Hbits).
  exists (p :: ps). split; [constructor; [rewrite HT; exact Hp | exact Hps]|].
  auto.
Qed.





(** * Fewer than two symbols *)

Lemma accumulate_loop_links (data : list Z) :
  forall t t', accumulate_loop t data = Some t' ->
  m_left t' = m_left t /\ m_right t' = m_right t /\ m_top t' = m_top t.
Proof.
  induction data as [|c rest IH]; intros t t' H.
  - injection H as <-. auto.
  - cbn [accumulate_loop] in H.
    apply bind_Some in H as (n & _ & H). apply bind_Some in H as (c' & _ & H).
    exact (IH _ _ H).
Qed.

Lemma nodup_all_equal (l : list Z) (b : Z) :
  NoDup l -> (forall x, x ∈ l -> x = b) -> (length l <= 1)%nat.
Proof.
  intros Hnd Hall. destruct l as [|x [|y l]]; simpl; try lia.
  exfalso. assert (x = b) by (apply Hall; in_list). assert (y = b) by (apply Hall; in_list).
  subst. apply NoDup_cons in Hnd as [Hnot _]. apply Hnot. in_list.
Qed.

Lemma encode_loop_no_bits (enc : EncodedTable.t) (data : list Z) (s : Stream.t) :
  (forall k, k ∈ data ->
     exists off, aget (EncodedTable.m_offset enc) k = Some off /\
                 aget (EncodedTable.m_bitcount enc) k = Some 0) ->
  encode_loop s data enc = Some s.
Proof.
  induction data as [|k rest IH]; intros H; [reflexivity|].
  destruct (H k ltac:(in_list)) as (off & Hoff & Hbc).
  cbn [encode_loop]. rewrite Hoff, Hbc. cbn [bind].
  rewrite Z.add_0_r, Z.mod_mod by (unfold UINT32_MOD; lia).
  rewrite Z.sub_diag. cbn [encode_bits Z.to_nat Z.modulo]. 
  change (Z.to_nat (0 mod UINT32_MOD)) with O. cbn [encode_bits].
  rewrite Z.eqb_refl. cbn [bind].
  apply IH. intros k' Hk'. apply H. apply list_elem_of_further. exact Hk'.
Qed.



(** * The scan at the end of the count array *)

Lemma smallest_scan_outside (count : list Z) (n : nat) :
  forall i small_val small_ind,
  0 <= i <= Z.of_nat (length count) -> Z.of_nat (length count) < i + Z.of_nat n ->
  smallest_scan count n i small_val small_ind = None.
Proof.
  induction n as [|n IH]; intros i small_val small_ind Hi Hlen; [lia|].
  cbn [smallest_scan].
  destruct (aget count i) as [val|] eqn:Hval; cbn [bind]; [|reflexivity].
  apply aget_bounds in Hval.
  destruct (negb (val =? 0) && (val <? small_val)); apply IH; lia.
Qed.

(** X17.  [get_smallest_huffman] reads [m_count] outside its bounds exactly
    when [scan_size] is larger than the array: the check the source has
    commented out. *)
Theorem get_smallest_huffman_bounds (t : FreqTree) (scan_size : Z) :
  0 <= scan_size ->
  (get_smallest_huffman t scan_size = None <->
   Z.of_nat (length (m_count t)) < scan_size).
Proof.
  intros Hs. unfold get_smallest_huffman. split.
  - intros Hnone.
    destruct (Z_lt_le_dec (Z.of_nat (length (m_count t))) scan_size) as [H|H]; [exact H|].
    destruct (get_smallest_huffman_spec t scan_size ltac:(lia)) as (r & Hr & _).
    unfold get_smallest_huffman in Hr. congruence.
  - intros Hbig. apply smallest_scan_outside; lia.
Qed.

Lemma get_smallest_huffman_bounds_witness :
  get_smallest_huffman freq_tree_init 512 = None <->
  Z.of_nat (length (m_count freq_tree_init)) < 512.
Proof.
  apply (get_smallest_huffman_bounds freq_tree_init 512). lia.
Defined.

(** * The order of the bytes *)

Lemma occ_permutation (k : Z) (d1 d2 : list Z) : d1 ≡ₚ d2 -> occ k d1 = occ k d2.
Proof.
  induction 1 as [| x l l' _ IH | x y l | l l' l'' _ IH1 _ IH2]; simpl; lia.
Qed.

Lemma count_array_eq (l1 l2 : list Z) :
  length l1 = length l2 ->
  (forall i, default 0 (aget l1 i) = default 0 (aget l2 i)) -> l1 = l2.
Proof.
  intros Hlen H. apply list_eq. intros i.
  destruct (decide (i < length l1)%nat) as [Hi|Hi].
  - destruct (lookup_lt_is_Some_2 l1 i Hi) as [v1 H1].
    destruct (lookup_lt_is_Some_2 l2 i ltac:(lia)) as [v2 H2].
    specialize (H (Z.of_nat i)). unfold aget in H.
    assert (E1 : in_bounds l1 (Z.of_nat i) = true) by (apply in_bounds_true; lia).
    assert (E2 : in_bounds l2 (Z.of_nat i) = true) by (apply in_bounds_true; lia).
    rewrite E1, E2, Nat2Z.id, H1, H2 in H. simpl in H. congruence.
  - rewrite !lookup_ge_None_2 by lia. reflexivity.
Qed.

(** X18.  The frequency tree depends on the bytes of the buffer only
    through their numbers of occurrences: two buffers that are permutations
    of each other give the same tree, and so the same codes. *)
Theorem freq_tree_accumulate_permutation (d1 d2 : list Z) :
  Forall is_byte d1 -> Z.of_nat (length d1) < UINT32_MOD -> d1 ≡ₚ d2 ->
  freq_tree_accumulate freq_tree_init d1 = freq_tree_accumulate freq_tree_init d2.
Proof.
  intros Hb1 Hlen1 Hperm.
  assert (Hb2 : Forall is_byte d2) by (rewrite <- Hperm; exact Hb1).
  assert (Hlen2 : Z.of_nat (length d2) < UINT32_MOD)
    by (rewrite <- (Permutation_length Hperm); exact Hlen1).
  destruct (freq_tree_accumulate_spec d1 Hb1 Hlen1) as (t1 & H1 & ((S1 & _) & _) & Ho1).
  destruct (freq_tree_accumulate_spec d2 Hb2 Hlen2) as (t2 & H2 & ((S2 & _) & _) & Ho2).
  rewrite H1, H2. f_equal.
  assert (L1 : m_left t1 = m_left freq_tree_init /\
               m_right t1 = m_right freq_tree_init /\ m_top t1 = m_top freq_tree_init).
  { unfold freq_tree_accumulate in H1.
    destruct (Z.of_nat (length d1) <? UINT32_MOD); [|discriminate].
    exact (accumulate_loop_links d1 _ _ H1). }
  assert (L2 : m_left t2 = m_left freq_tree_init /\
               m_right t2 = m_right freq_tree_init /\ m_top t2 = m_top freq_tree_init).
  { unfold freq_tree_accumulate in H2.
    destruct (Z.of_nat (length d2) <? UINT32_MOD); [|discriminate].
    exact (accumulate_loop_links d2 _ _ H2). }
  destruct L1 as (Ll1 & Lr1 & Lt1). destruct L2 as (Ll2 & Lr2 & Lt2).
  assert (Ec : m_count t1 = m_count t2).
  { apply count_array_eq; [lia|]. intros i. fold (cnt t1 i). fold (cnt t2 i).
    rewrite Ho1, Ho2. apply occ_permutation. exact Hperm. }
  destruct t1, t2. simpl in *. congruence.
Qed.

Lemma freq_tree_accumulate_permutation_witness :
  freq_tree_accumulate freq_tree_init [7; 9; 7] =
  freq_tree_accumulate freq_tree_init [9; 7; 7].
Proof.
  apply (freq_tree_accumulate_permutation [7; 9; 7] [9; 7; 7]).
  - repeat constructor; unfold TOKEN_SIZE; lia.
  - vm_compute. reflexivity.
  - apply perm_swap.
Defined.

(** * The shape of the arrays after the build *)



(** * Trees of weights: merging the two smallest loses nothing *)

Lemma cost_node (l r : tree) (d : Z) :
  cost (Node l r) d = cost l (d + 1) + cost r (d + 1).
Proof. reflexivity. Qed.

Lemma leaves_plug (c : ctx) (u : tree) : leaves (plug c u) ≡ₚ leaves u ++ cleaves c.
Proof.
  induction c as [|c IH r|l c IH]; simpl.
  - rewrite app_nil_r. reflexivity.
  - rewrite IH, app_assoc. reflexivity.
  - rewrite IH. rewrite !app_assoc. apply Permutation_app_tail, Permutation_app_comm.
Qed.

Lemma cost_plug (c : ctx) (u : tree) :
  forall d, cost (plug c u) d = ccost c d + cost u (d + Z.of_nat (hole_depth c)).
Proof.
  induction c as [|c IH r|l c IH]; intros d; cbn [plug ccost hole_depth].
  - rewrite Z.add_0_r. lia.
  - rewrite cost_node, IH. replace (d + 1 + Z.of_nat (hole_depth c))
      with (d + Z.of_nat (S (hole_depth c))) by lia. lia.
  - rewrite cost_node, IH. replace (d + 1 + Z.of_nat (hole_depth c))
      with (d + Z.of_nat (S (hole_depth c))) by lia. lia.
Qed.

Lemma height_plug_pair (c : ctx) (x y : Z) :
  (cmax c <= S (hole_depth c))%nat ->
  height (plug c (Node (Leaf x) (Leaf y))) = S (hole_depth c).
Proof.
  induction c as [|c IH r|l c IH]; cbn [plug height cmax hole_depth]; intros H.
  - reflexivity.
  - rewrite IH by lia. lia.
  - rewrite IH by lia. lia.
Qed.

(** Every tree with an inner root has two sibling leaves at its greatest depth. *)
Lemma deepest_pair (T : tree) :
  (exists l r, T = Node l r) ->
  exists c x y, T = plug c (Node (Leaf x) (Leaf y)) /\
                height T = S (hole_depth c) /\ (cmax c <= S (hole_depth c))%nat.
Proof.
  induction T as [k | l IHl r IHr]; intros (l0 & r0 & E); [discriminate|]. clear E.
  destruct (le_lt_dec (height r) (height l)) as [Hle | Hlt].
  - destruct l as [x | l1 l2].
    + destruct r as [y | r1 r2]; [|simpl in Hle; lia].
      exists Hole, x, y. simpl. auto.
    + destruct IHl as (c & x & y & El & Hh & Hc); [eauto|].
      exists (CL c r), x, y. cbn [plug hole_depth cmax]. rewrite <- El.
      split; [reflexivity|]. cbn [height] in *. split; lia.
  - destruct r as [y | r1 r2]; [simpl in Hlt; lia|].
    destruct IHr as (c & x & y & Er & Hh & Hc); [eauto|].
    exists (CR l c), x, y. cbn [plug hole_depth cmax]. rewrite <- Er.
    split; [reflexivity|]. cbn [height] in *. split; lia.
Qed.

(** Replacing the weight of one leaf of a tree. *)
Lemma tree_subst (T : tree) (x x' : Z) :
  x ∈ leaves T ->
  exists T' (e : nat),
    (e <= height T)%nat /\ height T' = height T /\
    (exists L, leaves T ≡ₚ x :: L /\ leaves T' ≡ₚ x' :: L) /\
    forall d, cost T' d = cost T d + (x' - x) * (d + Z.of_nat e).
Proof.
  induction T as [k | l IHl r IHr]; intros Hx.
  - simpl in Hx. apply list_elem_of_singleton in Hx. subst k.
    exists (Leaf x'), O. split; [simpl; lia|]. split; [reflexivity|].
    split; [exists []; split; reflexivity|].
    intros d. unfold cost. simpl. lia.
  - simpl in Hx. apply elem_of_app in Hx. destruct Hx as [Hx | Hx].
    + destruct (IHl Hx) as (l' & e & He & Hh & (L & HL & HL') & Hcost).
      exists (Node l' r), (S e). cbn [height]. split; [lia|]. split; [lia|].
      split.
      * exists (L ++ leaves r). simpl. rewrite HL, HL'. split; reflexivity.
      * intros d. rewrite !cost_node, Hcost. lia.
    + destruct (IHr Hx) as (r' & e & He & Hh & (L & HL & HL') & Hcost).
      exists (Node l r'), (S e). cbn [height]. split; [lia|]. split; [lia|].
      split.
      * exists (leaves l ++ L). simpl. rewrite HL, HL'.
        split; symmetry; apply Permutation_middle.
      * intros d. rewrite !cost_node, Hcost. lia.
Qed.

(** Replacing the weight of one leaf of a context. *)
Lemma ctx_subst (c : ctx) (x x' : Z) :
  x ∈ cleaves c ->
  exists c' (e : nat),
    (e <= cmax c)%nat /\ hole_depth c' = hole_depth c /\ cmax c' = cmax c /\
    (exists L, cleaves c ≡ₚ x :: L /\ cleaves c' ≡ₚ x' :: L) /\
    forall d, ccost c' d = ccost c d + (x' - x) * (d + Z.of_nat e).
Proof.
  induction c as [|c IH r|l c IH]; intros Hx; cbn [cleaves] in Hx.
  - apply elem_of_nil in Hx. contradiction.
  - apply elem_of_app in Hx. destruct Hx as [Hx | Hx].
    + destruct (IH Hx) as (c' & e & He & Hd & Hm & (L & HL & HL') & Hcost).
      exists (CL c' r), (S e). cbn [cmax hole_depth cleaves ccost].
      split; [lia|]. split; [lia|]. split; [lia|]. split.
      * exists (L ++ leaves r). rewrite HL, HL'. split; reflexivity.
      * intros d. rewrite Hcost. lia.
    + destruct (tree_subst r x x' Hx) as (r' & e & He & Hh & (L & HL & HL') & Hcost).
      exists (CL c r'), (S e). cbn [cmax hole_depth cleaves ccost].
      split; [lia|]. split; [lia|]. split; [lia|]. split.
      * exists (cleaves c ++ L). rewrite HL, HL'.
        split; symmetry; apply Permutation_middle.
      * intros d. rewrite Hcost. lia.
  - apply elem_of_app in Hx. destruct Hx as [Hx | Hx].
    + destruct (tree_subst l x x' Hx) as (l' & e & He & Hh & (L & HL & HL') & Hcost).
      exists (CR l' c), (S e). cbn [cmax hole_depth cleaves ccost].
      split; [lia|]. split; [lia|]. split; [lia|]. split.
      * exists (L ++ cleaves c). rewrite HL, HL'. split; reflexivity.
      * intros d. rewrite Hcost. lia.
    + destruct (IH Hx) as (c' & e & He & Hd & Hm & (L & HL & HL') & Hcost).
      exists (CR l c'), (S e). cbn [cmax hole_depth cleaves ccost].
      split; [lia|]. split; [lia|]. split; [lia|]. split.
      * exists (leaves l ++ L). rewrite HL, HL'.
        split; symmetry; apply Permutation_middle.
      * intros d. rewrite Hcost. lia.
Qed.

Lemma single_leaf (T : tree) (x : Z) : leaves T ≡ₚ [x] -> T = Leaf x.
Proof.
  intros H. destruct T as [k | l r].
  - simpl in H. apply Permutation_singleton_r in H. congruence.
  - apply Permutation_length in H. simpl in H. rewrite length_app in H.
    pose proof (leaves_nonempty l). pose proof (leaves_nonempty r). lia.
Qed.

Lemma two_leaves_node (T : tree) (a b : Z) (rest : list Z) :
  leaves T ≡ₚ a :: b :: rest -> exists l r, T = Node l r.
Proof.
  intros H. destruct T as [k | l r]; [|eauto].
  apply Permutation_length in H. simpl in H. lia.
Qed.

(** The step of Huffman's algorithm: whatever tree carries the weights
    [a :: b :: rest], with [a] and [b] the two smallest, there is a tree for
    [(a + b) :: rest] that costs at least [a + b] less. *)
Lemma merge_two_smallest (T : tree) (a b : Z) (rest : list Z) :
  leaves T ≡ₚ a :: b :: rest ->
  (forall x, x ∈ b :: rest -> a <= x) -> (forall x, x ∈ rest -> b <= x) ->
  exists T', leaves T' ≡ₚ (a + b) :: rest /\ cost T' 0 + a + b <= cost T 0.
Proof.
  intros HT Ha Hb.
  destruct (deepest_pair T (two_leaves_node T a b rest HT)) as (c & x & y & -> & _ & Hmax).
  rewrite leaves_plug in HT. cbn [leaves app] in HT.
  set (D := Z.of_nat (S (hole_depth c))).
  assert (Hcost : cost (plug c (Node (Leaf x) (Leaf y))) 0 = ccost c 0 + (x + y) * D).
  { rewrite cost_plug, cost_node. unfold cost, D. simpl wpl. lia. }
  assert (Hge : forall z, z ∈ x :: y :: cleaves c -> a <= z).
  { intros z Hz. rewrite HT in Hz. apply elem_of_cons in Hz as [-> | Hz]; [lia | auto]. }
  (* the lighter of the two smallest goes into the pair *)
  assert (A : exists c1 y1,
             hole_depth c1 = hole_depth c /\ (cmax c1 <= S (hole_depth c))%nat /\
             y1 :: cleaves c1 ≡ₚ b :: rest /\
             ccost c1 0 + (a + y1) * D <= ccost c 0 + (x + y) * D).
  { destruct (Z.eq_dec a x) as [-> | Hax].
    - exists c, y. split; [reflexivity|]. split; [exact Hmax|].
      split; [exact (Permutation_cons_inv HT) | lia].
    - destruct (Z.eq_dec a y) as [-> | Hay].
      + exists c, x. split; [reflexivity|]. split; [exact Hmax|]. split; [|lia].
        rewrite (perm_swap y x) in HT. exact (Permutation_cons_inv HT).
      + assert (Hin : a ∈ cleaves c).
        { assert (H : a ∈ x :: y :: cleaves c) by (rewrite HT; apply list_elem_of_here).
          apply elem_of_cons in H as [H | H]; [contradiction|].
          apply elem_of_cons in H as [H | H]; [contradiction | exact H]. }
        destruct (ctx_subst c a x Hin) as (c1 & e & He & Hd & Hm & (L & HL & HL') & Hc1).
        exists c1, y. split; [exact Hd|]. split; [lia|]. split.
        * rewrite HL'. rewrite HL in HT.
          assert (E : a :: x :: y :: L ≡ₚ a :: b :: rest)
            by (rewrite <- HT; apply (Permutation_middle [x; y] L a)).
          rewrite (perm_swap x y L). exact (Permutation_cons_inv E).
        * rewrite Hc1. pose proof (Hge x ltac:(apply list_elem_of_here)).
          assert (Z.of_nat e <= D) by (unfold D; lia). nia. }
  destruct A as (c1 & y1 & Hd1 & Hmax1 & HT1 & Hcost1).
  (* and so does the other *)
  assert (Hy1 : b <= y1).
  { assert (H : y1 ∈ b :: rest) by (rewrite <- HT1; apply list_elem_of_here).
    apply elem_of_cons in H as [-> | H]; [lia | auto]. }
  assert (B : exists c2,
             hole_depth c2 = hole_depth c /\ cleaves c2 ≡ₚ rest /\
             ccost c2 0 + (a + b) * D <= ccost c1 0 + (a + y1) * D).
  { destruct (Z.eq_dec b y1) as [<- | Hby].
    - exists c1. split; [exact Hd1|]. split; [exact (Permutation_cons_inv HT1) | lia].
    - assert (Hin : b ∈ cleaves c1).
      { assert (H : b ∈ y1 :: cleaves c1) by (rewrite HT1; apply list_elem_of_here).
        apply elem_of_cons in H as [H | H]; [contradiction | exact H]. }
      destruct (ctx_subst c1 b y1 Hin) as (c2 & e & He & Hd & Hm & (L & HL & HL') & Hc2).
      exists c2. split; [lia|]. split.
      + rewrite HL'. rewrite HL in HT1. rewrite (perm_swap b y1) in HT1.
        exact (Permutation_cons_inv HT1).
      + rewrite Hc2. assert (Z.of_nat e <= D) by (unfold D; lia). nia. }
  destruct B as (c2 & Hd2 & HT2 & Hcost2).
  exists (plug c2 (Leaf (a + b))). split.
  - rewrite leaves_plug. simpl. rewrite HT2. reflexivity.
  - rewrite Hcost, cost_plug, Hd2.
    assert (E : forall d, cost (Leaf (a + b)) d = (a + b) * d) by reflexivity.
    rewrite E. unfold D in *. lia.
Qed.

(** * The loop of [generate_huffman] follows Huffman's algorithm *)

Lemma wpl_shift (w : Z -> Z) (T : tree) :
  forall d, wpl w T (d + 1) = wpl w T d + weight w T.
Proof.
  induction T as [k | l IHl r IHr]; intros d; cbn [wpl weight].
  - lia.
  - rewrite IHl, IHr. lia.
Qed.

Lemma wpl_ext (w w' : Z -> Z) (T : tree) :
  (forall k, k ∈ leaves T -> w k = w' k) -> forall d, wpl w T d = wpl w' T d.
Proof.
  induction T as [k | l IHl r IHr]; intros H d; cbn [wpl].
  - rewrite H; [reflexivity | simpl; apply list_elem_of_here].
  - rewrite IHl, IHr; [reflexivity | |];
      intros k Hk; apply H; simpl; apply elem_of_app; auto.
Qed.

Lemma cost_relabel (w : Z -> Z) (T : tree) : forall d, cost (relabel w T) d = wpl w T d.
Proof.
  unfold cost. induction T as [k | l IHl r IHr]; intros d; cbn [wpl relabel].
  - reflexivity.
  - rewrite IHl, IHr. reflexivity.
Qed.

Lemma leaves_relabel (w : Z -> Z) (T : tree) : leaves (relabel w T) = map w (leaves T).
Proof.
  induction T as [k | l IHl r IHr]; cbn [leaves relabel map]; [reflexivity|].
  rewrite IHl, IHr, map_app. reflexivity.
Qed.

Lemma filter_ext_in {A : Type} (P Q : A -> Prop) `{!forall x, Decision (P x)}
    `{!forall x, Decision (Q x)} (l : list A) :
  (forall x, x ∈ l -> (P x <-> Q x)) -> filter P l = filter Q l.
Proof.
  induction l as [|x l IH]; intros Hext; [reflexivity|].
  rewrite !filter_cons.
  assert (Hx : P x <-> Q x) by (apply Hext, list_elem_of_here).
  rewrite IH by (intros y Hy; apply Hext, list_elem_of_further, Hy).
  destruct (decide (P x)), (decide (Q x)); tauto || reflexivity.
Qed.

Lemma map_ext_elem {A B : Type} (f g : A -> B) (l : list A) :
  (forall x, x ∈ l -> f x = g x) -> map f l = map g l.
Proof.
  induction l as [|x l IH]; intros Hext; [reflexivity|]. cbn [map].
  rewrite (Hext x) by apply list_elem_of_here.
  rewrite IH by (intros y Hy; apply Hext, list_elem_of_further, Hy). reflexivity.
Qed.

(** Taking one element out of a filtered list without repetitions. *)
Lemma filter_take_out (P : Z -> Prop) `{!forall x, Decision (P x)} (l : list Z) (r : Z) :
  NoDup l -> r ∈ l -> P r ->
  filter P l ≡ₚ r :: filter (fun i => P i /\ i <> r) l.
Proof.
  induction l as [|x l IH]; intros Hnd Hr HP; [apply elem_of_nil in Hr; contradiction|].
  apply NoDup_cons in Hnd as [Hx Hnd].
  apply elem_of_cons in Hr as [-> | Hr].
  - rewrite filter_cons_True by exact HP.
    rewrite (filter_cons_False (fun i => P i /\ i <> x)) by tauto.
    rewrite (filter_ext_in P (fun i => P i /\ i <> x) l); [reflexivity|].
    intros y Hy. split; [|tauto].
    intros Hy'. split; [exact Hy'|]. intros ->. contradiction.
  - assert (Hne : x <> r) by (intros ->; contradiction).
    destruct (decide (P x)) as [Hpx | Hpx].
    + rewrite filter_cons_True by exact Hpx.
      rewrite (filter_cons_True (fun i => P i /\ i <> r)) by tauto.
      rewrite (IH Hnd Hr HP). apply perm_swap.
    + rewrite filter_cons_False by exact Hpx.
      rewrite (filter_cons_False (fun i => P i /\ i <> r)) by tauto.
      exact (IH Hnd Hr HP).
Qed.

Lemma live_counts_elem (t : FreqTree) (n x : Z) :
  x ∈ live_counts t n <-> exists i, 0 <= i < n /\ cnt t i <> 0 /\ x = cnt t i.
Proof.
  unfold live_counts. rewrite list_elem_of_In, in_map_iff. split.
  - intros (i & <- & Hi). apply list_elem_of_In, list_elem_of_filter in Hi.
    destruct Hi as [Hnz Hi]. apply elem_of_seqZ in Hi. exists i. split; [lia | auto].
  - intros (i & Hi & Hnz & ->). exists i. split; [reflexivity|].
    apply list_elem_of_In, list_elem_of_filter. split; [exact Hnz|].
    apply elem_of_seqZ. lia.
Qed.

Section MergeCounts.

Variables (t t3 : FreqTree) (n r1 r2 v : Z).
Hypothesis M : merged t n r1 r2 v t3.
Hypothesis Hn : 0 <= n.
Hypothesis Htwo : two_smallest t n r1 r2.
Hypothesis Hv : v <> 0.

Lemma live_counts_before : live_counts t n ≡ₚ cnt t r1 :: cnt t r2 :: other_counts t n r1 r2.
Proof.
  destruct Htwo as (Hr1 & Hr2 & Hne & Hnz1 & Hnz2 & _).
  unfold live_counts, other_counts.
  rewrite (filter_take_out (fun i => cnt t i <> 0) (seqZ 0 n) r1);
    [| apply NoDup_seqZ | apply elem_of_seqZ; lia | exact Hnz1].
  rewrite (filter_take_out (fun i => cnt t i <> 0 /\ i <> r1) (seqZ 0 n) r2);
    [| apply NoDup_seqZ | apply elem_of_seqZ; lia | split; [exact Hnz2 | congruence]].
  reflexivity.
Qed.

Lemma live_counts_after : live_counts t3 (n + 1) ≡ₚ v :: other_counts t n r1 r2.
Proof.
  destruct Htwo as (Hr1 & Hr2 & Hne & Hnz1 & Hnz2 & _).
  pose proof (merged_cnt t t3 n r1 r2 v M) as Hc.
  unfold live_counts, other_counts.
  rewrite seqZ_app by lia. rewrite filter_app, map_app. cbn [Z.add].
  change (seqZ n 1) with [n].
  assert (Hcn : cnt t3 n = v) by (rewrite Hc; unfold upd; rewrite Z.eqb_refl; reflexivity).
  rewrite (filter_cons_True _ n []) by (rewrite Hcn; exact Hv).
  rewrite filter_nil. cbn [map]. rewrite Hcn.
  rewrite (filter_ext_in (fun i => cnt t3 i <> 0)
             (fun i => (cnt t i <> 0 /\ i <> r1) /\ i <> r2) (seqZ 0 n)).
  - rewrite (map_ext_elem (cnt t3) (cnt t)).
    + symmetry. apply Permutation_cons_append.
    + intros i Hi. apply list_elem_of_filter in Hi as [[[_ H1] H2] Hi].
      apply elem_of_seqZ in Hi. rewrite Hc. unfold upd.
      destruct (Z.eqb_spec i n); [lia|]. destruct (Z.eqb_spec i r2); [contradiction|].
      destruct (Z.eqb_spec i r1); [contradiction | reflexivity].
  - intros i Hi. apply elem_of_seqZ in Hi. rewrite Hc. unfold upd.
    destruct (Z.eqb_spec i n); [lia|].
    destruct (Z.eqb_spec i r2); [tauto|]. destruct (Z.eqb_spec i r1); tauto.
Qed.

Lemma other_counts_above :
  (forall x, x ∈ cnt t r2 :: other_counts t n r1 r2 -> cnt t r1 <= x) /\
  (forall x, x ∈ other_counts t n r1 r2 -> cnt t r2 <= x).
Proof.
  destruct Htwo as (Hr1 & Hr2 & Hne & Hnz1 & Hnz2 & Hmin1 & Hmin2).
  assert (Hoth : forall x, x ∈ other_counts t n r1 r2 ->
            exists i, 0 <= i < n /\ i <> r1 /\ i <> r2 /\ cnt t i <> 0 /\ x = cnt t i).
  { intros x Hx. unfold other_counts in Hx. apply list_elem_of_In, in_map_iff in Hx.
    destruct Hx as (i & <- & Hi). apply list_elem_of_In, list_elem_of_filter in Hi.
    destruct Hi as [[[Hnz H1] H2] Hi]. apply elem_of_seqZ in Hi.
    exists i. repeat split; auto; lia. }
  split.
  - intros x Hx. apply elem_of_cons in Hx as [-> | Hx]; [apply Hmin1; auto|].
    destruct (Hoth x Hx) as (i & Hi & _ & _ & Hnz & ->). apply Hmin1; auto.
  - intros x Hx. destruct (Hoth x Hx) as (i & Hi & H1 & _ & Hnz & ->). apply Hmin2; auto.
Qed.

End MergeCounts.

Lemma built_cost_start (w : Z -> Z) (t : FreqTree) (n : Z) :
  built_cost w (fun i => Leaf i) t n = 0.
Proof.
  unfold built_cost. apply sum_below_zero. intros i _. cbn [wpl].
  destruct (cnt t i =? 0); lia.
Qed.

Lemma built_cost_merge (w : Z -> Z) (G : Z -> tree) (t t3 : FreqTree) (n r1 r2 v : Z) :
  merged t n r1 r2 v t3 -> 0 <= r1 < n -> 0 <= r2 < n -> r1 <> r2 ->
  cnt t r1 <> 0 -> cnt t r2 <> 0 -> v <> 0 ->
  built_cost w (fun i => if i =? n then Node (G r1) (G r2) else G i) t3 (n + 1) =
  built_cost w G t n + weight w (G r1) + weight w (G r2).
Proof.
  intros M H1 H2 Hne Hnz1 Hnz2 Hv.
  pose proof (merged_cnt t t3 n r1 r2 v M) as Hc.
  assert (Hnat : Z.to_nat (n + 1) = S (Z.to_nat n)) by lia.
  assert (Hofnat : Z.of_nat (Z.to_nat n) = n) by lia.
  unfold built_cost. rewrite Hnat. cbn [sum_below]. rewrite Hofnat.
  assert (Hcn : cnt t3 n = v) by (rewrite Hc; unfold upd; rewrite Z.eqb_refl; reflexivity).
  rewrite Hcn. destruct (Z.eqb_spec v 0) as [|_]; [contradiction|].
  rewrite Z.eqb_refl. cbn [wpl]. rewrite !(wpl_shift w _ 0).
  set (g := fun i => if cnt t i =? 0 then 0 else wpl w (G i) 0).
  rewrite (sum_below_ext _ (upd (upd g r1 0) r2 0)).
  - rewrite !sum_below_upd by lia. unfold upd, g.
    destruct (Z.eqb_spec r2 r1); [congruence|].
    destruct (Z.eqb_spec (cnt t r1) 0); [contradiction|].
    destruct (Z.eqb_spec (cnt t r2) 0); [contradiction|]. lia.
  - intros i Hi. cbv beta. rewrite Hc. unfold upd, g.
    destruct (Z.eqb_spec i n); [lia|].
    destruct (Z.eqb_spec i r2); [reflexivity|].
    destruct (Z.eqb_spec i r1); reflexivity.
Qed.

Lemma built_cost_one (w : Z -> Z) (G : Z -> tree) (t : FreqTree) (n r : Z) :
  0 <= r < n -> cnt t r <> 0 ->
  (forall j, 0 <= j < n -> j <> r -> cnt t j = 0) ->
  built_cost w G t n = wpl w (G r) 0.
Proof.
  intros Hr Hnz Hz. unfold built_cost.
  set (g := fun i => if cnt t i =? 0 then 0 else wpl w (G i) 0).
  pose proof (sum_below_upd g r 0 (Z.to_nat n) ltac:(lia)) as E.
  rewrite (sum_below_zero (upd g r 0)) in E.
  - assert (g r = wpl w (G r) 0).
    { unfold g. destruct (Z.eqb_spec (cnt t r) 0); [contradiction | reflexivity]. }
    lia.
  - intros i Hi. unfold upd, g. destruct (Z.eqb_spec i r); [reflexivity|].
    rewrite Hz by lia. reflexivity.
Qed.

Lemma live_counts_one (t : FreqTree) (n r : Z) :
  0 <= r < n -> cnt t r <> 0 ->
  (forall j, 0 <= j < n -> j <> r -> cnt t j = 0) ->
  live_counts t n ≡ₚ [cnt t r].
Proof.
  intros Hr Hnz Hz. unfold live_counts.
  rewrite (filter_take_out (fun i => cnt t i <> 0) (seqZ 0 n) r);
    [| apply NoDup_seqZ | apply elem_of_seqZ; lia | exact Hnz].
  rewrite (filter_none (fun i => cnt t i <> 0 /\ i <> r)); [reflexivity|].
  apply Forall_forall. intros i Hi. apply elem_of_seqZ in Hi.
  intros [Hnzi Hne]. apply Hnzi. apply Hz; [lia | exact Hne].
Qed.

(** A merging pass keeps the invariant: this is the step of Huffman's
    algorithm, the two nodes merged being the two smallest. *)
Lemma opt_inv_merge (w : Z -> Z) (W0 : list Z) (t t3 : FreqTree) (n r1 r2 : Z) :
  gen_inv w t n -> opt_inv w W0 t n -> two_smallest t n r1 r2 ->
  merged t n r1 r2 (cnt t r1 + cnt t r2) t3 -> opt_inv w W0 t3 (n + 1).
Proof.
  intros I (G & HG & HW & HOpt) Htwo M.
  pose proof Htwo as (Hr1 & Hr2 & Hne & Hnz1 & Hnz2 & _).
  pose proof (gen_inv_bound _ _ _ I) as Hn511.
  pose proof (gi_n _ _ _ I) as Hn256.
  pose proof (gi_pos _ _ _ I r1 Hr1) as Hp1.
  pose proof (gi_pos _ _ _ I r2 Hr2) as Hp2.
  assert (Hv : cnt t r1 + cnt t r2 <> 0) by lia.
  pose proof (merged_cnt t t3 n r1 r2 _ M) as Hc.
  exists (fun i => if i =? n then Node (G r1) (G r2) else G i).
  split; [|split].
  - intros i Hi. destruct (Z.eqb_spec i n) as [-> | Hin].
    + apply (merged_repr_new t t3 n r1 r2 _ M); [lia | lia | consts; lia |].
      exists (G r1), (G r2). auto.
    + apply (merged_repr_keep t t3 n r1 r2 _ M); [apply HG; lia | lia].
  - intros i Hi Hnz. rewrite Hc in Hnz |- *. unfold upd in *.
    destruct (Z.eqb_spec i n) as [-> | Hin].
    + cbn [weight]. rewrite <- (HW r1), <- (HW r2); auto.
    + destruct (Z.eqb_spec i r2); [contradiction|].
      destruct (Z.eqb_spec i r1); [contradiction|]. apply HW; [lia | exact Hnz].
  - intros U HU. destruct (HOpt U HU) as (U' & HU' & Hcost).
    rewrite (live_counts_before t n r1 r2 Htwo) in HU'.
    destruct (other_counts_above t n r1 r2 Htwo) as [Ha Hb].
    destruct (merge_two_smallest U' _ _ _ HU' Ha Hb) as (U'' & HU'' & Hcost').
    exists U''. split.
    + rewrite HU''. symmetry.
      apply (live_counts_after t t3 n r1 r2 _ M); [lia | exact Htwo | exact Hv].
    + rewrite (built_cost_merge w G t t3 n r1 r2 _ M) by assumption.
      rewrite <- (HW r1), <- (HW r2) by assumption. lia.
Qed.

(** When the loop stops after a merge, the tree under the last node created
    costs no more than any tree for the weights the loop started from. *)
Lemma generate_loop_optimal (w : Z -> Z) (fuel : nat) (t0 t' : FreqTree) (n' : Z) :
  gen_inv w t0 TOKEN_SIZE ->
  (forall i, 0 <= i < TOKEN_SIZE -> cnt t0 i = w i) ->
  generate_loop fuel t0 TOKEN_SIZE = Some (t', n') ->
  opt_post w (live_counts t0 TOKEN_SIZE) t' n'.
Proof.
  intros I Hw Hloop.
  apply (generate_loop_rule w (opt_inv w (live_counts t0 TOKEN_SIZE))
           (opt_post w (live_counts t0 TOKEN_SIZE)))
    with (fuel := fuel) (t := t0) (n := TOKEN_SIZE); auto.
  - intros t n r1 r2 t3 I1 HP Htwo M. exact (opt_inv_merge w _ t t3 n r1 r2 I1 HP Htwo M).
  - intros t n I1 _ Hall Hn T _. exfalso.
    apply (gi_last _ _ _ I1 Hn). apply Hall. consts. lia.
  - intros t n r1 c1 I1 (G & HG & HW & HOpt) Hr1 Hnz1 Hall Hset Hn T HT U HU.
    destruct (HOpt U HU) as (U' & HU' & Hcost).
    rewrite (live_counts_one t n r1 Hr1 Hnz1 Hall) in HU'.
    apply single_leaf in HU'. subst U'.
    rewrite (built_cost_one w G t n r1 Hr1 Hnz1 Hall) in Hcost.
    assert (E : n - 1 = r1).
    { destruct (Z.eq_dec (n - 1) r1) as [E|E]; [exact E|]. exfalso.
      apply (gi_last _ _ _ I1 Hn). apply Hall; [consts; lia | exact E]. }
    rewrite E in HT.
    assert (HT' : repr t r1 T) by (apply (repr_same_links (set_count t c1) t); auto).
    rewrite (repr_unique _ _ _ _ HT' (HG r1 Hr1)).
    assert (E0 : cost (Leaf (cnt t r1)) 0 = 0) by (unfold cost; simpl; lia).
    lia.
  - exists (fun i => Leaf i). split; [|split].
    + intros i Hi. apply repr_leaf. apply (gi_leaf _ _ _ I). exact Hi.
    + intros i Hi _. cbn [weight]. apply Hw. exact Hi.
    + intros U HU. exists U. split; [exact HU|]. rewrite built_cost_start. lia.
Qed.

Lemma sum_weighted_lengths (T : tree) :
  forall (d : Z) (f w : Z -> Z) (n : nat),
  NoDup (leaves T) -> (forall k, k ∈ leaves T -> 0 <= k < Z.of_nat n) ->
  (forall k p, path T p k -> f k = d + Z.of_nat (length p)) ->
  (forall k, 0 <= k < Z.of_nat n -> k ∉ leaves T -> f k = 0) ->
  sum_below (fun k => f k * w k) n = wpl w T d.
Proof.
  induction T as [tok | tl IHl tr IHr]; intros d f w n Hnd Hrange Hpath Hzero.
  - cbn [wpl]. rewrite (sum_below_ext _ (upd (fun _ => 0) tok (w tok * d))).
    + rewrite sum_below_upd.
      * rewrite sum_below_zero by auto. lia.
      * apply Hrange. simpl. apply list_elem_of_singleton. reflexivity.
    + intros i Hi. unfold upd. destruct (Z.eqb_spec i tok) as [->|Hne].
      * rewrite (Hpath tok [] (path_leaf tok)). simpl. lia.
      * rewrite Hzero; [lia | exact Hi |]. simpl. intros H.
        apply list_elem_of_singleton in H. contradiction.
  - cbn [wpl leaves] in *. apply NoDup_app in Hnd as (Hndl & Hdisj & Hndr).
    set (fl := fun k => if bool_decide (k ∈ leaves tl) then f k else 0).
    set (fr := fun k => if bool_decide (k ∈ leaves tr) then f k else 0).
    rewrite (sum_below_ext _ (fun k => fl k * w k + fr k * w k)).
    + rewrite (sum_below_add (fun k => fl k * w k) (fun k => fr k * w k)). f_equal.
      * apply IHl; [exact Hndl | | |].
        -- intros k Hk. apply Hrange. apply elem_of_app. auto.
        -- intros k p Hp. unfold fl.
           rewrite bool_decide_eq_true_2 by (eapply path_leaves; eauto).
           rewrite (Hpath k (0 :: p) (path_left _ _ _ _ Hp)). simpl length. lia.
        -- intros k _ Hk. unfold fl. rewrite bool_decide_eq_false_2 by exact Hk.
           reflexivity.
      * apply IHr; [exact Hndr | | |].
        -- intros k Hk. apply Hrange. apply elem_of_app. auto.
        -- intros k p Hp. unfold fr.
           rewrite bool_decide_eq_true_2 by (eapply path_leaves; eauto).
           rewrite (Hpath k (1 :: p) (path_right _ _ _ _ Hp)). simpl length. lia.
        -- intros k _ Hk. unfold fr. rewrite bool_decide_eq_false_2 by exact Hk.
           reflexivity.
    + intros k Hk. unfold fl, fr.
      destruct (bool_decide_reflect (k ∈ leaves tl)) as [Hl | Hl];
        destruct (bool_decide_reflect (k ∈ leaves tr)) as [Hr | Hr].
      * exfalso. exact (Hdisj k Hl Hr).
      * lia.
      * lia.
      * rewrite Hzero; [lia | exact Hk |]. rewrite elem_of_app. tauto.
Qed.

(** The build for a buffer with two symbols, and what makes its tree
    optimal: the weighted code lengths are the weighted path length of the
    tree, and no tree over the symbols has a smaller one. *)
Lemma build_optimal_spec (data : list Z) (enc0 : EncodedTable.t) :
  Forall is_byte data -> Z.of_nat (length data) < UINT32_MOD ->
  (exists a b, a ∈ data /\ b ∈ data /\ a <> b) ->
  Z.of_nat (length (EncodedTable.m_packedData enc0)) = MAX_ENCODING_TABLE_BYTES ->
  exists t0 t enc T,
    freq_tree_accumulate freq_tree_init data = Some t0 /\
    generate_huffman t0 = Some t /\
    create_encodings enc0 t = Some (code_bits T 0, enc) /\
    table_sizes enc /\
    NoDup (leaves T) /\ (forall k, k ∈ leaves T <-> k ∈ data) /\
    (forall i, cnt t0 i = occ i data) /\
    (forall k p, path T p k -> code_length enc k = Z.of_nat (length p)) /\
    Forall (has_code enc) data /\
    weighted_code_length t0 enc = wpl (fun k => occ k data) T 0 /\
    forall T' : tree, leaves T' ≡ₚ symbols data ->
      wpl (fun k => occ k data) T 0 <= wpl (fun k => occ k data) T' 0.
Proof.
  intros Hb Hlen Htwo Hplen.
  destruct (build_spec data enc0 Hb Hlen Htwo Hplen)
    as (t0 & t & enc & T & Hacc & Ha & Hocc & Hgen & Hts & Hrepr & (Tl & Tr & HT) & Hnd
        & Hleaves & Hce & Hsz & Hcur & Hpaths & Hzero).
  exists t0, t, enc, T.
  split; [exact Hacc|]. split; [exact Hgen|]. split; [exact Hce|].
  split; [exact Hsz|]. split; [exact Hnd|]. split; [exact Hleaves|].
  split; [exact Hocc|].
  assert (Hlenp : forall k p, path T p k -> code_length enc k = Z.of_nat (length p)).
  { intros k p Hp. destruct (Hpaths k p Hp) as (off & _ & Hbc & _).
    exact (code_length_path _ _ _ Hbc). }
  split; [exact Hlenp|].
  split; [exact (build_has_code data enc0 enc T Hleaves Hpaths)|].
  assert (Hsum : weighted_code_length t0 enc = wpl (fun k => occ k data) T 0).
  { unfold weighted_code_length.
    rewrite (sum_below_ext _ (fun k => code_length enc k * occ k data))
      by (intros k _; cbv beta; rewrite Hocc; reflexivity).
    apply (sum_weighted_lengths T 0 (code_length enc) (fun k => occ k data)
             (Z.to_nat TOKEN_SIZE)).
    - exact Hnd.
    - intros k Hk. apply Hleaves in Hk.
      pose proof (proj1 (list.Forall_forall _ _) Hb k Hk) as Hkb.
      unfold is_byte in Hkb. rewrite Z2Nat.id by (consts; lia). exact Hkb.
    - intros k p Hp. rewrite (Hlenp k p Hp). lia.
    - intros k Hk Hnot. rewrite Z2Nat.id in Hk by (consts; lia).
      unfold code_length. rewrite (Hzero k Hk Hnot). reflexivity. }
  split; [exact Hsum|].
  intros T' HT'.
  destruct (generate_huffman_spec t0 Ha) as (t' & n & Hloop & Hgen' & Hpost).
  assert (Et : t = set_top t' (n - 1)) by congruence.
  pose proof (accumulated_gen_inv t0 Ha) as I.
  pose proof (generate_loop_optimal (cnt t0) _ t0 t' n I (fun i _ => eq_refl) Hloop)
    as Hopt.
  assert (Hn : TOKEN_SIZE < n).
  { destruct Hpost as (_ & _ & _ & [[-> Hone] | [Hn _]]); [|exact Hn]. exfalso.
    destruct Htwo as (a & b & Hina & Hinb & Hab). apply Hab.
    assert (Hba : 0 <= a < TOKEN_SIZE) by exact (proj1 (list.Forall_forall _ _) Hb a Hina).
    assert (Hbb : 0 <= b < TOKEN_SIZE) by exact (proj1 (list.Forall_forall _ _) Hb b Hinb).
    apply Hone; auto; rewrite Hocc; apply occ_pos; assumption. }
  assert (Hrepr' : repr t' (n - 1) T).
  { rewrite Et in Hrepr. cbn [m_top set_top] in Hrepr.
    apply (repr_same_links (set_top t' (n - 1)) t'); auto. }
  assert (HU : leaves (relabel (cnt t0) T') ≡ₚ live_counts t0 TOKEN_SIZE).
  { rewrite leaves_relabel. unfold live_counts.
    rewrite (list_filter_iff (fun i => cnt t0 i <> 0) (fun i => occ i data <> 0))
      by (intros i; rewrite Hocc; reflexivity).
    fold (symbols data). apply Permutation_map. exact HT'. }
  specialize (Hopt Hn T Hrepr' (relabel (cnt t0) T') HU).
  rewrite cost_relabel in Hopt.
  rewrite (wpl_ext (cnt t0) (fun k => occ k data) T') in Hopt by (intros k _; apply Hocc).
  rewrite (wpl_ext (cnt t0) (fun k => occ k data) T) in Hopt by (intros k _; apply Hocc).
  exact Hopt.
Qed.



(** * Consequences of optimality *)

Lemma wpl_relabel (w f : Z -> Z) (T : tree) :
  forall d, wpl w (relabel f T) d = wpl (fun k => w (f k)) T d.
Proof.
  induction T as [k | l IHl r IHr]; intros d; cbn [wpl relabel].
  - reflexivity.
  - rewrite IHl, IHr. reflexivity.
Qed.

(** Changing the weight of one token moves the weighted path length by the
    change times the depth of the token. *)
Lemma wpl_upd (w : Z -> Z) (T : tree) (p : list Z) (a v : Z) :
  NoDup (leaves T) -> path T p a ->
  forall d, wpl (upd w a v) T d = wpl w T d + (v - w a) * (d + Z.of_nat (length p)).
Proof.
  intros Hnd Hp. induction Hp as [k | l r q k Hq IH | l r q k Hq IH]; intros d.
  - cbn [wpl length]. unfold upd. rewrite Z.eqb_refl. lia.
  - cbn [leaves] in Hnd. apply NoDup_app in Hnd as (Hndl & Hdisj & _).
    cbn [wpl length]. rewrite (IH Hndl).
    rewrite (wpl_ext (upd w k v) w r).
    + lia.
    + intros j Hj. unfold upd. destruct (Z.eqb_spec j k) as [-> | _]; [|reflexivity].
      exfalso. apply (Hdisj k); [eapply path_leaves; eauto | exact Hj].
  - cbn [leaves] in Hnd. apply NoDup_app in Hnd as (_ & Hdisj & Hndr).
    cbn [wpl length]. rewrite (IH Hndr).
    rewrite (wpl_ext (upd w k v) w l).
    + lia.
    + intros j Hj. unfold upd. destruct (Z.eqb_spec j k) as [-> | _]; [|reflexivity].
      exfalso. apply (Hdisj k); [exact Hj | eapply path_leaves; eauto].
Qed.

Lemma swap_tokens_involutive (a b k : Z) : swap_tokens a b (swap_tokens a b k) = k.
Proof.
  unfold swap_tokens.
  destruct (Z.eqb_spec k a) as [-> | Hka].
  - destruct (Z.eqb_spec b a) as [-> | Hba]; [reflexivity|]. rewrite Z.eqb_refl. reflexivity.
  - destruct (Z.eqb_spec k b) as [-> | Hkb].
    + rewrite Z.eqb_refl. reflexivity.
    + destruct (Z.eqb_spec k a); [contradiction|].
      destruct (Z.eqb_spec k b); [contradiction | reflexivity].
Qed.

Lemma nodup_map_inj (f : Z -> Z) (l : list Z) :
  (forall x y, f x = f y -> x = y) -> NoDup l -> NoDup (map f l).
Proof.
  intros Hinj. induction 1 as [|x l Hx _ IH]; cbn [map]; constructor; [|exact IH].
  intros Hin. apply list_elem_of_In, in_map_iff in Hin as (y & Hy & Hyl).
  apply Hinj in Hy. subst y. apply Hx, list_elem_of_In, Hyl.
Qed.

Lemma swap_tokens_leaves (a b : Z) (l : list Z) :
  NoDup l -> a ∈ l -> b ∈ l -> map (swap_tokens a b) l ≡ₚ l.
Proof.
  intros Hnd Ha Hb.
  assert (Hmem : forall k, k ∈ l -> swap_tokens a b k ∈ l).
  { intros k Hk. unfold swap_tokens.
    destruct (k =? a); [exact Hb|]. destruct (k =? b); [exact Ha | exact Hk]. }
  apply NoDup_Permutation; [|exact Hnd|].
  - apply nodup_map_inj; [|exact Hnd].
    intros x y H. rewrite <- (swap_tokens_involutive a b x), H.
    apply swap_tokens_involutive.
  - intros k. split.
    + intros Hk. apply list_elem_of_In, in_map_iff in Hk as (y & <- & Hy).
      apply Hmem, list_elem_of_In, Hy.
    + intros Hk. apply list_elem_of_In, in_map_iff.
      exists (swap_tokens a b k). split; [apply swap_tokens_involutive|].
      apply list_elem_of_In, Hmem, Hk.
Qed.



Lemma balanced_tree (d : nat) :
  forall l : list Z, (1 <= length l)%nat -> (length l <= 2 ^ d)%nat ->
  exists T, leaves T = l /\ (height T <= d)%nat.
Proof.
  induction d as [|d IH]; intros l Hlo Hhi.
  - simpl in Hhi. destruct l as [|x [|y l]]; simpl in *; try lia.
    exists (Leaf x). auto.
  - destruct (decide (length l = 1%nat)) as [H1 | H1].
    + destruct l as [|x [|y l]]; simpl in *; try lia.
      exists (Leaf x). split; [reflexivity | simpl; lia].
    + rewrite Nat.pow_succ_r' in Hhi.
      set (k := (length l / 2)%nat).
      assert (Hk : (1 <= k /\ k <= 2 ^ d /\ 1 <= length l - k /\ length l - k <= 2 ^ d)%nat).
      { unfold k. pose proof (Nat.div_mod_eq (length l) 2) as E.
        pose proof (Nat.mod_upper_bound (length l) 2 ltac:(lia)). lia. }
      destruct (IH (take k l)) as (T1 & HT1 & Hh1);
        [rewrite length_take; lia | rewrite length_take; lia |].
      destruct (IH (drop k l)) as (T2 & HT2 & Hh2);
        [rewrite length_drop; lia | rewrite length_drop; lia |].
      exists (Node T1 T2). cbn [leaves height]. rewrite HT1, HT2, take_drop.
      split; [reflexivity | lia].
Qed.

Lemma weight_nonneg (w : Z -> Z) (T : tree) :
  (forall k, k ∈ leaves T -> 0 <= w k) -> 0 <= weight w T.
Proof.
  induction T as [k | l IHl r IHr]; intros H; cbn [weight].
  - apply H. simpl. apply list_elem_of_here.
  - assert (0 <= weight w l) by (apply IHl; intros k Hk; apply H; simpl; apply elem_of_app; auto).
    assert (0 <= weight w r) by (apply IHr; intros k Hk; apply H; simpl; apply elem_of_app; auto).
    lia.
Qed.

(** No leaf is deeper than the height, so the weighted path length is at
    most the height times the weight. *)
Lemma wpl_le_height (w : Z -> Z) (T : tree) :
  (forall k, k ∈ leaves T -> 0 <= w k) ->
  forall d, 0 <= d -> wpl w T d <= (d + Z.of_nat (height T)) * weight w T.
Proof.
  induction T as [k | l IHl r IHr]; intros H d Hd; cbn [wpl weight height].
  - assert (0 <= w k) by (apply H; simpl; apply list_elem_of_here). nia.
  - assert (Hl : forall k, k ∈ leaves l -> 0 <= w k)
      by (intros k Hk; apply H; simpl; apply elem_of_app; auto).
    assert (Hr : forall k, k ∈ leaves r -> 0 <= w k)
      by (intros k Hk; apply H; simpl; apply elem_of_app; auto).
    pose proof (IHl Hl (d + 1) ltac:(lia)). pose proof (IHr Hr (d + 1) ltac:(lia)).
    pose proof (weight_nonneg w l Hl). pose proof (weight_nonneg w r Hr).
    nia.
Qed.

Lemma lsum_app (l1 l2 : list Z) : lsum (l1 ++ l2) = lsum l1 + lsum l2.
Proof.
  unfold lsum. induction l1 as [|x l1 IH]; simpl; [reflexivity|]. rewrite IH. lia.
Qed.

Lemma weight_lsum (w : Z -> Z) (T : tree) : weight w T = lsum (map w (leaves T)).
Proof.
  induction T as [k | l IHl r IHr]; cbn [weight leaves map].
  - unfold lsum. simpl. lia.
  - rewrite map_app, lsum_app, IHl, IHr. reflexivity.
Qed.

Lemma lsum_filter (f : Z -> Z) (n : nat) :
  lsum (map f (filter (fun k => f k <> 0) (seqZ 0 (Z.of_nat n)))) = sum_below f n.
Proof.
  induction n as [|n IH]; [reflexivity|].
  rewrite seqZ_S, filter_app, map_app, lsum_app, IH. cbn [sum_below].
  rewrite Z.add_0_l. f_equal.
  destruct (decide (f (Z.of_nat n) <> 0)) as [Hnz | Hz].
  - rewrite filter_cons_True by exact Hnz. unfold lsum. simpl. lia.
  - rewrite filter_cons_False by exact Hz. unfold lsum. simpl. lia.
Qed.

(** The frequencies of the symbols add up to the length of the buffer. *)
Lemma weight_symbols (data : list Z) (T : tree) :
  Forall is_byte data -> leaves T = symbols data ->
  weight (fun k => occ k data) T = Z.of_nat (length data).
Proof.
  intros Hb HT. rewrite weight_lsum, HT. unfold symbols.
  change TOKEN_SIZE with (Z.of_nat 256).
  rewrite (lsum_filter (fun k => occ k data) 256).
  apply sum_below_occ. exact Hb.
Qed.

(** Whatever the build returns for a buffer with two symbols, its codes
    spend at most eight bits on a byte. *)
Lemma encoded_bits_bound (data : list Z) (enc0 enc : EncodedTable.t) (t0 t : FreqTree)
    (total : Z) :
  Forall is_byte data -> Z.of_nat (length data) < UINT32_MOD ->
  (exists a b, a ∈ data /\ b ∈ data /\ a <> b) ->
  Z.of_nat (length (EncodedTable.m_packedData enc0)) = MAX_ENCODING_TABLE_BYTES ->
  freq_tree_accumulate freq_tree_init data = Some t0 ->
  generate_huffman t0 = Some t ->
  create_encodings enc0 t = Some (total, enc) ->
  Forall (has_code enc) data /\ table_sizes enc /\
  encoded_bits enc data = weighted_code_length t0 enc /\
  weighted_code_length t0 enc <= 8 * Z.of_nat (length data).
Proof.
  intros Hb Hlen Htwo Hplen Hacc Hgen Hce.
  destruct (build_optimal_spec data enc0 Hb Hlen Htwo Hplen)
    as (t0' & t' & enc' & T & Hacc' & Hgen' & Hce' & Hsz & Hnd & Hleaves & Hocc & _ & Hcode
        & Hsum & Hopt).
  assert (t0' = t0) by congruence. subst t0'.
  assert (t' = t) by congruence. subst t'.
  assert (enc' = enc) by congruence. subst enc'.
  split; [exact Hcode|]. split; [exact Hsz|].
  split; [exact (encoded_bits_weighted t0 enc data Hb Hocc)|].
  assert (Hn : (1 <= length (symbols data) <= 2 ^ 8)%nat).
  { split.
    - destruct Htwo as (a & _ & Ha & _).
      apply (elem_of_symbols data a Hb) in Ha.
      destruct (symbols data); [apply elem_of_nil in Ha; contradiction | simpl; lia].
    - unfold symbols. etransitivity; [apply length_filter|].
      rewrite length_seqZ. reflexivity. }
  destruct (balanced_tree 8 (symbols data)) as (T' & HT' & Hh); [lia | lia |].
  assert (Hperm : leaves T' ≡ₚ symbols data) by (rewrite HT'; reflexivity).
  pose proof (Hopt T' Hperm) as Hle.
  pose proof (wpl_le_height (fun k => occ k data) T'
                (fun k _ => occ_nonneg k data) 0 ltac:(lia)) as Hwh.
  rewrite (weight_symbols data T' Hb HT') in Hwh.
  rewrite Hsum. nia.
Qed.




